(** * Verification of the llmrouter flow engine, its provider clients and its proxy

    Shallow embedding of the TypeScript sources:
    - [src/flows/parser.ts]   ([parseFlowDescription], [validateFlow], [formatStepPrompt]);
    - [src/flows/executor.ts] ([FlowExecutor.execute]);
    - [src/llm/claude.ts], [src/llm/openai.ts] (request bodies and [handleStream]);
    - [api/chat.ts]           (the serverless [handler]).

    JavaScript strings are modelled as Rocq [string]s (sequences of 8-bit
    characters); the whitespace of [String.prototype.trim] and of the regular
    expression class [\s] is modelled by its ASCII part, the same set for both. *)

From Stdlib Require Import String Ascii List Bool Arith Lia ZArith QArith DecimalString.
Import ListNotations.
Open Scope list_scope.
Open Scope string_scope.
Open Scope nat_scope.

(** ** JavaScript string primitives *)
Module JsString.

(** ASCII part of the ECMAScript WhiteSpace and LineTerminator sets. *)
Definition is_ws (c : ascii) : bool :=
  match nat_of_ascii c with
  | 9 | 10 | 11 | 12 | 13 | 32 => true
  | _ => false
  end.

Fixpoint drop_ws (l : list ascii) : list ascii :=
  match l with
  | [] => []
  | c :: t => if is_ws c then drop_ws t else l
  end.

(** [s.trim()] *)
Definition trim_list (l : list ascii) : list ascii :=
  rev (drop_ws (rev (drop_ws l))).

Definition trim (s : string) : string :=
  string_of_list_ascii (trim_list (list_ascii_of_string s)).

(** [s.toLowerCase()] on ASCII letters. *)
Definition lower_char (c : ascii) : ascii :=
  let n := nat_of_ascii c in
  if (65 <=? n) && (n <=? 90) then ascii_of_nat (n + 32) else c.

Definition toLowerCase (s : string) : string :=
  string_of_list_ascii (map lower_char (list_ascii_of_string s)).

(** Regular-expression [\w]: [A-Za-z0-9_]. *)
Definition is_word_char (c : ascii) : bool :=
  let n := nat_of_ascii c in
  ((48 <=? n) && (n <=? 57)) || ((65 <=? n) && (n <=? 90))
  || ((97 <=? n) && (n <=? 122)) || (n =? 95).

(** [\b] at position [p] of [l]. *)
Definition is_boundary (l : list ascii) (p : nat) : bool :=
  let before := match p with
                | 0 => false
                | S q => match nth_error l q with Some c => is_word_char c | None => false end
                end in
  let after := match nth_error l p with Some c => is_word_char c | None => false end in
  xorb before after.

(** Case-insensitive (flag [i]) literal prefix test. *)
Fixpoint prefix_ci (pat l : list ascii) : bool :=
  match pat, l with
  | [], _ => true
  | c :: pt, d :: lt => Ascii.eqb (lower_char c) (lower_char d) && prefix_ci pt lt
  | _ :: _, [] => false
  end.

End JsString.

(** ** The flow parser: [src/flows/parser.ts] *)
Module Parser.
Import JsString.

Record FlowStep := mkFlowStep {
  order : nat;
  instruction : string;
  usesPreviousOutput : bool
}.

Record ParsedFlow := mkParsedFlow {
  steps : list FlowStep;
  rawDescription : string
}.

(** The alternatives of
    [/\b(this|that|it|the (result|output|response|text|content))\b/i],
    in the order the regular expression tries them. *)
Definition reference_alternatives : list string :=
  ["this"; "that"; "it"; "the result"; "the output"; "the response";
   "the text"; "the content"].

Definition match_at (l : list ascii) (p : nat) : bool :=
  is_boundary l p &&
  existsb (fun a => let al := list_ascii_of_string a in
                    prefix_ci al (skipn p l) && is_boundary l (p + length al))
          reference_alternatives.

(** [RegExp.prototype.test]: a match at some start position. *)
Definition referencesOutput (prompt : string) : bool :=
  let l := list_ascii_of_string prompt in
  existsb (match_at l) (seq 0 (S (length l))).

(** JavaScript truthiness of an optional string ([previousOutput?: string]). *)
Definition truthy_str (o : option string) : bool :=
  match o with
  | Some s => negb (String.eqb s "")
  | None => false
  end.

Definition nl : string := String (ascii_of_nat 10) "".

Definition formatStepPrompt (step : FlowStep) (previousOutput : option string) : string :=
  let prompt := instruction step in
  if usesPreviousOutput step && truthy_str previousOutput then
    let prev := match previousOutput with Some s => s | None => "" end in
    if referencesOutput prompt then
      "Given this content:" ++ nl ++ nl ++ prev ++ nl ++ nl ++ prompt
    else
      prompt ++ nl ++ nl ++ "Content to work with:" ++ nl ++ prev
  else prompt.

(** [const STEP_KEYWORDS] *)
Definition STEP_KEYWORDS : list string :=
  ["first"; "then"; "next"; "after that"; "finally"; "lastly";
   "subsequently"; "following that"; "and then"].

Definition includes (l : list string) (x : string) : bool :=
  existsb (String.eqb x) l.

Definition is_blank (s : string) : bool := String.eqb (trim s) "".

(** [s.split(/\s+/)]: the pieces between maximal runs of whitespace
    (an empty first or last piece when [s] starts or ends with whitespace). *)
Fixpoint split_ws_aux (l : list ascii) (cur : list ascii) (prev_ws : bool)
    (acc : list string) : list string :=
  match l with
  | [] => rev (string_of_list_ascii cur :: acc)
  | c :: t =>
      if is_ws c then
        if prev_ws then split_ws_aux t cur true acc
        else split_ws_aux t [] true (string_of_list_ascii cur :: acc)
      else split_ws_aux t (app cur [c]) false acc
  end.

Definition split_ws (s : string) : list string :=
  split_ws_aux (list_ascii_of_string s) [] false [].

Definition is_punct (c : ascii) : bool :=
  match nat_of_ascii c with
  | 44 | 59 | 46 => true   (* , ; . *)
  | _ => false
  end.

(** [s.split(/[,;.]/)] *)
Fixpoint split_punct_aux (l : list ascii) (cur : list ascii) (acc : list string)
    : list string :=
  match l with
  | [] => rev (string_of_list_ascii cur :: acc)
  | c :: t =>
      if is_punct c then split_punct_aux t [] (string_of_list_ascii cur :: acc)
      else split_punct_aux t (app cur [c]) acc
  end.

Definition split_punct (s : string) : list string :=
  split_punct_aux (list_ascii_of_string s) [] [].

(** [if (currentSegment.trim()) segments.push(currentSegment.trim())] *)
Definition push_segment (cur : string) (segments : list string) : list string :=
  if is_blank cur then segments else app segments [trim cur].

(** The [for] loop over [words]; the two-word branch skips the next word. *)
Fixpoint keyword_loop (words : list string) (currentSegment : string)
    (segments : list string) {struct words} : string * list string :=
  match words with
  | [] => (currentSegment, segments)
  | w :: rest =>
      let word := toLowerCase w in
      let nextWord := match rest with n :: _ => toLowerCase n | [] => "" end in
      let twoWords := word ++ " " ++ nextWord in
      if includes STEP_KEYWORDS twoWords then
        match rest with
        | [] => ("", push_segment currentSegment segments)
        | _ :: rest' => keyword_loop rest' "" (push_segment currentSegment segments)
        end
      else if includes STEP_KEYWORDS word then
        keyword_loop rest "" (push_segment currentSegment segments)
      else keyword_loop rest (currentSegment ++ w ++ " ") segments
  end.

(** [segments.forEach((segment, index) => ...)] *)
Fixpoint make_steps (segments : list string) (index : nat) : list FlowStep :=
  match segments with
  | [] => []
  | segment :: t =>
      let instr := trim segment in
      if negb (String.eqb instr "") then
        mkFlowStep (index + 1) instr (0 <? index) :: make_steps t (S index)
      else make_steps t (S index)
  end.

Definition parseFlowDescription (description : string) : ParsedFlow :=
  if String.eqb description "" || is_blank description then
    mkParsedFlow [] description
  else
    let normalized := trim description in
    let words := split_ws normalized in
    let '(currentSegment, segments) := keyword_loop words "" [] in
    let segments := push_segment currentSegment segments in
    let segments :=
      if length segments <=? 1
      then filter (fun s => negb (is_blank s)) (split_punct normalized)
      else segments in
    let segments := match segments with [] => [normalized] | _ => segments end in
    mkParsedFlow (make_steps segments 0) description.

Record ValidationResult := mkValidation { valid : bool; error : option string }.

Definition nat_to_string (n : nat) : string :=
  NilEmpty.string_of_uint (Nat.to_uint n).

Fixpoint first_blank_step (l : list FlowStep) : option FlowStep :=
  match l with
  | [] => None
  | st :: t => if is_blank (instruction st) then Some st else first_blank_step t
  end.

Definition validateFlow (flow : ParsedFlow) : ValidationResult :=
  match steps flow with
  | [] => mkValidation false (Some "Flow must contain at least one step")
  | _ =>
      match first_blank_step (steps flow) with
      | Some st =>
          mkValidation false
            (Some ("Step " ++ nat_to_string (order st) ++ " has no instruction"))
      | None => mkValidation true None
      end
  end.

(** The ParsedFlow invariant of the data model. *)
Definition flow_invariant (flow : ParsedFlow) : Prop :=
  steps flow <> [] /\
  map order (steps flow) = seq 1 (length (steps flow)) /\
  (forall st, hd_error (steps flow) = Some st -> usesPreviousOutput st = false).

End Parser.

(** ** Shared LLM types: [src/llm/types.ts] *)
Module LLMTypes.

Inductive LLMProvider := openai | claude.

Inductive Role := user | assistant | system.

Definition role_eqb (a b : Role) : bool :=
  match a, b with
  | user, user | assistant, assistant | system, system => true
  | _, _ => false
  end.

Record Message := mkMessage { role : Role; content : string }.

(** [temperature] is a JavaScript number, kept as a rational. *)
Record ChatRequest := mkChatRequest {
  messages : list Message;
  temperature : option Q;
  maxTokens : option Z;
  stream : option bool
}.

Record Usage := mkUsage { promptTokens : Z; completionTokens : Z; totalTokens : Z }.

Record ChatResponse := mkChatResponse {
  resp_content : string;
  provider : LLMProvider;
  model : string;
  usage : option Usage
}.

Record StreamChunk := mkStreamChunk { chunk_content : string; done : bool }.

(** A thrown JavaScript value: an [Error] object with its [message], or any
    other value. *)
Inductive JsThrown := ErrorObj (message : string) | NonError.

Inductive outcome (A : Type) := Ok (a : A) | Throw (e : JsThrown).
Arguments Ok {A} a.
Arguments Throw {A} e.

End LLMTypes.

(** ** The flow executor: [src/flows/executor.ts] *)
Module Executor.
Import Parser LLMTypes.

Inductive StepStatus := pending | running | completed | error_st.

Record StepExecution := mkStepExecution {
  step : FlowStep;
  status : StepStatus;
  output : option string;
  error : option string;
  startTime : option Z;
  endTime : option Z
}.

Inductive FlowStatus := f_running | f_completed | f_error.

Record FlowExecution := mkFlowExecution {
  ex_steps : list StepExecution;
  ex_status : FlowStatus;
  currentStepIndex : nat;
  ex_startTime : Z;
  ex_endTime : option Z
}.

(** The world an [execute] call runs in: the execution object it mutates,
    the snapshots handed to the progress observer (each is the execution as
    the observer, called synchronously, reads it during its call), the
    requests sent to the client so far and the number of clock reads. *)
Record World := mkWorld {
  exec : FlowExecution;
  notifications : list FlowExecution;
  history : list ChatRequest;
  ticks : nat
}.

Definition M (A : Type) := World -> outcome A * World.

Definition ret {A} (a : A) : M A := fun w => (Ok a, w).
Definition throw {A} (e : JsThrown) : M A := fun w => (Throw e, w).
Definition bind {A B} (m : M A) (k : A -> M B) : M B :=
  fun w => match m w with
           | (Ok a, w') => k a w'
           | (Throw e, w') => (Throw e, w')
           end.

Notation "x <- m ;; k" := (bind m (fun x => k)) (at level 61, m at next level, right associativity).
Notation "m ;;; k" := (bind m (fun _ => k)) (at level 61, right associativity).

Definition get_exec : M FlowExecution := fun w => (Ok (exec w), w).
Definition set_exec (e : FlowExecution) : M unit :=
  fun w => (Ok tt, mkWorld e (notifications w) (history w) (ticks w)).

(** [onProgress({ ...execution })] when an observer was supplied. *)
Definition notify (hasProgress : bool) : M unit :=
  fun w => (Ok tt, mkWorld (exec w)
                     (if hasProgress then app (notifications w) [exec w] else notifications w)
                     (history w) (ticks w)).

Fixpoint set_nth {A} (i : nat) (f : A -> A) (l : list A) : list A :=
  match l, i with
  | [], _ => []
  | x :: t, 0 => f x :: t
  | x :: t, S j => x :: set_nth j f t
  end.

Definition set_status (st : StepStatus) (se : StepExecution) : StepExecution :=
  mkStepExecution (step se) st (output se) (error se) (startTime se) (endTime se).
Definition set_startTime (t : Z) (se : StepExecution) : StepExecution :=
  mkStepExecution (step se) (status se) (output se) (error se) (Some t) (endTime se).
Definition set_endTime (t : Z) (se : StepExecution) : StepExecution :=
  mkStepExecution (step se) (status se) (output se) (error se) (startTime se) (Some t).
Definition set_output (o : string) (se : StepExecution) : StepExecution :=
  mkStepExecution (step se) (status se) (Some o) (error se) (startTime se) (endTime se).
Definition set_error (m : string) (se : StepExecution) : StepExecution :=
  mkStepExecution (step se) (status se) (output se) (Some m) (startTime se) (endTime se).

(** [execution.steps[i].<field> = ...] *)
Definition update_step (i : nat) (f : StepExecution -> StepExecution) : M unit :=
  e <- get_exec ;;
  set_exec (mkFlowExecution (set_nth i f (ex_steps e)) (ex_status e)
              (currentStepIndex e) (ex_startTime e) (ex_endTime e)).

Definition set_flow_status (st : FlowStatus) : M unit :=
  e <- get_exec ;;
  set_exec (mkFlowExecution (ex_steps e) st (currentStepIndex e) (ex_startTime e) (ex_endTime e)).

Definition set_flow_endTime (t : Z) : M unit :=
  e <- get_exec ;;
  set_exec (mkFlowExecution (ex_steps e) (ex_status e) (currentStepIndex e) (ex_startTime e) (Some t)).

Definition set_currentStepIndex (i : nat) : M unit :=
  e <- get_exec ;;
  set_exec (mkFlowExecution (ex_steps e) (ex_status e) i (ex_startTime e) (ex_endTime e)).

Definition pending_step (s : FlowStep) : StepExecution :=
  mkStepExecution s pending None None None None.

(** [error instanceof Error ? error.message : 'Unknown error'] *)
Definition error_message (e : JsThrown) : string :=
  match e with ErrorObj m => m | NonError => "Unknown error" end.

Section Execute.

(** The provider client, as the answer it gives to a request given the
    requests it received before; and the clock read by [Date.now()] at its
    [n]-th reading. *)
Variable chat : list ChatRequest -> ChatRequest -> outcome ChatResponse.
Variable now : nat -> Z.

Definition date_now : M Z :=
  fun w => (Ok (now (ticks w)), mkWorld (exec w) (notifications w) (history w) (S (ticks w))).

(** [this.llmClient.chat(...)]: the request is recorded as sent. *)
Definition call_chat (req : ChatRequest) : M ChatResponse :=
  fun w => (chat (history w) req,
            mkWorld (exec w) (notifications w) (app (history w) [req]) (ticks w)).

(** [{ messages: [{ role: 'user', content: prompt }], stream: !!onStepStream }] *)
Definition step_request (prompt : string) (hasStream : bool) : ChatRequest :=
  mkChatRequest [mkMessage user prompt] None None (Some hasStream).

(** One iteration of the [for] loop body; returns the new [previousOutput]. *)
Definition run_step (hasProgress hasStream : bool) (i : nat) (previousOutput : string)
    : M string :=
  e <- get_exec ;;
  match nth_error (ex_steps e) i with
  | None => throw (ErrorObj "Cannot set properties of undefined")
  | Some stepExecution =>
      update_step i (set_status running) ;;;
      t <- date_now ;;
      update_step i (set_startTime t) ;;;
      set_currentStepIndex i ;;;
      notify hasProgress ;;;
      let prompt := formatStepPrompt (step stepExecution) (Some previousOutput) in
      fun w =>
        match call_chat (step_request prompt hasStream) w with
        | (Ok response, w1) =>
            (update_step i (set_output (resp_content response)) ;;;
             update_step i (set_status completed) ;;;
             t2 <- date_now ;;
             update_step i (set_endTime t2) ;;;
             notify hasProgress ;;;
             ret (resp_content response)) w1
        | (Throw err, w1) =>
            (update_step i (set_status error_st) ;;;
             update_step i (set_error (error_message err)) ;;;
             t2 <- date_now ;;
             update_step i (set_endTime t2) ;;;
             set_flow_status f_error ;;;
             t3 <- date_now ;;
             set_flow_endTime t3 ;;;
             notify hasProgress ;;;
             throw err) w1
        end
  end.

(** [for (let i = ...; i < flow.steps.length; i++)], with [n] iterations left. *)
Fixpoint run_loop (hasProgress hasStream : bool) (n i : nat) (previousOutput : string)
    : M unit :=
  match n with
  | 0 => ret tt
  | S n' =>
      previousOutput' <- run_step hasProgress hasStream i previousOutput ;;
      run_loop hasProgress hasStream n' (S i) previousOutput'
  end.

Definition execute (flow : ParsedFlow) (initialInput : string)
    (hasProgress hasStream : bool) : M FlowExecution :=
  t0 <- date_now ;;
  set_exec (mkFlowExecution (map pending_step (steps flow)) f_running 0 t0 None) ;;;
  notify hasProgress ;;;
  run_loop hasProgress hasStream (length (steps flow)) 0 initialInput ;;;
  set_flow_status f_completed ;;;
  t1 <- date_now ;;
  set_flow_endTime t1 ;;;
  notify hasProgress ;;;
  get_exec.

End Execute.

(** The world before a call: nothing sent, nothing notified. *)
Definition empty_execution : FlowExecution := mkFlowExecution [] f_running 0 0 None.
Definition initial_world : World := mkWorld empty_execution [] [] 0.

Definition run_execute chat now flow initialInput hasProgress hasStream :=
  execute chat now flow initialInput hasProgress hasStream initial_world.

(** A client that answers every request with the same response. *)
Definition ok_client : list ChatRequest -> ChatRequest -> outcome ChatResponse :=
  fun _ _ => Ok (mkChatResponse "ok" openai "gpt-4" None).

End Executor.

(** ** The flow panel's execute handler: [src/ui/flows.ts] ([handleExecuteFlow]) *)
Module FlowsUI.
Import JsString Parser.



End FlowsUI.

(** * The streaming readers of the two clients ([handleStream]) *)
Module Streaming.
Import JsString LLMTypes.
Local Set Warnings "-register-all".

(** A value produced by [JSON.parse], read with JavaScript's semantics;
    [JUndef] is [undefined], the value of a missing property. *)
Inductive jvalue :=
  | JUndef
  | JNull
  | JBool (b : bool)
  | JNum (n : Q)
  | JStr (s : string)
  | JArr (xs : list jvalue)
  | JObj (kvs : list (string * jvalue)).

(** [JSON.parse] keeps the last of duplicate keys. *)
Fixpoint lookup_last (k : string) (kvs : list (string * jvalue)) : option jvalue :=
  match kvs with
  | [] => None
  | (k', v) :: t =>
      match lookup_last k t with
      | Some r => Some r
      | None => if String.eqb k k' then Some v else None
      end
  end.

(** [v.k]; [None] is the TypeError of reading a property of [null] or
    [undefined]. None of the keys read below ([type], [delta], [text],
    [choices], [content]) is a property of a primitive or of an array. *)
Definition member (v : jvalue) (k : string) : option jvalue :=
  match v with
  | JUndef | JNull => None
  | JObj kvs => Some (match lookup_last k kvs with Some x => x | None => JUndef end)
  | _ => Some JUndef
  end.

(** [v?.k] *)
Definition opt_member (v : jvalue) (k : string) : option jvalue :=
  match v with
  | JUndef | JNull => Some JUndef
  | _ => member v k
  end.

(** [v[0]] *)
Definition index0 (v : jvalue) : option jvalue :=
  match v with
  | JUndef | JNull => None
  | JArr (x :: _) => Some x
  | JStr (String a _) => Some (JStr (String a EmptyString))
  | JObj _ => member v "0"
  | _ => Some JUndef
  end.

(** Whether the conversion of [v] to a primitive ([String(v)], [s += v],
    [ToString] in [new Error(v)]) throws a TypeError. A value of [JSON.parse]
    is never callable, so an object with an own [toString] key has neither a
    callable [toString] nor a [valueOf] that gives a primitive; an object
    without one inherits [Object.prototype.toString]. An array converts
    through [join], which converts each element that is not [null] or
    [undefined]. *)
Fixpoint to_string_throws (v : jvalue) : bool :=
  match v with
  | JArr xs =>
      (fix any (xs : list jvalue) : bool :=
         match xs with
         | [] => false
         | x :: t => to_string_throws x || any t
         end) xs
  | JObj kvs => match lookup_last "toString" kvs with Some _ => true | None => false end
  | _ => false
  end.

(** [v === s] for a string literal [s]. *)
Definition is_str (v : jvalue) (s : string) : bool :=
  match v with JStr t => String.eqb t s | _ => false end.

(** [chunk.split('\n')] *)
Fixpoint split_nl (s : string) : list string :=
  match s with
  | EmptyString => [EmptyString]
  | String a s' =>
      let rest := split_nl s' in
      if Ascii.eqb a (ascii_of_nat 10) then EmptyString :: rest
      else match rest with
           | [] => [String a EmptyString]
           | h :: t => String a h :: t
           end
  end.

(** [chunk.split('\n').filter(line => line.trim() !== '')] *)
Definition lines_of (chunk : string) : list string :=
  filter (fun line => negb (String.eqb (trim line) "")) (split_nl chunk).

(** [line.slice(6)] *)
Definition slice6 (line : string) : string := substring 6 (String.length line) line.

(** One call of the observer: [onStream({ content, done })]. *)
Record Emitted := mkEmitted { em_content : jvalue; em_done : bool }.

(** The locals of [handleStream]: [fullContent] and what the observer received
    so far, in order. *)
Record StreamState := mkStreamState { fullContent : string; emitted : list Emitted }.

Definition stream_start : StreamState := mkStreamState "" [].

Section Readers.

(** The parts of the JavaScript runtime the readers rely on: the truthiness
    and the string conversion of a number (a double), and [JSON.parse]
    ([None] is its SyntaxError). *)
Variable num_truthy : Q -> bool.
Variable num_to_string : Q -> string.
Variable JSON_parse : string -> option jvalue.

Definition truthy (v : jvalue) : bool :=
  match v with
  | JUndef | JNull => false
  | JBool b => b
  | JNum n => num_truthy n
  | JStr s => negb (String.eqb s "")
  | JArr _ | JObj _ => true
  end.

(** [String(v)], as used by [fullContent += content], for a value whose
    conversion does not throw ([to_string_throws v = false]). *)
Fixpoint to_js_string (v : jvalue) : string :=
  match v with
  | JUndef => "undefined"
  | JNull => "null"
  | JBool b => if b then "true" else "false"
  | JNum n => num_to_string n
  | JStr s => s
  | JArr xs =>
      let fix join (xs : list jvalue) : string :=
        match xs with
        | [] => ""
        | [x] => match x with JUndef | JNull => "" | _ => to_js_string x end
        | x :: t => (match x with JUndef | JNull => "" | _ => to_js_string x end)
                    ++ "," ++ join t
        end in
      join xs
  | JObj _ => "[object Object]"
  end.

(** [x || ''] *)
Definition or_empty (v : jvalue) : jvalue := if truthy v then v else JStr "".

(** [if (content) { fullContent += content; onStream({ content, done: false }); }];
    the TypeError of [+=] on a value whose conversion throws is caught by the
    [try] around the line, which is then skipped. *)
Definition add_content (content : jvalue) (st : StreamState) : StreamState :=
  if truthy content then
    if to_string_throws content then st else
    mkStreamState (fullContent st ++ to_js_string content)
      (app (emitted st) [mkEmitted content false])
  else st.

Definition emit_done (st : StreamState) : StreamState :=
  mkStreamState (fullContent st) (app (emitted st) [mkEmitted (JStr "") true]).

(** The body of the [for (const line of lines)] loop of the Claude client; a
    TypeError or a SyntaxError inside the [try] leaves the state as it was. *)
Definition claude_line (st : StreamState) (line : string) : StreamState :=
  if String.prefix "data: " line then
    let data := slice6 line in
    match JSON_parse data with
    | None => st
    | Some parsed =>
        match member parsed "type" with
        | None => st
        | Some ty =>
            if is_str ty "content_block_delta" then
              match member parsed "delta" with
              | None => st
              | Some delta =>
                  match opt_member delta "text" with
                  | None => st
                  | Some text => add_content (or_empty text) st
                  end
              end
            else if is_str ty "message_stop" then emit_done st
            else st
        end
    end
  else st.

(** The same loop body of the OpenAI client. *)
Definition openai_line (st : StreamState) (line : string) : StreamState :=
  if String.prefix "data: " line then
    let data := slice6 line in
    if String.eqb data "[DONE]" then emit_done st else
    match JSON_parse data with
    | None => st
    | Some parsed =>
        match member parsed "choices" with
        | None => st
        | Some choices =>
            match index0 choices with
            | None => st
            | Some c0 =>
                match opt_member c0 "delta" with
                | None => st
                | Some delta =>
                    match opt_member delta "content" with
                    | None => st
                    | Some content => add_content (or_empty content) st
                    end
                end
            end
        end
    end
  else st.

(** [while (true) { ... reader.read() ... }] over the decoded chunks, then the
    returned [ChatResponse]. *)
Definition read_stream (on_line : StreamState -> string -> StreamState)
    (chunks : list string) : StreamState :=
  fold_left (fun st chunk => fold_left on_line (lines_of chunk) st) chunks stream_start.

Definition claude_handleStream (model : string) (chunks : list string)
    : list Emitted * ChatResponse :=
  let st := read_stream claude_line chunks in
  (emitted st, mkChatResponse (fullContent st) claude model None).

Definition openai_handleStream (model : string) (chunks : list string)
    : list Emitted * ChatResponse :=
  let st := read_stream openai_line chunks in
  (emitted st, mkChatResponse (fullContent st) openai model None).

(** The text the observer has received through the given calls. *)
Definition emitted_text (evs : list Emitted) : string :=
  fold_left (fun acc e => if em_done e then acc else acc ++ to_js_string (em_content e))
    evs "".

End Readers.

End Streaming.

(** Concrete streams for the readers: server-sent events as the two APIs send
    them, and [JSON.parse] on the texts they carry. *)
Module StreamExample.
Import Streaming.

Definition dq : string := String (ascii_of_nat 34) EmptyString.
Definition quoted (s : string) : string := dq ++ s ++ dq.
Definition lf : string := String (ascii_of_nat 10) EmptyString.

Definition claude_delta_json (t : string) : string :=
  "{" ++ quoted "type" ++ ":" ++ quoted "content_block_delta" ++ "," ++ quoted "delta"
  ++ ":{" ++ quoted "type" ++ ":" ++ quoted "text_delta" ++ "," ++ quoted "text" ++ ":"
  ++ quoted t ++ "}}".
Definition claude_delta_value (t : string) : jvalue :=
  JObj [("type", JStr "content_block_delta");
        ("delta", JObj [("type", JStr "text_delta"); ("text", JStr t)])].
Definition claude_stop_json : string := "{" ++ quoted "type" ++ ":" ++ quoted "message_stop" ++ "}".
Definition claude_stop_value : jvalue := JObj [("type", JStr "message_stop")].

Definition openai_delta_json (t : string) : string :=
  "{" ++ quoted "choices" ++ ":[{" ++ quoted "delta" ++ ":{" ++ quoted "content" ++ ":"
  ++ quoted t ++ "}}]}".
Definition openai_delta_value (t : string) : jvalue :=
  JObj [("choices", JArr [JObj [("delta", JObj [("content", JStr t)])]])].

(** [JSON.parse] on the texts of the examples. *)
Definition example_table : list (string * jvalue) :=
  [(claude_delta_json "Hel", claude_delta_value "Hel");
   (claude_delta_json "lo", claude_delta_value "lo");
   (claude_stop_json, claude_stop_value);
   (openai_delta_json "Hel", openai_delta_value "Hel");
   (openai_delta_json "lo", openai_delta_value "lo")].

Definition example_parse (s : string) : option jvalue :=
  option_map snd (find (fun p => String.eqb (fst p) s) example_table).

Definition example_num_truthy (n : Q) : bool := negb (Qeq_bool n 0).
Definition example_num_to_string (_ : Q) : string := "0".

(** Chunks carrying [Hel], [lo], then the terminal event. *)
Definition claude_chunks : list string :=
  ["event: content_block_delta" ++ lf ++ "data: " ++ claude_delta_json "Hel" ++ lf ++ lf;
   "event: content_block_delta" ++ lf ++ "data: " ++ claude_delta_json "lo" ++ lf ++ lf;
   "event: message_stop" ++ lf ++ "data: " ++ claude_stop_json ++ lf ++ lf].

Definition openai_chunks : list string :=
  ["data: " ++ openai_delta_json "Hel" ++ lf ++ lf;
   "data: " ++ openai_delta_json "lo" ++ lf ++ lf;
   "data: [DONE]" ++ lf ++ lf].

End StreamExample.

(** * The request body of [ClaudeClient.chat] *)
Module ClaudeRequest.
Import LLMTypes.

(** The object passed to [JSON.stringify]; [system = None] is [undefined],
    which [JSON.stringify] leaves out. *)
Record ClaudeBody := mkClaudeBody {
  body_model : string;
  body_messages : list Message;
  body_system : option string;
  body_temperature : Q;
  body_max_tokens : Z;
  body_stream : bool
}.

Definition is_system (m : Message) : bool := role_eqb (role m) system.

(** From the API-key check to the construction of [body]; [hasOnStream] is
    [!!onStream]. The [fetch] that follows sends [body] unchanged. *)
Definition claude_body (apiKey model : string) (request : ChatRequest) (hasOnStream : bool)
    : outcome ClaudeBody :=
  if String.eqb apiKey "" then Throw (ErrorObj "Anthropic API key is required") else
  let temperature := match LLMTypes.temperature request with Some t => t | None => Qmake 7 10 end in
  let maxTokens := match LLMTypes.maxTokens request with Some n => n | None => 2000%Z end in
  let stream := match LLMTypes.stream request with Some b => b | None => hasOnStream end in
  let systemMessages := filter is_system (messages request) in
  let conversationMessages := filter (fun m => negb (is_system m)) (messages request) in
  Ok (mkClaudeBody model
        (map (fun m => mkMessage (if role_eqb (role m) user then user else assistant) (content m))
             conversationMessages)
        (match systemMessages with
         | m :: _ => Some (content m)
         | [] => None
         end)
        temperature maxTokens stream).

End ClaudeRequest.

(** * The serverless proxy [api/chat.ts]: [handler], up to the status code it
    answers with *)
Module ProxyHandler.
Import LLMTypes Streaming.

Section Handler.
Variable num_truthy : Q -> bool.
(** [handleClaude] and [handleOpenAI], given [model], [messages],
    [temperature], [maxTokens] and [stream] (the last three after their
    defaults): the status they answer with, or what they throw. *)
Variable handleClaude : jvalue -> jvalue -> jvalue -> jvalue -> jvalue -> outcome nat.
Variable handleOpenAI : jvalue -> jvalue -> jvalue -> jvalue -> jvalue -> outcome nat.

(** [const { x = d } = body]: [d] when the property is [undefined]. *)
Definition with_default (v d : jvalue) : jvalue := match v with JUndef => d | _ => v end.

Definition prop (body : jvalue) (k : string) : jvalue :=
  match member body k with Some v => v | None => JUndef end.

(** [method] is [req.method], [body] is [req.body]. Destructuring [null] or
    [undefined] throws a TypeError, which the [catch] turns into a 500. *)
Definition handler (method : string) (body : jvalue) : nat :=
  if String.eqb method "OPTIONS" then 200 else
  if negb (String.eqb method "POST") then 405 else
  match member body "provider" with
  | None => 500
  | Some provider =>
      let model := prop body "model" in
      let messages := prop body "messages" in
      let temperature := with_default (prop body "temperature") (JNum (Qmake 7 10)) in
      let maxTokens := with_default (prop body "maxTokens") (JNum (inject_Z 2000)) in
      let stream := with_default (prop body "stream") (JBool false) in
      if negb (truthy num_truthy provider) || negb (truthy num_truthy model)
         || negb (truthy num_truthy messages) then 400
      else
        let result :=
          if is_str provider "claude" then
            Some (handleClaude model messages temperature maxTokens stream)
          else if is_str provider "openai" then
            Some (handleOpenAI model messages temperature maxTokens stream)
          else None in
        match result with
        | None => 400
        | Some (Ok status) => status
        | Some (Throw _) => 500
        end
  end.

End Handler.

(** A downstream handler that answers 200. *)
Definition answers_200 : jvalue -> jvalue -> jvalue -> jvalue -> jvalue -> outcome nat :=
  fun _ _ _ _ _ => Ok 200.

End ProxyHandler.

(** * [src/utils/markdown.ts]: [escapeHtml] *)
Module Markdown.

(** [map[m]] for the characters the global character class of [escapeHtml]
    matches: [&], [<], [>], the double quote (34) and the apostrophe (39). *)
Definition html_entity (c : ascii) : option string :=
  match nat_of_ascii c with
  | 38 => Some "&amp;"
  | 60 => Some "&lt;"
  | 62 => Some "&gt;"
  | 34 => Some "&quot;"
  | 39 => Some "&#039;"
  | _ => None
  end.

(** [text.replace(...)] with that class and [m => map[m]]. *)
Fixpoint escapeHtml (text : string) : string :=
  match text with
  | EmptyString => EmptyString
  | String c t =>
      match html_entity c with
      | Some e => e ++ escapeHtml t
      | None => String c (escapeHtml t)
      end
  end.

End Markdown.

(** * [src/utils/modelCommands.ts] *)
Module ModelCommands.
Import JsString LLMTypes.

Record ModelOverride := mkModelOverride {
  mo_provider : LLMProvider;
  mo_model : string;
  displayName : string
}.

Record ParsedMessage := mkParsedMessage {
  pm_content : string;
  modelOverride : option ModelOverride
}.

(** [const MODEL_COMMANDS], its keys in insertion order. *)
Definition MODEL_COMMANDS : list (string * ModelOverride) :=
  [("@claude", mkModelOverride claude "claude-3-5-sonnet-20241022" "Claude 3.5 Sonnet");
   ("@sonnet", mkModelOverride claude "claude-3-5-sonnet-20241022" "Claude 3.5 Sonnet");
   ("@gpt4", mkModelOverride openai "gpt-4" "GPT-4");
   ("@gpt-4", mkModelOverride openai "gpt-4" "GPT-4");
   ("@gpt3.5", mkModelOverride openai "gpt-3.5-turbo" "GPT-3.5 Turbo");
   ("@gpt-3.5", mkModelOverride openai "gpt-3.5-turbo" "GPT-3.5 Turbo");
   ("@gpt4-turbo", mkModelOverride openai "gpt-4-turbo-preview" "GPT-4 Turbo")].

(** The own property [k] of [MODEL_COMMANDS]. *)
Fixpoint lookup_command (k : string) (l : list (string * ModelOverride)) : option ModelOverride :=
  match l with
  | [] => None
  | (k', v) :: t => if String.eqb k k' then Some v else lookup_command k t
  end.

(** The properties every object literal inherits from [Object.prototype]. *)
Definition object_prototype_keys : list string :=
  ["constructor"; "__defineGetter__"; "__defineSetter__"; "hasOwnProperty";
   "__lookupGetter__"; "__lookupSetter__"; "isPrototypeOf"; "propertyIsEnumerable";
   "toString"; "valueOf"; "__proto__"; "toLocaleString"].

(** [[a-zA-Z0-9.-]] *)
Definition is_command_char (c : ascii) : bool :=
  let n := nat_of_ascii c in
  ((48 <=? n) && (n <=? 57)) || ((65 <=? n) && (n <=? 90))
  || ((97 <=? n) && (n <=? 122)) || (n =? 46) || (n =? 45).

(** The ASCII line terminators, the characters [.] does not match. *)
Definition is_line_terminator (c : ascii) : bool :=
  (nat_of_ascii c =? 10) || (nat_of_ascii c =? 13).

Fixpoint span (p : ascii -> bool) (l : list ascii) : list ascii * list ascii :=
  match l with
  | c :: t => if p c then let '(a, b) := span p t in (c :: a, b) else ([], l)
  | [] => ([], [])
  end.

(** [(.+)$] after [\s+] took [i] of the whitespace run [ws] (greedy first,
    then giving characters back). *)
Fixpoint match_rest (i : nat) (ws rest : list ascii) : option (list ascii) :=
  match i with
  | 0 => None
  | S i' =>
      let g := app (skipn i ws) rest in
      if negb (match g with [] => true | _ => false end)
         && forallb (fun c => negb (is_line_terminator c)) g
      then Some g
      else match_rest i' ws rest
  end.

(** [s.match(/^(@[a-zA-Z0-9.-]+)\s+(.+)$/)]: the two groups. A shorter first
    group is never followed by whitespace, so only the longest is tried. *)
Definition match_model_command (s : string) : option (string * string) :=
  match list_ascii_of_string s with
  | c :: t =>
      if Ascii.eqb c "@"%char then
        let '(cmd, r1) := span is_command_char t in
        let '(ws, r2) := span is_ws r1 in
        match cmd, ws with
        | _ :: _, _ :: _ =>
            match match_rest (length ws) ws r2 with
            | Some g => Some (string_of_list_ascii (c :: cmd), string_of_list_ascii g)
            | None => None
            end
        | _, _ => None
        end
      else None
  | [] => None
  end.

(** [parseModelCommand]; [MODEL_COMMANDS[normalizedCommand]] reads an own
    property, as no key of [Object.prototype] starts with [@]. *)
Definition parseModelCommand (message : string) : ParsedMessage :=
  let trimmed := trim message in
  match match_model_command trimmed with
  | None => mkParsedMessage message None
  | Some (command, restOfMessage) =>
      let normalizedCommand := toLowerCase command in
      match lookup_command normalizedCommand MODEL_COMMANDS with
      | Some mo => mkParsedMessage (trim restOfMessage) (Some mo)
      | None => mkParsedMessage message None
      end
  end.

(** [normalized in MODEL_COMMANDS]: own and inherited properties. *)
Definition isValidModelCommand (command : string) : bool :=
  let normalized := toLowerCase command in
  match lookup_command normalized MODEL_COMMANDS with
  | Some _ => true
  | None => existsb (String.eqb normalized) object_prototype_keys
  end.

End ModelCommands.

(** * File uploads: [src/utils/storage.ts] (second part) and [FILE_CONFIG] *)
Module FileUpload.
Import JsString Parser.

(** The fields of a browser [File] the functions read; sizes are byte counts. *)
Record File := mkFile { file_name : string; file_size : Z }.

Inductive FileType := pdf | excel | csv.

Record Metadata := mkMetadata {
  pageCount : option Z;
  sheetNames : option (list string);
  rowCount : option Z;
  truncated : option bool
}.

Definition no_metadata : Metadata := mkMetadata None None None None.

Record FileAttachment := mkFileAttachment {
  fa_id : string;
  fa_name : string;
  fa_type : FileType;
  fa_size : Z;
  uploadedAt : Z;
  extractedContent : string;
  metadata : Metadata
}.

(** [FILE_CONFIG] *)
Definition maxFileSize : Z := 5 * 1024 * 1024.
Definition maxTotalSize : Z := 10 * 1024 * 1024.
Definition maxFiles : nat := 3.
Definition maxContentLength : nat := 50000.
Definition allowedExtensions : list string := [".pdf"; ".xlsx"; ".xls"; ".csv"].

(** [s.split(sep)] for a one-character separator. *)
Fixpoint split_char (sep : ascii) (s : string) : list string :=
  match s with
  | EmptyString => [""]
  | String c t =>
      if Ascii.eqb c sep then "" :: split_char sep t
      else match split_char sep t with
           | p :: ps => String c p :: ps
           | [] => [String c ""]
           end
  end.

(** [arr.pop()] on a fresh array: its last element, if any. *)
Definition pop (l : list string) : option string :=
  match rev l with
  | x :: _ => Some x
  | [] => None
  end.

(** [`.${file.name.split('.').pop()?.toLowerCase()}`] *)
Definition extension_of (name : string) : string :=
  "." ++ match pop (split_char "."%char name) with
         | Some x => toLowerCase x
         | None => "undefined"
         end.

Section Upload.

(** [formatFileSize] computes with floating point ([Math.log], [Math.round]);
    it only enters the error messages. *)
Variable formatFileSize : Z -> string.

Definition validateFile (file : File) : ValidationResult :=
  if (maxFileSize <? file_size file)%Z then
    let sizeMB := nat_to_string (Z.to_nat (maxFileSize / (1024 * 1024))) in
    mkValidation false
      (Some ("File " ++ StreamExample.quoted (file_name file) ++ " exceeds " ++ sizeMB
             ++ "MB limit (" ++ formatFileSize (file_size file) ++ ")"))
  else
    let extension := extension_of (file_name file) in
    if negb (includes allowedExtensions extension) then
      mkValidation false
        (Some ("File type " ++ StreamExample.quoted extension
               ++ " is not supported. Allowed types: PDF, Excel (.xlsx, .xls), CSV"))
    else mkValidation true None.

Definition sum_sizes {A} (size : A -> Z) (l : list A) : Z :=
  fold_left (fun sum f => (sum + size f)%Z) l 0%Z.

(** The [for ... of] loop: the first failing [validateFile], if any. *)
Fixpoint first_invalid (files : list File) : option ValidationResult :=
  match files with
  | [] => None
  | f :: t => let v := validateFile f in
              if negb (valid v) then Some v else first_invalid t
  end.

Definition validateFiles (files : list File) (existingFiles : list FileAttachment)
    : ValidationResult :=
  if maxFiles <? length files + length existingFiles then
    mkValidation false
      (Some ("Maximum " ++ nat_to_string maxFiles ++ " files allowed per message"))
  else
    match first_invalid files with
    | Some v => v
    | None =>
        let totalSize := (sum_sizes file_size files + sum_sizes fa_size existingFiles)%Z in
        if (maxTotalSize <? totalSize)%Z then
          let maxMB := nat_to_string (Z.to_nat (maxTotalSize / (1024 * 1024))) in
          mkValidation false (Some ("Total file size exceeds " ++ maxMB ++ "MB limit"))
        else mkValidation true None
    end.

End Upload.

Definition getFileType (file : File) : FileType :=
  match option_map toLowerCase (pop (split_char "."%char (file_name file))) with
  | Some "pdf" => pdf
  | Some "csv" => csv
  | _ => excel
  end.

(** Scan of [s] from index [i], remembering the last index holding [c]. *)
Fixpoint last_index_from (c : ascii) (i : nat) (s : string) (best : Z) : Z :=
  match s with
  | EmptyString => best
  | String d t => last_index_from c (S i) t (if Ascii.eqb d c then Z.of_nat i else best)
  end.

(** [s.lastIndexOf(c)], [-1] when absent. *)
Definition lastIndexOf (c : ascii) (s : string) : Z := last_index_from c 0 s (-1)%Z.

(** [truncateContent]; [maxLength] is a non-negative integer (the callers use
    the default [FILE_CONFIG.maxContentLength]). *)
Definition truncateContent (content : string) (maxLength : nat) : string * bool :=
  if String.length content <=? maxLength then (content, false)
  else
    let truncated := substring 0 maxLength content in
    let lastNewline := lastIndexOf (ascii_of_nat 10) truncated in
    let finalContent := if (0 <? lastNewline)%Z
                        then substring 0 (Z.to_nat lastNewline) truncated
                        else truncated in
    (finalContent ++ nl ++ nl ++ "[Content truncated...]", true).

(** [createFileAttachment]; [id] and [now] stand for [generateFileId()] and
    [Date.now()]. *)
Definition createFileAttachment (id : string) (now : Z) (file : File)
    (extractedContent : string) (md : option Metadata) : FileAttachment :=
  let '(content, wasTruncated) := truncateContent extractedContent maxContentLength in
  let base := match md with Some m => m | None => no_metadata end in
  mkFileAttachment id (file_name file) (getFileType file) (file_size file) now content
    (if wasTruncated
     then mkMetadata (pageCount base) (sheetNames base) (rowCount base) (Some true)
     else base).

End FileUpload.

(** * [localStorage] and the [Storage] wrapper: [src/utils/storage.ts] *)
Module LocalStorage.

(** The items of [window.localStorage], in the order [Object.keys] lists
    them; [setItem] keeps one item per key. *)
Definition store := list (string * string).

Fixpoint getItem (st : store) (k : string) : option string :=
  match st with
  | [] => None
  | (k', v) :: t => if String.eqb k k' then Some v else getItem t k
  end.

Fixpoint setItem (st : store) (k v : string) : store :=
  match st with
  | [] => [(k, v)]
  | (k', v') :: t => if String.eqb k k' then (k, v) :: t else (k', v') :: setItem t k v
  end.

Fixpoint removeItem (st : store) (k : string) : store :=
  match st with
  | [] => []
  | (k', v') :: t => if String.eqb k k' then removeItem t k else (k', v') :: removeItem t k
  end.

(** The names on the prototype chain of [localStorage]: those of
    [Storage.prototype] and of [Object.prototype]. *)
Definition storage_proto_names : list string :=
  ["constructor"; "length"; "key"; "getItem"; "setItem"; "removeItem"; "clear";
   "__defineGetter__"; "__defineSetter__"; "hasOwnProperty"; "__lookupGetter__";
   "__lookupSetter__"; "isPrototypeOf"; "propertyIsEnumerable"; "toString";
   "valueOf"; "__proto__"; "toLocaleString"].

(** A stored key that is also the name of a prototype property is not a
    visible named property of [localStorage] (WebIDL's named-property
    visibility algorithm, [Storage] is not [LegacyOverrideBuiltIns]). *)
Definition shadowed (k : string) : bool := existsb (String.eqb k) storage_proto_names.

(** [Object.keys(localStorage)]: the stored keys, in storage order, that are
    visible as own properties. *)
Definition Object_keys (st : store) : list string :=
  filter (fun k => negb (shadowed k)) (map fst st).

(** [key.startsWith(prefix)] *)
Definition startsWith (key prefix : string) : bool := String.prefix prefix key.

(** [key.slice(n)] *)
Definition slice (key : string) (n : nat) : string :=
  substring n (String.length key - n) key.

End LocalStorage.

Module StorageUtil.
Import LocalStorage.

(** [new Storage()] *)
Definition default_prefix : string := "chatbot_flows_".

Section Storage.
Variable T : Type.
(** [JSON.stringify] ([None]: it throws) and [JSON.parse] ([None]: it throws
    or yields [null]). *)
Variable stringify : T -> option string.
Variable parse : string -> option T.
(** Whether [localStorage.setItem] accepts the item (it throws when the
    quota is exceeded or storage is disabled). *)
Variable room : store -> string -> string -> bool.

Definition get (prefix key : string) (st : store) : option T :=
  match getItem st (prefix ++ key) with
  | None => None
  | Some item => parse item
  end.

Definition set (prefix key : string) (value : T) (st : store) : bool * store :=
  match stringify value with
  | None => (false, st)
  | Some s => if room st (prefix ++ key) s then (true, setItem st (prefix ++ key) s)
              else (false, st)
  end.

End Storage.

Arguments get {T} parse prefix key st.
Arguments set {T} stringify room prefix key value st.

Definition remove (prefix key : string) (st : store) : store := removeItem st (prefix ++ key).

Definition clear (prefix : string) (st : store) : store :=
  fold_left (fun st key => if startsWith key prefix then removeItem st key else st)
            (Object_keys st) st.

Definition has (prefix key : string) (st : store) : bool :=
  match getItem st (prefix ++ key) with Some _ => true | None => false end.

Definition keys (prefix : string) (st : store) : list string :=
  map (fun key => slice key (String.length prefix))
      (filter (fun key => startsWith key prefix) (Object_keys st)).

End StorageUtil.

(** * [src/flows/storage.ts] *)
Module FlowStorage.
Import LocalStorage StorageUtil Parser.

Record SavedFlow := mkSavedFlow {
  sf_id : string;
  sf_name : string;
  sf_description : string;
  sf_initialInput : option string;
  sf_createdAt : Z;
  sf_updatedAt : Z
}.

(** [Omit<SavedFlow, 'id' | 'createdAt' | 'updatedAt'>] *)
Record NewFlow := mkNewFlow {
  nf_name : string;
  nf_description : string;
  nf_initialInput : option string
}.

(** [Partial<Omit<SavedFlow, 'id' | 'createdAt'>>] *)
Record FlowUpdates := mkFlowUpdates {
  up_name : option string;
  up_description : option string;
  up_initialInput : option (option string);
  up_updatedAt : option Z
}.

(** [Partial<SavedFlow>] *)
Record PartialFlow := mkPartialFlow {
  pf_id : option string;
  pf_name : option string;
  pf_description : option string;
  pf_initialInput : option string;
  pf_createdAt : option Z;
  pf_updatedAt : option Z
}.

Definition FLOWS_KEY : string := "flows".

Fixpoint findIndex {A} (p : A -> bool) (l : list A) : option nat :=
  match l with
  | [] => None
  | x :: t => if p x then Some 0 else option_map S (findIndex p t)
  end.

(** [arr[i] = x] for an index inside the array. *)
Fixpoint replace_at {A} (i : nat) (x : A) (l : list A) : list A :=
  match l, i with
  | [], _ => []
  | _ :: t, 0 => x :: t
  | y :: t, S j => y :: replace_at j x t
  end.

Definition with_default {A} (d : A) (o : option A) : A :=
  match o with Some x => x | None => d end.

(** [{...old, ...updates, updatedAt: now}] *)
Definition apply_updates (old : SavedFlow) (u : FlowUpdates) (now : Z) : SavedFlow :=
  mkSavedFlow (sf_id old) (with_default (sf_name old) (up_name u))
    (with_default (sf_description old) (up_description u))
    (with_default (sf_initialInput old) (up_initialInput u))
    (sf_createdAt old) now.

Definition has_id (id : string) (f : SavedFlow) : bool := String.eqb (sf_id f) id.

Section Flows.
(** [JSON.stringify] and [JSON.parse] of the stored array. *)
Variable stringify_flows : list SavedFlow -> option string.
Variable parse_flows : string -> option (list SavedFlow).
Variable room : store -> string -> string -> bool.
(** [JSON.stringify(flow, null, 2)] and [JSON.parse] of an imported text. *)
Variable stringify_flow : SavedFlow -> string.
Variable parse_partial : string -> option PartialFlow.

Definition getAllFlows (st : store) : list SavedFlow :=
  match get parse_flows default_prefix FLOWS_KEY st with
  | Some flows => flows
  | None => []
  end.

Definition getFlow (id : string) (st : store) : option SavedFlow :=
  find (has_id id) (getAllFlows st).

Definition store_flows (flows : list SavedFlow) (st : store) : store :=
  snd (set stringify_flows room default_prefix FLOWS_KEY flows st).

(** [saveFlow]; [newId] is [this.generateId()], [created] and [updated] the
    two [Date.now()] calls. *)
Definition saveFlow (newId : string) (created updated : Z) (flow : NewFlow) (st : store)
    : SavedFlow * store :=
  let flows := getAllFlows st in
  let newFlow := mkSavedFlow newId (nf_name flow) (nf_description flow)
                   (nf_initialInput flow) created updated in
  (newFlow, store_flows (app flows [newFlow]) st).

Definition updateFlow (id : string) (updates : FlowUpdates) (now : Z) (st : store)
    : option SavedFlow * store :=
  let flows := getAllFlows st in
  match findIndex (has_id id) flows with
  | None => (None, st)
  | Some index =>
      match nth_error flows index with
      | None => (None, st)
      | Some old =>
          let updated := apply_updates old updates now in
          (Some updated, store_flows (replace_at index updated flows) st)
      end
  end.

Definition deleteFlow (id : string) (st : store) : bool * store :=
  let flows := getAllFlows st in
  let filtered := filter (fun flow => negb (has_id id flow)) flows in
  if length filtered =? length flows then (false, st)
  else (true, store_flows filtered st).

Definition exportFlow (id : string) (st : store) : option string :=
  match getFlow id st with
  | None => None
  | Some flow => Some (stringify_flow flow)
  end.

Definition importFlow (json : string) (newId : string) (created updated : Z) (st : store)
    : option SavedFlow * store :=
  match parse_partial json with
  | None => (None, st)
  | Some data =>
      if truthy_str (pf_name data) && truthy_str (pf_description data) then
        let '(f, st') := saveFlow newId created updated
                           (mkNewFlow (with_default "" (pf_name data))
                              (with_default "" (pf_description data))
                              (pf_initialInput data)) st in
        (Some f, st')
      else (None, st)
  end.

End Flows.

End FlowStorage.

(** * CSV to markdown: [convertCSVToMarkdown] and [parseCSVLine] of
    [src/ui/flows.ts] (the spreadsheet parser) *)
Module CsvTable.
Import JsString Parser.

Definition dq_char : ascii := ascii_of_nat 34.

(** The [for] loop of [parseCSVLine] over the characters of the line. *)
Fixpoint parse_csv_chars (l : list ascii) (current : string) (inQuotes : bool)
    (result : list string) : list string :=
  match l with
  | [] => app result [trim current]
  | char :: t =>
      if Ascii.eqb char dq_char then parse_csv_chars t current (negb inQuotes) result
      else if Ascii.eqb char "," && negb inQuotes
      then parse_csv_chars t "" inQuotes (app result [trim current])
      else parse_csv_chars t (current ++ String char "") inQuotes result
  end.

Definition parseCSVLine (line : string) : list string :=
  parse_csv_chars (list_ascii_of_string line) "" false [].

(** [`| ${row.join(' | ')} |`] *)
Definition md_row (cells : list string) : string :=
  "| " ++ String.concat " | " cells ++ " |".

(** [convertCSVToMarkdown]; [rows[0]] and [rows[i]] are arrays, always
    truthy, and [markdownLines] is joined with line feeds. *)
Definition convertCSVToMarkdown (lines : list string) : string :=
  match lines with
  | [] => "[No data]"
  | _ =>
      let rows := map parseCSVLine lines in
      match rows with
      | [] => "[No data]"
      | row0 :: rest =>
          let header := [md_row row0; md_row (map (fun _ => "---") row0)] in
          let maxRows := Nat.min (length rows) 21 in
          let data := map md_row (firstn (maxRows - 1) rest) in
          let notice := if 21 <? length rows
                        then [nl ++ "[... " ++ nat_to_string (length rows - 21) ++ " more rows]"]
                        else [] in
          String.concat nl (app header (app data notice))
      end
  end.

End CsvTable.

(** * The provider clients' [chat]: [src/llm/claude.ts], [src/llm/openai.ts] *)
Module Clients.
Import JsString LLMTypes Streaming.

(** What [chat] can throw: an [LLMError] (with its [provider] and
    [statusCode]), another [Error] with its [message], or a non-[Error]
    value. *)
Inductive Thrown :=
  | LLMError (message : string) (prov : LLMProvider) (statusCode : option Z)
  | OtherError (message : string)
  | NonErrorValue.

(** The parts of a fetch [Response] the clients read: [ok], [status], the
    outcome of [response.json()] ([None]: it rejects, as on a body that is
    not JSON) and the decoded chunks of [response.body] ([None]: no
    reader). *)
Record Response := mkResponse {
  r_ok : bool;
  r_status : Z;
  r_json : option jvalue;
  r_chunks : option (list string)
}.

(** [await fetch(...)]: a response, or the value it rejects with. *)
Inductive FetchResult := Fetched (r : Response) | FetchRejected (e : Thrown).

(** What [handleNonStream] returns; its fields are the JSON values read. *)
Record NonStreamResponse := mkNonStreamResponse {
  ns_content : jvalue;
  ns_provider : LLMProvider;
  ns_model : string;
  ns_promptTokens : jvalue;
  ns_completionTokens : jvalue;
  ns_totalTokens : jvalue
}.

(** How [chat] settles: resolved through [handleStream] (with the observer
    calls), resolved through [handleNonStream], or rejected. *)
Inductive ChatResult :=
  | Streamed (evs : list Emitted) (r : ChatResponse)
  | NonStreamed (r : NonStreamResponse)
  | Rejected (e : Thrown).

(** [v?.k]: [undefined] on [null] and [undefined], else [v.k]. *)
Definition opt_get (v : jvalue) (k : string) : jvalue :=
  match member v k with Some x => x | None => JUndef end.

(** [v?.[0]] *)
Definition opt_at0 (v : jvalue) : jvalue :=
  match index0 v with Some x => x | None => JUndef end.

(** The message of the TypeError of converting to a primitive an object
    that has no usable [toString] or [valueOf] (V8's wording). *)
Definition to_primitive_error : string := "Cannot convert object to primitive value".

Section Clients.
Variable num_truthy : Q -> bool.
Variable num_to_string : Q -> string.
Variable JSON_parse : string -> option jvalue.
(** The message of the TypeError of reading property [k] of [null] or
    [undefined], and of the SyntaxError of [response.json()]. *)
Variable type_error : string -> string.
Variable syntax_error : string.
(** [a + b] on two JSON values. *)
Variable js_add : jvalue -> jvalue -> jvalue.

(** [v || d] *)
Definition or_default (v d : jvalue) : jvalue := if truthy num_truthy v then v else d.

(** [catch (error) { if (error instanceof LLMError) throw error; throw new
    LLMError(error instanceof Error ? error.message : 'Unknown error
    occurred', provider); }] *)
Definition rewrap (prov : LLMProvider) (e : Thrown) : Thrown :=
  match e with
  | LLMError _ _ _ => e
  | OtherError msg => LLMError msg prov None
  | NonErrorValue => LLMError "Unknown error occurred" prov None
  end.

(** The [!response.ok] branch: what it throws. [new LLMError(message, ...)]
    converts its message with [ToString] in [super(message)]; when that
    throws, the TypeError leaves the constructor. *)
Definition http_error (prov : LLMProvider) (default_msg : string) (r : Response) : Thrown :=
  let error := match r_json r with
               | Some v => v
               | None => JObj [("error", JObj [("message", JStr "Unknown error")])]
               end in
  match member error "error" with
  | None => OtherError (type_error "error")
  | Some e =>
      let m := opt_get e "message" in
      if truthy num_truthy m then
        if to_string_throws m then OtherError to_primitive_error
        else LLMError (to_js_string num_to_string m) prov (Some (r_status r))
      else LLMError default_msg prov (Some (r_status r))
  end.

(** [handleNonStream] of the Claude client; [data.usage] is read once
    [data.content] succeeded, so [data] is not [null] there. *)
Definition claude_handleNonStream (model : string) (r : Response) : NonStreamResponse + Thrown :=
  match r_json r with
  | None => inr (OtherError syntax_error)
  | Some data =>
      match member data "content" with
      | None => inr (OtherError (type_error "content"))
      | Some c =>
          let content := opt_get (opt_at0 c) "text" in
          let i := or_default (opt_get (opt_get data "usage") "input_tokens") (JNum 0) in
          let o := or_default (opt_get (opt_get data "usage") "output_tokens") (JNum 0) in
          inl (mkNonStreamResponse (or_default content (JStr "")) claude model i o (js_add i o))
      end
  end.

Definition openai_handleNonStream (model : string) (r : Response) : NonStreamResponse + Thrown :=
  match r_json r with
  | None => inr (OtherError syntax_error)
  | Some data =>
      match member data "choices" with
      | None => inr (OtherError (type_error "choices"))
      | Some choices =>
          match index0 choices with
          | None => inr (OtherError (type_error "0"))
          | Some c0 =>
              let content := opt_get (opt_get c0 "message") "content" in
              let usage := opt_get data "usage" in
              inl (mkNonStreamResponse (or_default content (JStr "")) openai model
                     (or_default (opt_get usage "prompt_tokens") (JNum 0))
                     (or_default (opt_get usage "completion_tokens") (JNum 0))
                     (or_default (opt_get usage "total_tokens") (JNum 0)))
          end
      end
  end.

(** [chat(request, onStream)]; [hasOnStream] tells whether an observer is
    passed, [fetch_result] is what [await fetch(...)] gives. *)
Definition chat_with (prov : LLMProvider) (key_msg default_msg : string)
    (handleStream : list string -> list Emitted * ChatResponse)
    (handleNonStream : Response -> NonStreamResponse + Thrown)
    (apiKey : string) (request : ChatRequest) (hasOnStream : bool)
    (fetch_result : FetchResult) : ChatResult :=
  if String.eqb apiKey "" then Rejected (LLMError key_msg prov None) else
  let stream := match stream request with Some b => b | None => hasOnStream end in
  match fetch_result with
  | FetchRejected e => Rejected (rewrap prov e)
  | Fetched r =>
      if negb (r_ok r) then Rejected (rewrap prov (http_error prov default_msg r))
      else if stream && hasOnStream then
        match r_chunks r with
        | None => Rejected (rewrap prov (LLMError "Response body is not readable" prov None))
        | Some chunks => let '(evs, resp) := handleStream chunks in Streamed evs resp
        end
      else
        match handleNonStream r with
        | inl ns => NonStreamed ns
        | inr e => Rejected (rewrap prov e)
        end
  end.

Definition claude_chat (apiKey model : string) : ChatRequest -> bool -> FetchResult -> ChatResult :=
  chat_with claude "Anthropic API key is required" "Anthropic API request failed"
    (claude_handleStream num_truthy num_to_string JSON_parse model)
    (claude_handleNonStream model) apiKey.

Definition openai_chat (apiKey model : string) : ChatRequest -> bool -> FetchResult -> ChatResult :=
  chat_with openai "OpenAI API key is required" "OpenAI API request failed"
    (openai_handleStream num_truthy num_to_string JSON_parse model)
    (openai_handleNonStream model) apiKey.

End Clients.

(** Instances of the section variables, for the examples. *)
Definition example_type_error (k : string) : string := "Cannot read properties of undefined (reading " ++ k ++ ")".

Definition example_js_add (a b : jvalue) : jvalue := a.

End Clients.

(** * The settings panel: [src/ui/config.ts] ([ConfigUI]) *)

Module ConfigUI.
Import JsString Parser LocalStorage StorageUtil.

(** [APIConfig]; [defaultProvider] is the value of the provider select,
    cast to [LLMProvider] and compared as a string. *)
Record APIConfig := mkAPIConfig {
  openaiApiKey : option string;
  claudeApiKey : option string;
  defaultProvider : string;
  openaiModel : string
}.

Definition CONFIG_KEY : string := "api_config".

(** The client [createLLMClient] constructs, with the key and model passed. *)
Inductive LLMClientSpec :=
  | OpenAIClient (apiKey model : string)
  | ClaudeClient (apiKey model : string).

(** The default [model] of the [ClaudeClient] constructor. *)
Definition claude_default_model : string := "claude-3-5-sonnet-20240620".

(** The key when it is truthy. *)
Definition truthy_key (o : option string) : option string :=
  match o with
  | Some s => if String.eqb s "" then None else Some s
  | None => None
  end.

Definition getDefaultConfig : APIConfig := mkAPIConfig None None "claude" "gpt-4".

(** [!!(this.config.openaiApiKey || this.config.claudeApiKey)] *)
Definition hasValidConfig (config : APIConfig) : bool :=
  truthy_str (openaiApiKey config) || truthy_str (claudeApiKey config).

Definition createLLMClient (config : APIConfig) : option (LLMClientSpec * string) :=
  let provider := defaultProvider config in
  let openai_client k := (OpenAIClient k (openaiModel config),
                          "OpenAI (" ++ openaiModel config ++ ")") in
  let claude_client k := (ClaudeClient k claude_default_model, "Claude 3.5 Sonnet") in
  match (if String.eqb provider "openai" then truthy_key (openaiApiKey config) else None) with
  | Some k => Some (openai_client k)
  | None =>
      match (if String.eqb provider "claude" then truthy_key (claudeApiKey config) else None) with
      | Some k => Some (claude_client k)
      | None =>
          match truthy_key (openaiApiKey config) with
          | Some k => Some (openai_client k)
          | None =>
              match truthy_key (claudeApiKey config) with
              | Some k => Some (claude_client k)
              | None => None
              end
          end
      end
  end.

(** The messages [showError] and [showSuccess] display. *)
Inductive Shown := ShowError (message : string) | ShowSuccess (message : string).

Section Config.
(** [JSON.stringify] of a config, [JSON.parse] of the stored text ([None]:
    it throws or yields a falsy value), and whether [localStorage] accepts
    the item. *)
Variable stringify : APIConfig -> option string.
Variable parse : string -> option APIConfig.
Variable room : store -> string -> string -> bool.

(** [storage.get<APIConfig>(CONFIG_KEY) || this.getDefaultConfig()] *)
Definition loadConfig (st : store) : APIConfig :=
  match get parse default_prefix CONFIG_KEY st with
  | Some c => c
  | None => getDefaultConfig
  end.

Definition saveConfig (config : APIConfig) (st : store) : store :=
  snd (set stringify room default_prefix CONFIG_KEY config st).

(** [handleSaveSettings] on the four form values: the message shown, the
    new [this.config] and the new store. *)
Definition handleSaveSettings (openaiInput claudeInput providerValue modelValue : string)
    (config : APIConfig) (st : store) : Shown * APIConfig * store :=
  let openaiKey := trim openaiInput in
  let claudeKey := trim claudeInput in
  if negb (truthy_str (Some openaiKey)) && negb (truthy_str (Some claudeKey)) then
    (ShowError "Please provide at least one API key", config, st)
  else
    let config' := mkAPIConfig (if String.eqb openaiKey "" then None else Some openaiKey)
                               (if String.eqb claudeKey "" then None else Some claudeKey)
                               providerValue modelValue in
    let st' := saveConfig config' st in
    (ShowSuccess "Settings saved successfully", config', st').

(** [handleClearData]; [confirmed] is the answer to [confirm(...)]. *)
Definition handleClearData (confirmed : bool) (config : APIConfig) (st : store)
    : option Shown * APIConfig * store :=
  if confirmed then (Some (ShowSuccess "All data cleared"), getDefaultConfig, clear default_prefix st)
  else (None, config, st).

End Config.

End ConfigUI.

(** * The chat panel: [src/ui/chat.ts] ([ChatUI.handleSendMessage]) *)

Module ChatUI.
Import JsString LLMTypes Streaming Clients.

Record ChatMessage := mkChatMessage {
  cm_id : string;
  cm_role : Role;
  cm_content : string;
  cm_timestamp : Z;
  cm_provider : option string
}.

(** What [handleSendMessage] ends with: nothing (blank input), an error
    shown with [showError], or the answer added to the history. *)
Inductive SendOutcome := Ignored | ShowError (message : string) | Sent.

Section Send.
Variable num_to_string : Q -> string.

(** The observer passed to [chat]: the locals [fullContent] and
    [assistantMessage.content] after one call. The clients hand it only
    contents whose conversion to a string does not throw
    ([StreamFacts.handleStream_quiet]). *)
Definition observe (st : string * string) (chunk : Emitted) : string * string :=
  if em_done chunk then st
  else let fullContent := fst st ++ to_js_string num_to_string (em_content chunk) in
       (fullContent, fullContent).

(** [error instanceof Error ? error.message : 'Failed to get response from LLM'] *)
Definition error_message (e : Thrown) : string :=
  match e with
  | LLMError m _ _ | OtherError m => m
  | NonErrorValue => "Failed to get response from LLM"
  end.

(** [handleSendMessage] with the value of the input, the client (a
    [chat(request, onStream)] call settling as [ChatResult]), the provider
    label, the two ids of [generateId] and the two [Date.now()] readings;
    it returns the outcome and the new [this.messages]. *)
Definition handleSendMessage (input : string)
    (llmClient : option (ChatRequest -> bool -> ChatResult)) (provider : string)
    (userId assistantId : string) (now1 now2 : Z) (messages : list ChatMessage)
    : SendOutcome * list ChatMessage :=
  let content := trim input in
  if String.eqb content "" then (Ignored, messages) else
  match llmClient with
  | None => (ShowError "Please configure your API keys in settings first.", messages)
  | Some chat =>
      let userMessage := mkChatMessage userId user content now1 None in
      let messages1 := app messages [userMessage] in
      let apiMessages := map (fun m => mkMessage (cm_role m) (cm_content m)) messages1 in
      let assistantMessage c := mkChatMessage assistantId assistant c now2 (Some provider) in
      match chat (mkChatRequest apiMessages None None (Some true)) true with
      | Streamed evs _ =>
          (Sent, app messages1 [assistantMessage (snd (fold_left observe evs ("", "")))])
      | NonStreamed _ => (Sent, app messages1 [assistantMessage ""])
      | Rejected e => (ShowError (error_message e), messages1)
      end
  end.

End Send.

End ChatUI.

(** ** Lemmas on the string primitives *)
Module TrimFacts.
Import JsString Parser.

Lemma drop_ws_shape (l : list ascii) :
  drop_ws l = [] \/ exists c t, drop_ws l = c :: t /\ is_ws c = false.
Proof.
  induction l as [|c t IH]; simpl; [now left|].
  destruct (is_ws c) eqn:E; [exact IH|right; eauto].
Qed.

Lemma drop_ws_all_ws (l : list ascii) :
  forallb is_ws (drop_ws l) = true -> drop_ws l = [].
Proof.
  intros H. destruct (drop_ws_shape l) as [E|(c & t & E & Hc)]; [exact E|].
  rewrite E in H. simpl in H. rewrite Hc in H. discriminate.
Qed.

Lemma drop_ws_nil (l : list ascii) : drop_ws l = [] -> forallb is_ws l = true.
Proof.
  induction l as [|c t IH]; simpl; [reflexivity|].
  destruct (is_ws c) eqn:E; [exact IH|discriminate].
Qed.

Lemma forallb_rev {A} (f : A -> bool) (l : list A) :
  forallb f (rev l) = forallb f l.
Proof.
  induction l as [|x t IH]; simpl; [reflexivity|].
  rewrite forallb_app, IH. simpl. rewrite andb_true_r, andb_comm. reflexivity.
Qed.

Lemma all_ws_drop_ws (l : list ascii) : forallb is_ws l = true -> drop_ws l = [].
Proof.
  induction l as [|c t IH]; simpl; [reflexivity|].
  intros H. apply andb_prop in H as [H1 H2]. rewrite H1. auto.
Qed.

Lemma trim_list_nil_iff (l : list ascii) :
  trim_list l = [] <-> forallb is_ws l = true.
Proof.
  unfold trim_list. split.
  - intros H. apply (f_equal (@rev ascii)) in H. rewrite rev_involutive in H.
    simpl in H. apply drop_ws_nil in H. rewrite forallb_rev in H.
    apply drop_ws_all_ws in H. now apply drop_ws_nil.
  - intros H. rewrite (all_ws_drop_ws l H). reflexivity.
Qed.

Lemma trim_list_all_ws (l : list ascii) :
  forallb is_ws (trim_list l) = true -> trim_list l = [].
Proof.
  unfold trim_list. intros H. rewrite forallb_rev in H.
  rewrite (drop_ws_all_ws _ H). reflexivity.
Qed.

Lemma string_eqb_empty (s : string) : String.eqb s "" = true <-> s = "".
Proof. apply String.eqb_eq. Qed.

Lemma string_of_list_nil (l : list ascii) : string_of_list_ascii l = "" <-> l = [].
Proof.
  split; [|intros ->; reflexivity].
  destruct l; simpl; [reflexivity|discriminate].
Qed.

Lemma is_blank_iff (s : string) :
  is_blank s = true <-> forallb is_ws (list_ascii_of_string s) = true.
Proof.
  unfold is_blank, trim. rewrite string_eqb_empty, string_of_list_nil.
  apply trim_list_nil_iff.
Qed.

Lemma is_blank_trim (s : string) : is_blank (trim s) = is_blank s.
Proof.
  apply eq_true_iff_eq. rewrite !is_blank_iff.
  unfold trim. rewrite list_ascii_of_string_of_list_ascii. split.
  - intros H. apply trim_list_all_ws in H. now apply trim_list_nil_iff.
  - intros H. apply trim_list_nil_iff in H. rewrite H. reflexivity.
Qed.

Lemma trim_nonblank (s : string) :
  String.eqb (trim s) "" = is_blank s.
Proof. reflexivity. Qed.

End TrimFacts.

(** ** Lemmas on the parser *)
Module ParserFacts.
Import JsString Parser TrimFacts.

Definition all_nonblank (segments : list string) : Prop :=
  Forall (fun s => is_blank s = false) segments.

Lemma push_segment_nonblank (cur : string) (segments : list string) :
  all_nonblank segments -> all_nonblank (push_segment cur segments).
Proof.
  unfold push_segment, all_nonblank. intros H.
  destruct (is_blank cur) eqn:E; [exact H|].
  apply Forall_app. split; [exact H|]. constructor; [|constructor].
  rewrite is_blank_trim. exact E.
Qed.

Lemma keyword_loop_nonblank (n : nat) : forall words cur segments,
  length words <= n -> all_nonblank segments ->
  all_nonblank (snd (keyword_loop words cur segments)).
Proof.
  induction n as [|n IH]; intros words cur segments Hlen Hseg.
  - destruct words; [exact Hseg|simpl in Hlen; lia].
  - destruct words as [|w rest]; [exact Hseg|]. simpl in Hlen. cbn [keyword_loop].
    destruct (includes STEP_KEYWORDS _).
    + destruct rest as [|r rest'].
      * apply push_segment_nonblank, Hseg.
      * apply IH; [simpl in Hlen; lia|]. apply push_segment_nonblank, Hseg.
    + destruct (includes STEP_KEYWORDS _).
      * apply IH; [lia|]. apply push_segment_nonblank, Hseg.
      * apply IH; [lia|exact Hseg].
Qed.

Lemma make_steps_shape (segments : list string) : forall index,
  all_nonblank segments ->
  map order (make_steps segments index) = seq (S index) (length segments) /\
  (forall st, hd_error (make_steps segments index) = Some st ->
              usesPreviousOutput st = (0 <? index)).
Proof.
  induction segments as [|sg t IH]; intros index H; [split; [reflexivity|discriminate]|].
  inversion H as [|? ? Hsg Ht]; subst.
  cbn [make_steps]. rewrite trim_nonblank, Hsg. simpl.
  destruct (IH (S index) Ht) as [IH1 _]. split.
  - rewrite Nat.add_1_r. f_equal. exact IH1.
  - intros st Hst. injection Hst as <-. reflexivity.
Qed.

Lemma make_steps_length (segments : list string) : forall index,
  all_nonblank segments -> length (make_steps segments index) = length segments.
Proof.
  intros index H. destruct (make_steps_shape segments index H) as [H1 _].
  rewrite <- (length_map order), H1. apply length_seq.
Qed.

Lemma filter_nonblank (l : list string) :
  all_nonblank (filter (fun s => negb (is_blank s)) l).
Proof.
  unfold all_nonblank. apply Forall_forall. intros x Hx.
  apply filter_In in Hx as [_ Hx]. now destruct (is_blank x).
Qed.

End ParserFacts.

Module ParserFacts2.
Import JsString Parser TrimFacts ParserFacts.

Lemma make_steps_invariant (segments : list string) (d : string) :
  segments <> [] -> all_nonblank segments ->
  flow_invariant (mkParsedFlow (make_steps segments 0) d).
Proof.
  intros Hne Hall. unfold flow_invariant; simpl.
  destruct (make_steps_shape segments 0 Hall) as [H1 H2].
  rewrite (make_steps_length segments 0 Hall). repeat split.
  - intros E. apply (f_equal (@length FlowStep)) in E.
    rewrite (make_steps_length segments 0 Hall) in E. destruct segments; [congruence|discriminate].
  - exact H1.
  - exact H2.
Qed.

Lemma parse_nonblank_invariant (d : string) :
  is_blank d = false -> flow_invariant (parseFlowDescription d).
Proof.
  intros Hd. unfold parseFlowDescription.
  assert (Hd' : String.eqb d "" = false).
  { destruct (String.eqb_spec d ""); [subst; discriminate|reflexivity]. }
  rewrite Hd', Hd. simpl.
  destruct (keyword_loop (split_ws (trim d)) "" []) as [cur segs] eqn:Ek.
  assert (Hsegs : all_nonblank (push_segment cur segs)).
  { apply push_segment_nonblank.
    pose proof (keyword_loop_nonblank (length (split_ws (trim d)))
                  (split_ws (trim d)) "" [] (le_n _) (Forall_nil _)) as H.
    rewrite Ek in H. exact H. }
  set (s1 := if length (push_segment cur segs) <=? 1
             then filter (fun s => negb (is_blank s)) (split_punct (trim d))
             else push_segment cur segs).
  assert (Hs1 : all_nonblank s1).
  { unfold s1. destruct (_ <=? 1); [apply filter_nonblank|exact Hsegs]. }
  destruct s1 as [|x t] eqn:Es1.
  - apply make_steps_invariant; [discriminate|].
    constructor; [rewrite is_blank_trim; exact Hd|constructor].
  - apply make_steps_invariant; [discriminate|exact Hs1].
Qed.

End ParserFacts2.

(** ** Lemmas on the executor *)
Module ExecFacts.
Import Parser LLMTypes Executor.

Lemma set_nth_length {A} (i : nat) (f : A -> A) (l : list A) :
  length (set_nth i f l) = length l.
Proof.
  revert i; induction l as [|x t IH]; intros [|i]; simpl; auto.
Qed.

Lemma map_set_nth {A B} (g : A -> B) (h : B -> B) (f : A -> A) (i : nat) (l : list A) :
  (forall x, g (f x) = h (g x)) ->
  map g (set_nth i f l) = set_nth i h (map g l).
Proof.
  intros Hf. revert i; induction l as [|x t IH]; intros [|i]; simpl; try rewrite Hf; try rewrite IH; auto.
Qed.

Lemma map_set_nth_same {A B} (g : A -> B) (f : A -> A) (i : nat) (l : list A) :
  (forall x, g (f x) = g x) -> map g (set_nth i f l) = map g l.
Proof.
  intros Hf. revert i; induction l as [|x t IH]; intros [|i]; simpl; try rewrite Hf; try rewrite IH; auto.
Qed.

Lemma set_nth_app {A} (f : A -> A) (p t : list A) (y : A) :
  set_nth (length p) f (app p (y :: t)) = app p (f y :: t).
Proof.
  induction p as [|x p IH]; simpl; [reflexivity|]. rewrite IH. reflexivity.
Qed.

Lemma nth_error_set_nth_eq {A} (f : A -> A) (i : nat) (l : list A) :
  nth_error (set_nth i f l) i = option_map f (nth_error l i).
Proof.
  revert i; induction l as [|x t IH]; intros [|i]; simpl; auto.
Qed.

Lemma nth_error_map_step (l : list StepExecution) (fs : list FlowStep) (i : nat) (se : StepExecution) :
  map step l = fs -> nth_error l i = Some se -> nth_error fs i = Some (step se).
Proof.
  intros <- H. rewrite nth_error_map, H. reflexivity.
Qed.

Lemma nth_error_status_app (l : list StepExecution) (p t : list StepStatus) (se : StepExecution) (y : StepStatus) :
  map status l = app p (y :: t) -> nth_error l (length p) = Some se -> status se = y.
Proof.
  intros Hm Hn. assert (H := f_equal (fun l => nth_error l (length p)) Hm). simpl in H.
  rewrite nth_error_map, Hn, nth_error_app2, Nat.sub_diag in H by lia.
  simpl in H. congruence.
Qed.

Lemma nth_error_of_length (l : list StepExecution) (i : nat) :
  i < length l -> exists se, nth_error l i = Some se.
Proof.
  intros H. destruct (nth_error l i) eqn:E; [eauto|].
  apply nth_error_None in E. lia.
Qed.

Lemma nth_error_of_length' {A} (l : list A) (i : nat) :
  i < length l -> exists x, nth_error l i = Some x.
Proof.
  intros H. destruct (nth_error l i) eqn:E; [eauto|].
  apply nth_error_None in E. lia.
Qed.

Lemma repeat_split {A} (a : A) (n : nat) : 0 < n -> repeat a n = a :: repeat a (n - 1).
Proof. destruct n; [lia|]. simpl. rewrite Nat.sub_0_r. reflexivity. Qed.

Lemma repeat_snoc {A} (a : A) (n : nat) : app (repeat a n) [a] = repeat a (S n).
Proof. induction n as [|n IH]; simpl; [reflexivity|]. rewrite IH. reflexivity. Qed.

Section Step.
Variable chat : list ChatRequest -> ChatRequest -> outcome ChatResponse.
Variable now : nat -> Z.
Variables (hasProgress hasStream : bool).

Definition notify_list (ns : list FlowExecution) (e : FlowExecution) : list FlowExecution :=
  if hasProgress then app ns [e] else ns.

(** One loop iteration in closed form. *)
Lemma run_step_eq (w : World) (i : nat) (prev : string) (se : StepExecution) :
  nth_error (ex_steps (exec w)) i = Some se ->
  let e := exec w in
  let t := ticks w in
  let req := step_request (formatStepPrompt (step se) (Some prev)) hasStream in
  let l1 := set_nth i (set_startTime (now t)) (set_nth i (set_status running) (ex_steps e)) in
  let e1 := mkFlowExecution l1 (ex_status e) i (ex_startTime e) (ex_endTime e) in
  let ns1 := notify_list (notifications w) e1 in
  run_step chat now hasProgress hasStream i prev w =
  match chat (history w) req with
  | Ok r =>
      let l2 := set_nth i (set_endTime (now (S t)))
                  (set_nth i (set_status completed) (set_nth i (set_output (resp_content r)) l1)) in
      let e2 := mkFlowExecution l2 (ex_status e) i (ex_startTime e) (ex_endTime e) in
      (Ok (resp_content r), mkWorld e2 (notify_list ns1 e2) (app (history w) [req]) (S (S t)))
  | Throw err =>
      let l2 := set_nth i (set_endTime (now (S t)))
                  (set_nth i (set_error (error_message err)) (set_nth i (set_status error_st) l1)) in
      let e2 := mkFlowExecution l2 f_error i (ex_startTime e) (Some (now (S (S t)))) in
      (Throw err, mkWorld e2 (notify_list ns1 e2) (app (history w) [req]) (S (S (S t))))
  end.
Proof.
  intros Hn. destruct w as [e ns h t]. cbn [exec ticks notifications history] in Hn |- *.
  unfold run_step at 1. unfold bind at 1. unfold get_exec at 1. cbv beta iota zeta.
  cbn [exec]. rewrite Hn.
  cbv beta iota zeta delta [bind update_step get_exec set_exec date_now
    set_currentStepIndex notify call_chat notify_list ret throw set_flow_status
    set_flow_endTime exec ticks notifications history ex_steps ex_status ex_startTime
    ex_endTime currentStepIndex].
  destruct (chat h _); reflexivity.
Qed.

End Step.

Local Open Scope list_scope.

(** What a progress observer can tell apart in a snapshot. *)
Definition summary (e : FlowExecution) : list StepStatus * nat * FlowStatus :=
  (map status (ex_steps e), currentStepIndex e, ex_status e).

(** Step statuses of an [n]-step flow whose first [i] steps completed and whose
    step [i] has status [x]. *)
Definition statuses_at (n i : nat) (x : StepStatus) : list StepStatus :=
  repeat completed i ++ x :: repeat pending (n - S i).

(** The two notifications of a successful step [j]. *)
Definition step_snaps (n j : nat) : list (list StepStatus * nat * FlowStatus) :=
  [(statuses_at n j running, j, f_running);
   (repeat completed (S j) ++ repeat pending (n - S j), j, f_running)].

(** The initial snapshot, then two per completed step. *)
Definition snaps (n i : nat) : list (list StepStatus * nat * FlowStatus) :=
  (repeat pending n, 0, f_running) :: flat_map (step_snaps n) (seq 0 i).

Definition last_content (rs : list ChatResponse) (init : string) : string :=
  fold_left (fun _ r => resp_content r) rs init.

Lemma last_content_snoc rs r init : last_content (rs ++ [r]) init = resp_content r.
Proof. unfold last_content. rewrite fold_left_app. reflexivity. Qed.

Lemma set_nth_repeat {A} (f : A -> A) (a y : A) (i : nat) (t : list A) :
  set_nth i f (repeat a i ++ y :: t) = repeat a i ++ f y :: t.
Proof.
  rewrite <- (repeat_length a i) at 1. apply set_nth_app.
Qed.

Section Maps.
Variables (i : nat) (l : list StepExecution) (t : Z) (m : string) (st : StepStatus).
Lemma step_set_status : map step (set_nth i (set_status st) l) = map step l.
Proof. apply map_set_nth_same; reflexivity. Qed.
Lemma step_set_startTime : map step (set_nth i (set_startTime t) l) = map step l.
Proof. apply map_set_nth_same; reflexivity. Qed.
Lemma step_set_endTime : map step (set_nth i (set_endTime t) l) = map step l.
Proof. apply map_set_nth_same; reflexivity. Qed.
Lemma step_set_output : map step (set_nth i (set_output m) l) = map step l.
Proof. apply map_set_nth_same; reflexivity. Qed.
Lemma step_set_error : map step (set_nth i (set_error m) l) = map step l.
Proof. apply map_set_nth_same; reflexivity. Qed.
Lemma status_set_status :
  map status (set_nth i (set_status st) l) = set_nth i (fun _ => st) (map status l).
Proof. apply map_set_nth; reflexivity. Qed.
Lemma status_set_startTime : map status (set_nth i (set_startTime t) l) = map status l.
Proof. apply map_set_nth_same; reflexivity. Qed.
Lemma status_set_endTime : map status (set_nth i (set_endTime t) l) = map status l.
Proof. apply map_set_nth_same; reflexivity. Qed.
Lemma status_set_output : map status (set_nth i (set_output m) l) = map status l.
Proof. apply map_set_nth_same; reflexivity. Qed.
Lemma status_set_error : map status (set_nth i (set_error m) l) = map status l.
Proof. apply map_set_nth_same; reflexivity. Qed.
Lemma output_set_status : map output (set_nth i (set_status st) l) = map output l.
Proof. apply map_set_nth_same; reflexivity. Qed.
Lemma output_set_startTime : map output (set_nth i (set_startTime t) l) = map output l.
Proof. apply map_set_nth_same; reflexivity. Qed.
Lemma output_set_endTime : map output (set_nth i (set_endTime t) l) = map output l.
Proof. apply map_set_nth_same; reflexivity. Qed.
Lemma output_set_output :
  map output (set_nth i (set_output m) l) = set_nth i (fun _ => Some m) (map output l).
Proof. apply map_set_nth; reflexivity. Qed.
Lemma output_set_error : map output (set_nth i (set_error m) l) = map output l.
Proof. apply map_set_nth_same; reflexivity. Qed.
End Maps.

Ltac exec_maps := repeat progress
  rewrite ?step_set_status, ?step_set_startTime, ?step_set_endTime, ?step_set_output,
    ?step_set_error, ?status_set_status, ?status_set_startTime, ?status_set_endTime,
    ?status_set_output, ?status_set_error, ?output_set_status, ?output_set_startTime,
    ?output_set_endTime, ?output_set_output, ?output_set_error.

Section Loop.
Variable chat : list ChatRequest -> ChatRequest -> outcome ChatResponse.
Variable now : nat -> Z.
Variables (hasProgress hasStream : bool).
Variable fs : list FlowStep.
Variable initialInput : string.

(** The requests the loop sends when the client answered [rs]. *)
Fixpoint expected_requests (fs' : list FlowStep) (rs : list ChatResponse) (prev : string)
    : list ChatRequest :=
  match fs', rs with
  | f :: fs'', r :: rs' =>
      step_request (formatStepPrompt f (Some prev)) hasStream
        :: expected_requests fs'' rs' (resp_content r)
  | _, _ => []
  end.

(** The client answered the requests [reqs] (sent after [before]) with [rs]. *)
Fixpoint answered (before reqs : list ChatRequest) (rs : list ChatResponse) : Prop :=
  match reqs, rs with
  | [], [] => True
  | q :: qs, r :: rs' => chat before q = Ok r /\ answered (before ++ [q]) qs rs'
  | _, _ => False
  end.

Lemma expected_requests_snoc (rs : list ChatResponse) : forall fs' init r f,
  nth_error fs' (length rs) = Some f ->
  expected_requests fs' (rs ++ [r]) init =
  expected_requests fs' rs init
    ++ [step_request (formatStepPrompt f (Some (last_content rs init))) hasStream].
Proof.
  induction rs as [|r0 rs IH]; intros fs' init r f Hf; destruct fs' as [|f0 fs'];
    simpl in Hf; try discriminate.
  - injection Hf as ->. destruct fs'; reflexivity.
  - simpl. rewrite (IH fs' (resp_content r0) r f Hf). reflexivity.
Qed.

Lemma answered_snoc (rs : list ChatResponse) : forall before reqs q r,
  answered before reqs rs -> chat (before ++ reqs) q = Ok r ->
  answered before (reqs ++ [q]) (rs ++ [r]).
Proof.
  induction rs as [|r0 rs IH]; intros before [|q0 reqs] q r H Hq; simpl in H |- *;
    try contradiction.
  - rewrite app_nil_r in Hq. auto.
  - destruct H as [H1 H2]. split; [exact H1|]. apply IH; [exact H2|].
    rewrite <- app_assoc. exact Hq.
Qed.

Lemma answered_nth (rs : list ChatResponse) : forall before reqs j q r,
  answered before reqs rs -> nth_error reqs j = Some q -> nth_error rs j = Some r ->
  chat (before ++ firstn j reqs) q = Ok r.
Proof.
  induction rs as [|r0 rs IH]; intros before [|q0 reqs] j q r H Hq Hr; simpl in H;
    try contradiction; destruct j as [|j]; try discriminate.
  - simpl in Hq, Hr |- *. injection Hq as <-. injection Hr as <-.
    rewrite app_nil_r. apply H.
  - simpl in Hq, Hr |- *. destruct H as [_ H].
    replace (before ++ q0 :: firstn j reqs) with ((before ++ [q0]) ++ firstn j reqs)
      by (rewrite <- app_assoc; reflexivity).
    apply (IH _ reqs j q r H Hq Hr).
Qed.

Lemma answered_length (rs : list ChatResponse) : forall before reqs,
  answered before reqs rs -> length reqs = length rs.
Proof.
  induction rs as [|r0 rs IH]; intros before [|q0 reqs] H; simpl in H |- *;
    try contradiction; auto.
  f_equal. exact (IH _ _ (proj2 H)).
Qed.

Lemma answered_nth_ok (rs : list ChatResponse) (reqs : list ChatRequest) (j : nat) (q : ChatRequest) :
  answered [] reqs rs -> nth_error reqs j = Some q ->
  exists r, nth_error rs j = Some r /\ chat (firstn j reqs) q = Ok r.
Proof.
  intros H Hq. destruct (nth_error rs j) as [r|] eqn:Er.
  - exists r. split; [reflexivity|]. exact (answered_nth rs [] reqs j q r H Hq Er).
  - exfalso. apply nth_error_None in Er. rewrite <- (answered_length rs [] reqs H) in Er.
    apply nth_error_None in Er. congruence.
Qed.

(** The loop invariant before iteration [i], the client having answered [rs]. *)
Definition INV (i : nat) (w : World) (rs : list ChatResponse) (prev : string) : Prop :=
  map step (ex_steps (exec w)) = fs /\
  map status (ex_steps (exec w)) = repeat completed i ++ repeat pending (length fs - i) /\
  map output (ex_steps (exec w)) =
    map (fun r => Some (resp_content r)) rs ++ repeat None (length fs - i) /\
  length rs = i /\
  history w = expected_requests fs rs initialInput /\
  answered [] (history w) rs /\
  prev = last_content rs initialInput /\
  ex_status (exec w) = f_running /\
  currentStepIndex (exec w) = pred i /\
  map summary (notifications w) = (if hasProgress then snaps (length fs) i else []).

(** The world after iteration [k] threw [e], the client having answered [rs] before. *)
Definition ERR (k : nat) (e : JsThrown) (w : World) (rs : list ChatResponse) : Prop :=
  map step (ex_steps (exec w)) = fs /\
  map status (ex_steps (exec w)) = statuses_at (length fs) k error_st /\
  (exists se, nth_error (ex_steps (exec w)) k = Some se /\
              error se = Some (error_message e) /\ endTime se <> None) /\
  length rs = k /\
  (exists f, nth_error fs k = Some f /\
     let req := step_request (formatStepPrompt f (Some (last_content rs initialInput))) hasStream in
     history w = expected_requests fs rs initialInput ++ [req] /\
     chat (expected_requests fs rs initialInput) req = Throw e) /\
  answered [] (expected_requests fs rs initialInput) rs /\
  ex_status (exec w) = f_error /\
  ex_endTime (exec w) <> None /\
  currentStepIndex (exec w) = k /\
  map summary (notifications w) =
    (if hasProgress
     then snaps (length fs) k ++
          [(statuses_at (length fs) k running, k, f_running);
           (statuses_at (length fs) k error_st, k, f_error)]
     else []).

Lemma snaps_S (n i : nat) : snaps n (S i) = snaps n i ++ step_snaps n i.
Proof.
  unfold snaps. rewrite seq_S, flat_map_app. cbn [flat_map]. rewrite app_nil_r. reflexivity.
Qed.

Lemma repeat_pending_split {A} (a : A) (n i : nat) :
  i < n -> repeat a (n - i) = a :: repeat a (n - S i).
Proof.
  intros H. rewrite repeat_split by lia. do 2 f_equal. lia.
Qed.

Lemma run_step_inv (i : nat) (w : World) (rs : list ChatResponse) (prev : string) (f : FlowStep) :
  INV i w rs prev -> nth_error fs i = Some f ->
  match chat (history w) (step_request (formatStepPrompt f (Some prev)) hasStream) with
  | Ok r => exists w', run_step chat now hasProgress hasStream i prev w = (Ok (resp_content r), w')
                       /\ INV (S i) w' (rs ++ [r]) (resp_content r)
  | Throw e => exists w', run_step chat now hasProgress hasStream i prev w = (Throw e, w')
                          /\ ERR i e w' rs
  end.
Proof.
  intros (Hstep & Hstat & Hout & Hlen & Hhist & Hans & Hprev & Hst & Hidx & Hnot) Hf.
  assert (Hi : i < length fs) by (apply nth_error_Some; congruence).
  assert (HL : length (ex_steps (exec w)) = length fs)
    by (rewrite <- Hstep, length_map; reflexivity).
  destruct (nth_error_of_length (ex_steps (exec w)) i ltac:(lia)) as [se Hse].
  assert (Hsf : step se = f).
  { pose proof (nth_error_map_step _ _ _ _ Hstep Hse) as H. congruence. }
  rewrite (run_step_eq chat now hasProgress hasStream w i prev se Hse). cbv zeta.
  rewrite Hsf.
  assert (Hrun : set_nth i (fun _ => running) (map status (ex_steps (exec w)))
                 = statuses_at (length fs) i running).
  { rewrite Hstat, repeat_pending_split by exact Hi. apply set_nth_repeat. }
  destruct (chat (history w) _) as [r|e] eqn:Hc.
  - eexists; split; [reflexivity|].
    unfold INV; cbn [exec notifications history ex_steps ex_status currentStepIndex].
    exec_maps.
    split; [exact Hstep|]. split.
    { rewrite Hstat, repeat_pending_split by exact Hi. rewrite !set_nth_repeat.
      rewrite <- repeat_snoc, <- app_assoc. reflexivity. }
    split.
    { rewrite Hout, repeat_pending_split by exact Hi.
      assert (Hp : length (map (fun r => Some (resp_content r)) rs) = i)
        by (rewrite length_map; exact Hlen).
      rewrite <- Hp at 1. rewrite set_nth_app, map_app, <- app_assoc. reflexivity. }
    split; [rewrite length_app, Hlen; simpl; lia|].
    split.
    { rewrite Hhist, Hprev. symmetry. apply expected_requests_snoc. rewrite Hlen. exact Hf. }
    split.
    { apply answered_snoc; [exact Hans|]. exact Hc. }
    split; [symmetry; apply last_content_snoc|].
    split; [exact Hst|]. split; [reflexivity|].
    unfold notify_list. destruct hasProgress.
    + rewrite !map_app, Hnot, snaps_S, <- app_assoc. unfold summary at 1 2; simpl.
      exec_maps. rewrite Hst. unfold step_snaps. rewrite Hrun.
      unfold statuses_at. rewrite set_nth_repeat, <- repeat_snoc, <- app_assoc. reflexivity.
    + exact Hnot.
  - eexists; split; [reflexivity|].
    unfold ERR; cbn [exec notifications history ex_steps ex_status currentStepIndex ex_endTime].
    exec_maps.
    split; [exact Hstep|]. split.
    { rewrite Hstat, repeat_pending_split by exact Hi. rewrite !set_nth_repeat. reflexivity. }
    split.
    { eexists. rewrite !nth_error_set_nth_eq, Hse. simpl. split; [reflexivity|].
      split; [reflexivity|discriminate]. }
    split; [exact Hlen|].
    split.
    { exists f. split; [exact Hf|]. rewrite <- Hprev, <- Hhist. split; [reflexivity|exact Hc]. }
    split; [rewrite <- Hhist; exact Hans|].
    split; [reflexivity|]. split; [discriminate|]. split; [reflexivity|].
    unfold notify_list. destruct hasProgress.
    + rewrite !map_app, Hnot, <- app_assoc. unfold summary at 1 2; simpl.
      exec_maps. rewrite Hst. rewrite Hrun.
      unfold statuses_at. rewrite set_nth_repeat. reflexivity.
    + exact Hnot.
Qed.

Lemma run_loop_spec (n : nat) : forall i w rs prev,
  INV i w rs prev -> i + n = length fs ->
  (exists w' rs' prev', run_loop chat now hasProgress hasStream n i prev w = (Ok tt, w')
                        /\ INV (length fs) w' rs' prev') \/
  (exists k e w' rs', i <= k < length fs
                      /\ run_loop chat now hasProgress hasStream n i prev w = (Throw e, w')
                      /\ ERR k e w' rs').
Proof.
  induction n as [|n IH]; intros i w rs prev H Hn.
  - left. exists w, rs, prev. split; [reflexivity|].
    replace (length fs) with i by lia. exact H.
  - assert (Hi : i < length fs) by lia.
    destruct (nth_error fs i) as [f|] eqn:Hf; [|apply nth_error_None in Hf; lia].
    pose proof (run_step_inv i w rs prev f H Hf) as Hs.
    assert (Hunf : run_loop chat now hasProgress hasStream (S n) i prev w =
      match run_step chat now hasProgress hasStream i prev w with
      | (Ok a, w1) => run_loop chat now hasProgress hasStream n (S i) a w1
      | (Throw e, w1) => (Throw e, w1)
      end) by reflexivity.
    rewrite Hunf.
    destruct (chat (history w) _) as [r|e].
    + destruct Hs as (w' & Hrun & Hinv). rewrite Hrun.
      destruct (IH (S i) w' (rs ++ [r]) (resp_content r) Hinv ltac:(lia)) as [L|R].
      * left; exact L.
      * right. destruct R as (k & e & w'' & rs' & Hk & Hr & Herr).
        exists k, e, w'', rs'. split; [lia|]. split; [exact Hr|exact Herr].
    + destruct Hs as (w' & Hrun & Herr). rewrite Hrun. right.
      exists i, e, w', rs. split; [lia|]. split; [reflexivity|exact Herr].
Qed.

Lemma map_const_repeat {A B} (x : B) (l : list A) : map (fun _ => x) l = repeat x (length l).
Proof. induction l as [|a l IH]; simpl; [reflexivity|]. rewrite IH. reflexivity. Qed.

(** The flow execution after a loop that ran to its end. *)
Definition completed_execution (w : World) : FlowExecution :=
  mkFlowExecution (ex_steps (exec w)) f_completed (currentStepIndex (exec w))
    (ex_startTime (exec w)) (Some (now (ticks w))).

Lemma execute_spec (flow : ParsedFlow) :
  steps flow = fs ->
  (exists w rs prev, INV (length fs) w rs prev /\
     run_execute chat now flow initialInput hasProgress hasStream =
     (Ok (completed_execution w),
      mkWorld (completed_execution w)
        (notify_list hasProgress (notifications w) (completed_execution w))
        (history w) (S (ticks w)))) \/
  (exists k e w rs, k < length fs /\
     run_execute chat now flow initialInput hasProgress hasStream = (Throw e, w) /\
     ERR k e w rs).
Proof.
  intros Hfl.
  set (e0 := mkFlowExecution (map pending_step (steps flow)) f_running 0 (now 0) None).
  set (w0 := mkWorld e0 (if hasProgress then [] ++ [e0] else []) [] 1).
  assert (Hinit : INV 0 w0 [] initialInput).
  { unfold INV, w0, e0; cbn [exec notifications history ex_steps ex_status currentStepIndex].
    rewrite Hfl, !map_map. cbn [step status output pending_step].
    rewrite map_id, !map_const_repeat, Nat.sub_0_r.
    split; [reflexivity|]. split; [reflexivity|]. split; [reflexivity|].
    split; [reflexivity|]. split; [destruct fs; reflexivity|].
    split; [exact I|]. split; [reflexivity|]. split; [reflexivity|]. split; [reflexivity|].
    destruct hasProgress; [|reflexivity]. simpl. unfold summary; simpl.
    rewrite map_map. cbn [pending_step status]. rewrite map_const_repeat. reflexivity. }
  assert (Hexec : run_execute chat now flow initialInput hasProgress hasStream =
    (bind (run_loop chat now hasProgress hasStream (length (steps flow)) 0 initialInput)
       (fun _ => set_flow_status f_completed ;;; t1 <- date_now now ;;
                 set_flow_endTime t1 ;;; notify hasProgress ;;; get_exec)) w0).
  { reflexivity. }
  rewrite Hexec. rewrite Hfl.
  destruct (run_loop_spec (length fs) 0 w0 [] initialInput Hinit eq_refl)
    as [(w & rs & prev & Hrun & Hinv)|(k & e & w & rs & Hk & Hrun & Herr)].
  - left. exists w, rs, prev. split; [exact Hinv|].
    unfold bind at 1. rewrite Hrun. reflexivity.
  - right. exists k, e, w, rs. split; [lia|]. split; [|exact Herr].
    unfold bind at 1. rewrite Hrun. reflexivity.
Qed.

End Loop.

End ExecFacts.

Module ExecFacts2.
Import Parser LLMTypes Executor ExecFacts.
Local Open Scope list_scope.

Section Requests.
Variable hasStream : bool.

Lemma expected_requests_length (rs : list ChatResponse) : forall fs' init,
  length rs <= length fs' -> length (expected_requests hasStream fs' rs init) = length rs.
Proof.
  induction rs as [|r rs IH]; intros [|f fs'] init H; simpl in H |- *; try lia; auto.
  rewrite IH by lia. reflexivity.
Qed.

Lemma expected_requests_nth (rs : list ChatResponse) : forall fs' init j q,
  nth_error (expected_requests hasStream fs' rs init) (S j) = Some q ->
  exists f r, nth_error fs' (S j) = Some f /\ nth_error rs j = Some r /\
              q = step_request (formatStepPrompt f (Some (resp_content r))) hasStream.
Proof.
  induction rs as [|r0 rs IH]; intros [|f0 fs'] init j q H; try (destruct j; discriminate).
  simpl in H. destruct j as [|j].
  - destruct fs' as [|f1 fs']; [discriminate|]. destruct rs as [|r1 rs]; [discriminate|].
    simpl in H. injection H as <-. exists f1, r0. auto.
  - destruct (IH fs' (resp_content r0) j q H) as (f & r & Hf & Hr & Hq).
    exists f, r. auto.
Qed.

Lemma nth_error_app_lt {A} (l m : list A) (j : nat) :
  j < length l -> nth_error (l ++ m) j = nth_error l j.
Proof. intros H. apply nth_error_app1. exact H. Qed.

End Requests.

Section Runs.
Variable chat : list ChatRequest -> ChatRequest -> outcome ChatResponse.
Variable now : nat -> Z.
Variables (hasProgress hasStream : bool).
Variable flow : ParsedFlow.
Variable initialInput : string.

Let fs := steps flow.
Let N := length fs.

(** Every call answered: the loop runs to its end. *)
Lemma execute_succeeds :
  (forall h r, exists resp, chat h r = Ok resp) ->
  exists w rs prev, INV chat hasProgress hasStream fs initialInput N w rs prev /\
     run_execute chat now flow initialInput hasProgress hasStream =
     (Ok (completed_execution now w),
      mkWorld (completed_execution now w)
        (notify_list hasProgress (notifications w) (completed_execution now w))
        (history w) (S (ticks w))).
Proof.
  intros Hok.
  destruct (execute_spec chat now hasProgress hasStream fs initialInput flow eq_refl)
    as [H|(k & e & w & rs & Hk & Hrun & Herr)]; [exact H|].
  exfalso. destruct Herr as (_ & _ & _ & _ & (f & _ & _ & Hc) & _).
  destruct (Hok (expected_requests hasStream fs rs initialInput)
              (step_request (formatStepPrompt f (Some (last_content rs initialInput))) hasStream))
    as [resp Hr].
  cbv zeta in Hc. congruence.
Qed.

(** The first [k] calls answered, call [k] failing: the loop stops at step [k]. *)
Lemma execute_fails_at (k : nat) :
  k < N ->
  (forall h r, length h < k -> exists resp, chat h r = Ok resp) ->
  (forall h r, length h = k -> exists e, chat h r = Throw e) ->
  exists e w rs,
    run_execute chat now flow initialInput hasProgress hasStream = (Throw e, w) /\
    ERR chat hasProgress hasStream fs initialInput k e w rs.
Proof.
  intros Hk Hbefore Hat.
  destruct (execute_spec chat now hasProgress hasStream fs initialInput flow eq_refl)
    as [(w & rs & prev & Hinv & Hrun)|(k' & e & w & rs & Hk' & Hrun & Herr)].
  - exfalso. destruct Hinv as (_ & _ & _ & Hlen & Hhist & Hans & _).
    assert (Hl : length (history w) = N)
      by (rewrite (answered_length chat rs [] _ Hans); exact Hlen).
    destruct (nth_error_of_length' (history w) k) as [q Hq]; [lia|].
    destruct (answered_nth_ok chat rs (history w) k q Hans Hq) as (r & _ & Hc).
    destruct (Hat (firstn k (history w)) q) as [e He]; [rewrite length_firstn; lia|].
    congruence.
  - exists e, w, rs. split; [exact Hrun|].
    assert (Hlen := Herr). destruct Hlen as (_ & _ & _ & Hlen & (f & _ & _ & Hc) & Hans & _).
    cbv zeta in Hc.
    assert (He : length (expected_requests hasStream fs rs initialInput) = k')
      by (rewrite expected_requests_length; lia).
    destruct (Nat.lt_trichotomy k' k) as [Hlt|[Heq|Hgt]].
    + exfalso. destruct (Hbefore (expected_requests hasStream fs rs initialInput)
        (step_request (formatStepPrompt f (Some (last_content rs initialInput))) hasStream))
        as [resp Hr]; [lia|]. congruence.
    + rewrite <- Heq. exact Herr.
    + exfalso.
      destruct (nth_error_of_length' (expected_requests hasStream fs rs initialInput) k)
        as [q Hq]; [lia|].
      destruct (answered_nth_ok chat rs _ k q Hans Hq) as (r & _ & Hc').
      destruct (Hat (firstn k (expected_requests hasStream fs rs initialInput)) q)
        as [e' He']; [rewrite length_firstn; lia|]. congruence.
Qed.

(** The requests of any run follow the chain of the answers: there are
    answers [rsx] such that the requests are [expected_requests fs rsx], the
    answer to every request followed by another one being the one in [rsx]. *)
Lemma execute_request_chain (res : outcome FlowExecution) (w : World) :
  run_execute chat now flow initialInput hasProgress hasStream = (res, w) ->
  exists rsx, history w = expected_requests hasStream fs rsx initialInput /\
    (forall j q r, nth_error (history w) j = Some q -> chat (firstn j (history w)) q = Ok r ->
       S j < length (history w) -> nth_error rsx j = Some r).
Proof.
  intros Hres.
  destruct (execute_spec chat now hasProgress hasStream fs initialInput flow eq_refl)
    as [(w' & rs & prev & Hinv & Hrun)|(k & e & w' & rs & Hk & Hrun & Herr)];
    rewrite Hrun in Hres; injection Hres as _ <-; cbn [history].
  - destruct Hinv as (_ & _ & _ & _ & Hhist & Hans & _).
    exists rs. split; [exact Hhist|]. intros j q r Hq Hc _.
    destruct (answered_nth_ok chat rs _ j q Hans Hq) as (r' & Hr' & Hc').
    congruence.
  - destruct Herr as (_ & _ & _ & Hlen & (f & Hf & Hhist & Hc) & Hans & _).
    cbv zeta in Hhist.
    set (d := mkChatResponse "" openai "" None).
    exists (rs ++ [d]). split.
    { rewrite Hhist. symmetry. apply expected_requests_snoc. rewrite Hlen. exact Hf. }
    intros j q r Hq Hc' Hj.
    assert (HL : length (expected_requests hasStream fs rs initialInput) = k)
      by (rewrite expected_requests_length; lia).
    rewrite Hhist, length_app, HL in Hj. simpl in Hj.
    rewrite Hhist, nth_error_app1 in Hq by lia.
    rewrite Hhist, firstn_app in Hc'.
    replace (j - length (expected_requests hasStream fs rs initialInput)) with 0 in Hc' by lia.
    simpl in Hc'. rewrite app_nil_r in Hc'.
    destruct (answered_nth_ok chat rs _ j q Hans Hq) as (r' & Hr' & Hc'').
    rewrite nth_error_app1 by lia. congruence.
Qed.

End Runs.

Lemma length_snaps (n i : nat) : length (snaps n i) = 1 + 2 * i.
Proof.
  induction i as [|i IH]; [reflexivity|].
  rewrite snaps_S, length_app, IH. simpl. lia.
Qed.

Lemma firstn_snoc {A} (l : list A) (x : A) : firstn (length l) (l ++ [x]) = l.
Proof. rewrite firstn_app, Nat.sub_diag, firstn_all. apply app_nil_r. Qed.

Lemma nth_error_snoc {A} (l : list A) (x : A) : nth_error (l ++ [x]) (length l) = Some x.
Proof. rewrite nth_error_app2, Nat.sub_diag by lia. reflexivity. Qed.

End ExecFacts2.

Module StreamFacts.
Import LLMTypes Streaming.

Lemma string_app_empty_r (s : string) : s ++ "" = s.
Proof. induction s as [|a s IH]; simpl; [reflexivity|rewrite IH; reflexivity]. Qed.

Section Facts.
Variable num_truthy : Q -> bool.
Variable num_to_string : Q -> string.
Variable JSON_parse : string -> option jvalue.

(** What the observer may receive: a truthy content, or the empty string with
    [done = true]. *)
Definition good_emitted (e : Emitted) : Prop :=
  if em_done e then em_content e = JStr "" else truthy num_truthy (em_content e) = true.

Definition stream_inv (st : StreamState) : Prop :=
  fullContent st = emitted_text num_to_string (emitted st) /\ Forall good_emitted (emitted st).

Lemma emitted_text_snoc (l : list Emitted) (e : Emitted) :
  emitted_text num_to_string (app l [e]) =
  if em_done e then emitted_text num_to_string l
  else emitted_text num_to_string l ++ to_js_string num_to_string (em_content e).
Proof. unfold emitted_text. rewrite fold_left_app. reflexivity. Qed.

Lemma add_content_inv (c : jvalue) (st : StreamState) :
  stream_inv st -> stream_inv (add_content num_truthy num_to_string c st).
Proof.
  unfold add_content, stream_inv. destruct (truthy num_truthy c) eqn:Ht; [|auto].
  destruct (to_string_throws c); [auto|].
  intros [Hf Hg]. cbn [fullContent emitted]. rewrite emitted_text_snoc, Hf. split; [reflexivity|].
  apply Forall_app. split; [exact Hg|]. constructor; [exact Ht|constructor].
Qed.

Lemma emit_done_inv (st : StreamState) : stream_inv st -> stream_inv (emit_done st).
Proof.
  unfold emit_done, stream_inv. intros [Hf Hg]. cbn [fullContent emitted].
  rewrite emitted_text_snoc, Hf. split; [reflexivity|].
  apply Forall_app. split; [exact Hg|]. constructor; [reflexivity|constructor].
Qed.

Lemma claude_line_inv (st : StreamState) (line : string) :
  stream_inv st -> stream_inv (claude_line num_truthy num_to_string JSON_parse st line).
Proof.
  intros H. unfold claude_line.
  repeat match goal with
         | |- stream_inv (if ?b then _ else _) => destruct b
         | |- stream_inv (match ?x with _ => _ end) => destruct x
         end;
    auto using add_content_inv, emit_done_inv.
Qed.

Lemma openai_line_inv (st : StreamState) (line : string) :
  stream_inv st -> stream_inv (openai_line num_truthy num_to_string JSON_parse st line).
Proof.
  intros H. unfold openai_line.
  repeat match goal with
         | |- stream_inv (if ?b then _ else _) => destruct b
         | |- stream_inv (match ?x with _ => _ end) => destruct x
         end;
    auto using add_content_inv, emit_done_inv.
Qed.

Lemma read_stream_inv (on_line : StreamState -> string -> StreamState) (chunks : list string) :
  (forall st line, stream_inv st -> stream_inv (on_line st line)) ->
  stream_inv (read_stream on_line chunks).
Proof.
  intros Hl. unfold read_stream.
  assert (Hs : stream_inv stream_start) by (split; [reflexivity|constructor]).
  revert Hs. generalize stream_start.
  induction chunks as [|c cs IH]; intros st Hs; simpl; [exact Hs|].
  apply IH. generalize (lines_of c). intros ls. revert st Hs.
  induction ls as [|l ls IHl]; intros st Hs; simpl; auto.
Qed.

(** The observer is only handed contents whose conversion to a string does
    not throw, so [to_js_string] is [String(v)] on every one of them. *)
Definition quiet (st : StreamState) : Prop :=
  Forall (fun e => to_string_throws (em_content e) = false) (emitted st).

Lemma add_content_quiet (c : jvalue) (st : StreamState) :
  quiet st -> quiet (add_content num_truthy num_to_string c st).
Proof.
  unfold add_content, quiet. destruct (truthy num_truthy c); [|auto].
  destruct (to_string_throws c) eqn:Hc; [auto|]. intros H. cbn [emitted].
  apply Forall_app. split; [exact H|]. constructor; [exact Hc|constructor].
Qed.

Lemma emit_done_quiet (st : StreamState) : quiet st -> quiet (emit_done st).
Proof.
  unfold emit_done, quiet. intros H. cbn [emitted].
  apply Forall_app. split; [exact H|]. constructor; [reflexivity|constructor].
Qed.

Lemma read_stream_quiet (on_line : StreamState -> string -> StreamState) (chunks : list string) :
  (forall st line, quiet st -> quiet (on_line st line)) ->
  quiet (read_stream on_line chunks).
Proof.
  intros Hl. unfold read_stream.
  assert (Hs : quiet stream_start) by constructor.
  revert Hs. generalize stream_start.
  induction chunks as [|c cs IH]; intros st Hs; simpl; [exact Hs|].
  apply IH. generalize (lines_of c). intros ls. revert st Hs.
  induction ls as [|l ls IHl]; intros st Hs; simpl; auto.
Qed.

Lemma handleStream_quiet (model : string) (chunks : list string) :
  Forall (fun e => to_string_throws (em_content e) = false)
    (fst (claude_handleStream num_truthy num_to_string JSON_parse model chunks)) /\
  Forall (fun e => to_string_throws (em_content e) = false)
    (fst (openai_handleStream num_truthy num_to_string JSON_parse model chunks)).
Proof.
  split; apply read_stream_quiet; intros st line H;
    [unfold claude_line|unfold openai_line];
    repeat match goal with
           | |- quiet (if ?b then _ else _) => destruct b
           | |- quiet (match ?x with _ => _ end) => destruct x
           end;
    auto using add_content_quiet, emit_done_quiet.
Qed.

Lemma firstn_S_snoc {A} (l : list A) (k : nat) :
  firstn (S k) l = app (firstn k l) (match nth_error l k with Some x => [x] | None => [] end).
Proof.
  revert k. induction l as [|x l IH]; intros k; [destruct k; reflexivity|].
  destruct k as [|k]; [reflexivity|].
  change (x :: firstn (S k) l =
          x :: app (firstn k l) (match nth_error l k with Some y => [y] | None => [] end)).
  rewrite IH. reflexivity.
Qed.

(** Each observer call extends the emitted text: it never shrinks. *)
Lemma emitted_text_grows (evs : list Emitted) (k : nat) :
  exists d, emitted_text num_to_string (firstn (S k) evs) =
            emitted_text num_to_string (firstn k evs) ++ d.
Proof.
  rewrite firstn_S_snoc. destruct (nth_error evs k) as [e|].
  - rewrite emitted_text_snoc. destruct (em_done e).
    + exists "". rewrite string_app_empty_r. reflexivity.
    + eexists. reflexivity.
  - exists "". rewrite app_nil_r, string_app_empty_r. reflexivity.
Qed.

End Facts.
End StreamFacts.

(** * The claims *)
Import JsString Parser.

(** C4: for a step with [usesPreviousOutput = true] and a non-empty previous
    output, [formatStepPrompt] prepends the previous output under
    "Given this content:" when the instruction matches the reference-word
    expression (this/that/it/the result/output/response/text/content, whole
    words, case-insensitive) and appends it under "Content to work with:"
    otherwise; "Summarize this" with "Lorem ipsum" begins with
    "Given this content:\n\nLorem ipsum\n\n" and "List 3 facts" with
    "Lorem ipsum" ends with "\n\nContent to work with:\nLorem ipsum". *)
Theorem formatStepPrompt_merge (st : FlowStep) (prev : string)
    (Huses : usesPreviousOutput st = true) (Hprev : prev <> "") :
  formatStepPrompt st (Some prev) =
    (if referencesOutput (instruction st)
     then "Given this content:" ++ nl ++ nl ++ prev ++ nl ++ nl ++ instruction st
     else instruction st ++ nl ++ nl ++ "Content to work with:" ++ nl ++ prev) /\
  (forall n, exists rest,
     formatStepPrompt (mkFlowStep n "Summarize this" true) (Some "Lorem ipsum") =
     ("Given this content:" ++ nl ++ nl ++ "Lorem ipsum" ++ nl ++ nl) ++ rest) /\
  (forall n, exists pre,
     formatStepPrompt (mkFlowStep n "List 3 facts" true) (Some "Lorem ipsum") =
     pre ++ (nl ++ nl ++ "Content to work with:" ++ nl ++ "Lorem ipsum")).
Proof.
  split; [|split].
  - unfold formatStepPrompt. rewrite Huses.
    simpl. destruct (String.eqb_spec prev ""); [contradiction|]. reflexivity.
  - intros n. exists "Summarize this". vm_compute. reflexivity.
  - intros n. exists "List 3 facts". vm_compute. reflexivity.
Qed.

Lemma formatStepPrompt_merge_witness :
  usesPreviousOutput (mkFlowStep 2 "Summarize this" true) = true /\
  "Lorem ipsum" <> "" /\
  formatStepPrompt (mkFlowStep 2 "Summarize this" true) (Some "Lorem ipsum") =
    "Given this content:" ++ nl ++ nl ++ "Lorem ipsum" ++ nl ++ nl ++ "Summarize this".
Proof.
  split; [reflexivity|split; [discriminate|]].
  apply (formatStepPrompt_merge (mkFlowStep 2 "Summarize this" true) "Lorem ipsum"
           eq_refl ltac:(discriminate)).
Defined.

(** C8 (counterexample): the empty description parses to a flow with no
    step, which breaks the ParsedFlow invariant. *)
Lemma parseFlowDescription_empty_no_steps :
  steps (parseFlowDescription "") = [] /\ ~ flow_invariant (parseFlowDescription "").
Proof.
  split; [reflexivity|]. intros [H _]. apply H. reflexivity.
Qed.

(** C8 (amended): a description that is not empty or whitespace-only parses to
    a flow with at least one step, orders 1..N in list order and a first step
    with [usesPreviousOutput = false]; an empty or whitespace-only description
    parses to a flow with no step. *)
Theorem parseFlowDescription_invariant (d : string) :
  if is_blank d then steps (parseFlowDescription d) = []
  else flow_invariant (parseFlowDescription d).
Proof.
  destruct (is_blank d) eqn:E.
  - unfold parseFlowDescription. rewrite E, orb_true_r. reflexivity.
  - now apply ParserFacts2.parse_nonblank_invariant.
Qed.


Import LLMTypes Executor ExecFacts ExecFacts2.

(** C1: when every chat call succeeds, [execute] on a flow with N >= 1 steps
    returns a FlowExecution with status completed, all N steps completed,
    each step's output the content of the client's response to that step's
    request, and [currentStepIndex = N - 1]. *)
Theorem execute_all_steps_complete chat now (flow : ParsedFlow) (initialInput : string)
    (hasProgress hasStream : bool)
    (Hok : forall h r, exists resp, chat h r = Ok resp)
    (HN : 1 <= length (steps flow)) :
  exists fe w,
    run_execute chat now flow initialInput hasProgress hasStream = (Ok fe, w) /\
    ex_status fe = f_completed /\
    map step (ex_steps fe) = steps flow /\
    map status (ex_steps fe) = repeat completed (length (steps flow)) /\
    currentStepIndex fe = length (steps flow) - 1 /\
    (forall j se, nth_error (ex_steps fe) j = Some se ->
       exists req resp, nth_error (history w) j = Some req /\
         chat (firstn j (history w)) req = Ok resp /\
         output se = Some (resp_content resp)).
Proof.
  destruct (execute_succeeds chat now hasProgress hasStream flow initialInput Hok)
    as (w & rs & prev & Hinv & Hrun).
  eexists; eexists. split; [exact Hrun|].
  destruct Hinv as (Hstep & Hstat & Hout & Hlen & Hhist & Hans & _ & _ & Hidx & _).
  rewrite Nat.sub_diag in Hstat, Hout. rewrite app_nil_r in Hstat, Hout.
  cbn [completed_execution ex_status ex_steps currentStepIndex history].
  split; [reflexivity|]. split; [exact Hstep|]. split; [exact Hstat|].
  split; [rewrite Hidx, Nat.sub_1_r; reflexivity|].
  intros j se Hse.
  assert (Ho := f_equal (fun l => nth_error l j) Hout). cbv beta in Ho.
  rewrite !nth_error_map, Hse in Ho.
  destruct (nth_error rs j) as [r|] eqn:Hr; [|discriminate].
  injection Ho as Ho.
  assert (Hl : length (history w) = length rs) by exact (answered_length chat rs [] _ Hans).
  destruct (nth_error_of_length' (history w) j) as [q Hq].
  { rewrite Hl. apply nth_error_Some. congruence. }
  exists q, r. split; [exact Hq|]. split; [|exact Ho].
  exact (answered_nth chat rs [] _ j q r Hans Hq Hr).
Qed.

Lemma execute_all_steps_complete_witness :
  exists fe w,
    run_execute (fun _ _ => Ok (mkChatResponse "ok" openai "gpt-4" None)) (fun n => Z.of_nat n)
      (parseFlowDescription "first read it then summarize this") "input" true false
      = (Ok fe, w) /\
    ex_status fe = f_completed /\
    currentStepIndex fe = 1.
Proof.
  destruct (execute_all_steps_complete (fun _ _ => Ok (mkChatResponse "ok" openai "gpt-4" None))
              (fun n => Z.of_nat n) (parseFlowDescription "first read it then summarize this")
              "input" true false (fun _ _ => ex_intro _ _ eq_refl) ltac:(vm_compute; lia))
    as (fe & w & H1 & H2 & _ & _ & H4 & _).
  exists fe, w. split; [exact H1|]. split; [exact H2|]. rewrite H4. reflexivity.
Defined.

(** C2: when the chat call of step k fails and the earlier ones succeed,
    [execute] throws the very error of that call; steps 0..k-1 are completed,
    step k has status error with the error's message and an end time, steps
    k+1..N-1 are still pending, the flow status is error with an end time,
    and exactly k+1 chat calls were made (none for a step after k). *)
Theorem execute_stops_at_failing_step chat now (flow : ParsedFlow) (initialInput : string)
    (hasProgress hasStream : bool) (k : nat)
    (Hk : k < length (steps flow))
    (Hbefore : forall h r, length h < k -> exists resp, chat h r = Ok resp)
    (Hat : forall h r, length h = k -> exists e, chat h r = Throw e) :
  exists e w,
    run_execute chat now flow initialInput hasProgress hasStream = (Throw e, w) /\
    map step (ex_steps (exec w)) = steps flow /\
    map status (ex_steps (exec w)) =
      app (repeat completed k) (error_st :: repeat pending (length (steps flow) - S k)) /\
    (exists se, nth_error (ex_steps (exec w)) k = Some se /\
                error se = Some (error_message e) /\ endTime se <> None) /\
    ex_status (exec w) = f_error /\
    ex_endTime (exec w) <> None /\
    length (history w) = S k /\
    (exists req, nth_error (history w) k = Some req /\
                 chat (firstn k (history w)) req = Throw e).
Proof.
  destruct (execute_fails_at chat now hasProgress hasStream flow initialInput k Hk Hbefore Hat)
    as (e & w & rs & Hrun & Herr).
  destruct Herr as (Hstep & Hstat & Hse & Hlen & (f & Hf & Hhist & Hc) & Hans & Hst & Hend & _).
  cbv zeta in Hhist, Hc.
  assert (HL : length (expected_requests hasStream (steps flow) rs initialInput) = k)
    by (rewrite expected_requests_length; lia).
  exists e, w. split; [exact Hrun|]. split; [exact Hstep|]. split; [exact Hstat|].
  split; [exact Hse|]. split; [exact Hst|]. split; [exact Hend|].
  rewrite Hhist. split.
  - rewrite length_app, HL. simpl. lia.
  - eexists. rewrite <- HL at 1 2. rewrite nth_error_snoc, firstn_snoc.
    split; [reflexivity|exact Hc].
Qed.

Lemma execute_stops_at_failing_step_witness :
  exists e w,
    run_execute (fun h _ => if length h =? 1 then Throw (ErrorObj "rate limited")
                            else Ok (mkChatResponse "ok" claude "m" None))
      (fun n => Z.of_nat n) (parseFlowDescription "a, b, c") "in" true false = (Throw e, w) /\
    ex_status (exec w) = f_error /\ length (history w) = 2.
Proof.
  destruct (execute_stops_at_failing_step
              (fun h _ => if length h =? 1 then Throw (ErrorObj "rate limited")
                          else Ok (mkChatResponse "ok" claude "m" None))
              (fun n => Z.of_nat n) (parseFlowDescription "a, b, c") "in" true false 1
              ltac:(vm_compute; lia)
              ltac:(intros h r Hh; assert (E : (length h =? 1) = false) by (apply Nat.eqb_neq; lia);
                    cbv beta; rewrite E; eexists; reflexivity)
              ltac:(intros h r Hh; cbv beta; rewrite Hh; eexists; reflexivity))
    as (e & w & H1 & _ & _ & _ & H2 & _ & H3 & _).
  exists e, w. auto.
Defined.

(** C3: with a progress observer, a run whose step k fails notifies it
    1 + 2(k+1) times: the all-pending snapshot, then for each step j <= k a
    notification with step j running and one with step j completed (error
    for j = k, together with the flow status error), in this order; a run in
    which every call succeeds notifies it 2N + 2 times, the last one with
    the flow completed. *)
Theorem execute_progress_notifications :
  (forall chat now (flow : ParsedFlow) initialInput hasStream k,
     k < length (steps flow) ->
     (forall h r, length h < k -> exists resp, chat h r = Ok resp) ->
     (forall h r, length h = k -> exists e, chat h r = Throw e) ->
     exists e w,
       run_execute chat now flow initialInput true hasStream = (Throw e, w) /\
       length (notifications w) = 1 + 2 * (k + 1) /\
       map summary (notifications w) =
         app (snaps (length (steps flow)) k)
           [(statuses_at (length (steps flow)) k running, k, f_running);
            (statuses_at (length (steps flow)) k error_st, k, f_error)]) /\
  (forall chat now (flow : ParsedFlow) initialInput hasStream,
     (forall h r, exists resp, chat h r = Ok resp) ->
     exists fe w,
       run_execute chat now flow initialInput true hasStream = (Ok fe, w) /\
       length (notifications w) = 2 * length (steps flow) + 2 /\
       map summary (notifications w) =
         app (snaps (length (steps flow)) (length (steps flow)))
           [(repeat completed (length (steps flow)), pred (length (steps flow)), f_completed)]).
Proof.
  split.
  - intros chat now flow initialInput hasStream k Hk Hbefore Hat.
    destruct (execute_fails_at chat now true hasStream flow initialInput k Hk Hbefore Hat)
      as (e & w & rs & Hrun & Herr).
    destruct Herr as (_ & _ & _ & _ & _ & _ & _ & _ & _ & Hnot).
    exists e, w. split; [exact Hrun|]. split; [|exact Hnot].
    rewrite <- (length_map summary), Hnot, length_app, length_snaps. simpl. lia.
  - intros chat now flow initialInput hasStream Hok.
    destruct (execute_succeeds chat now true hasStream flow initialInput Hok)
      as (w & rs & prev & Hinv & Hrun).
    destruct Hinv as (_ & Hstat & _ & _ & _ & _ & _ & Hst & Hidx & Hnot).
    eexists; eexists. split; [exact Hrun|].
    cbn [notifications]. unfold notify_list.
    assert (Hm : map summary (app (notifications w) [completed_execution now w]) =
                 app (snaps (length (steps flow)) (length (steps flow)))
                   [(repeat completed (length (steps flow)), pred (length (steps flow)),
                     f_completed)]).
    { rewrite map_app, Hnot. unfold summary at 1. cbn [completed_execution ex_steps
        currentStepIndex ex_status map]. rewrite Hstat, Hidx, Nat.sub_diag, app_nil_r.
      reflexivity. }
    split; [|exact Hm].
    rewrite <- (length_map summary), Hm, length_app, length_snaps. simpl. lia.
Qed.


Import FlowsUI.






Lemma formatStepPrompt_no_context (st : FlowStep) (prev : option string) :
  usesPreviousOutput st = false \/ prev = None \/ prev = Some "" ->
  formatStepPrompt st prev = instruction st.
Proof.
  intros H. unfold formatStepPrompt.
  destruct H as [H|[H|H]]; rewrite H; [reflexivity| |];
    rewrite ?andb_false_r; reflexivity.
Qed.

(** C10: [formatStepPrompt] returns the instruction unchanged when the step
    does not use the previous output, when there is no previous output, or when
    it is the empty string; so in any run of [execute], the request that
    follows a call answered with empty content is the bare instruction of the
    next step. *)
Theorem formatStepPrompt_bare_instruction :
  (forall st prev, usesPreviousOutput st = false \/ prev = None \/ prev = Some "" ->
     formatStepPrompt st prev = instruction st) /\
  (forall chat now flow initialInput hasProgress hasStream res w j q q' r,
     run_execute chat now flow initialInput hasProgress hasStream = (res, w) ->
     nth_error (history w) j = Some q ->
     chat (firstn j (history w)) q = Ok r ->
     resp_content r = "" ->
     nth_error (history w) (S j) = Some q' ->
     exists f, nth_error (steps flow) (S j) = Some f /\
               q' = step_request (instruction f) hasStream).
Proof.
  split; [exact formatStepPrompt_no_context|].
  intros chat now flow initialInput hasProgress hasStream res w j q q' r
    Hrun Hq Hc Hempty Hq'.
  destruct (execute_request_chain chat now hasProgress hasStream flow initialInput res w Hrun)
    as (rsx & Hh & Hans).
  assert (Hlt : S j < length (history w))
    by (apply nth_error_Some; rewrite Hq'; discriminate).
  specialize (Hans j q r Hq Hc Hlt).
  rewrite Hh in Hq'.
  destruct (expected_requests_nth hasStream rsx (steps flow) initialInput j q' Hq')
    as (f & r' & Hf & Hr' & ->).
  rewrite Hans in Hr'. injection Hr' as <-.
  exists f. split; [exact Hf|].
  rewrite Hempty, formatStepPrompt_no_context; auto.
Qed.

Import Streaming StreamExample StreamFacts.

(** C6: in streaming mode both clients hand the observer content that only
    accumulates (every non-terminal call carries a truthy content, a terminal
    call carries the empty string, and each call extends the emitted text),
    and the returned ChatResponse.content is the concatenation of the
    non-terminal contents. Fed [Hel], [lo] and the terminal event, each client
    returns [Hello] after exactly two non-terminal calls. *)
Theorem handleStream_accumulates :
  (forall num_truthy num_to_string JSON_parse model chunks,
     let r := claude_handleStream num_truthy num_to_string JSON_parse model chunks in
     resp_content (snd r) = emitted_text num_to_string (fst r) /\
     Forall (good_emitted num_truthy) (fst r) /\
     (forall k, exists d, emitted_text num_to_string (firstn (S k) (fst r)) =
                          emitted_text num_to_string (firstn k (fst r)) ++ d)) /\
  (forall num_truthy num_to_string JSON_parse model chunks,
     let r := openai_handleStream num_truthy num_to_string JSON_parse model chunks in
     resp_content (snd r) = emitted_text num_to_string (fst r) /\
     Forall (good_emitted num_truthy) (fst r) /\
     (forall k, exists d, emitted_text num_to_string (firstn (S k) (fst r)) =
                          emitted_text num_to_string (firstn k (fst r)) ++ d)) /\
  claude_handleStream example_num_truthy example_num_to_string example_parse "m" claude_chunks =
    ([mkEmitted (JStr "Hel") false; mkEmitted (JStr "lo") false; mkEmitted (JStr "") true],
     mkChatResponse "Hello" claude "m" None) /\
  openai_handleStream example_num_truthy example_num_to_string example_parse "m" openai_chunks =
    ([mkEmitted (JStr "Hel") false; mkEmitted (JStr "lo") false; mkEmitted (JStr "") true],
     mkChatResponse "Hello" openai "m" None).
Proof.
  split; [|split; [|split]].
  - intros nt ns parse model chunks r.
    destruct (read_stream_inv nt ns (claude_line nt ns parse) chunks
                (claude_line_inv nt ns parse)) as [Hf Hg].
    split; [exact Hf|]. split; [exact Hg|]. intros k. apply emitted_text_grows.
  - intros nt ns parse model chunks r.
    destruct (read_stream_inv nt ns (openai_line nt ns parse) chunks
                (openai_line_inv nt ns parse)) as [Hf Hg].
    split; [exact Hf|]. split; [exact Hg|]. intros k. apply emitted_text_grows.
  - vm_compute. reflexivity.
  - vm_compute. reflexivity.
Qed.

Import ClaudeRequest.

(** C7: the body the Claude client sends carries no system message in its
    conversation array (which holds the other messages, in order), its
    [system] field is the content of the first system message or undefined
    when there is none, and the only error before sending is a missing API
    key: several system messages are accepted, all but the first dropped. *)
Theorem claude_body_extracts_system :
  forall apiKey model request hasOnStream,
    match claude_body apiKey model request hasOnStream with
    | Ok body =>
        (forall m, In m (body_messages body) -> role m <> system) /\
        map content (body_messages body) =
          map content (filter (fun m => negb (is_system m)) (messages request)) /\
        body_system body = option_map content (hd_error (filter is_system (messages request)))
    | Throw e => apiKey = "" /\ e = ErrorObj "Anthropic API key is required"
    end.
Proof.
  intros apiKey model request hasOnStream. unfold claude_body.
  destruct (String.eqb apiKey "") eqn:Hk.
  - split; [apply String.eqb_eq; exact Hk|reflexivity].
  - cbn [body_messages body_system]. split; [|split].
    + intros m Hin. apply in_map_iff in Hin. destruct Hin as (m' & <- & _).
      cbn [role]. destruct (role_eqb (role m') user); discriminate.
    + rewrite map_map. reflexivity.
    + destruct (filter is_system (messages request)); reflexivity.
Qed.

Import ProxyHandler.

(** C9 (counterexample): a request whose method is OPTIONS (not POST) is
    answered with 200, not 405. *)
Lemma handler_options_not_405 :
  handler example_num_truthy answers_200 answers_200 "OPTIONS" JUndef = 200.
Proof. reflexivity. Qed.

(** C9 (amended): the handler answers an OPTIONS request (the CORS preflight)
    with 200 and every other method but POST with 405; it answers with 400 a
    POST whose body is an object (or any value other than null and undefined)
    in which provider, model or messages is missing or falsy. *)
Theorem handler_status_codes :
  forall num_truthy handleClaude handleOpenAI,
    let h := handler num_truthy handleClaude handleOpenAI in
    (forall body, h "OPTIONS" body = 200) /\
    (forall method body, method <> "OPTIONS" -> method <> "POST" -> h method body = 405) /\
    (forall body, body <> JNull -> body <> JUndef ->
       truthy num_truthy (prop body "provider") = false \/
       truthy num_truthy (prop body "model") = false \/
       truthy num_truthy (prop body "messages") = false ->
       h "POST" body = 400).
Proof.
  intros nt hc ho h. subst h. split; [|split].
  - intros body. reflexivity.
  - intros method body H1 H2. unfold handler.
    destruct (String.eqb_spec method "OPTIONS"); [contradiction|].
    destruct (String.eqb_spec method "POST"); [contradiction|]. reflexivity.
  - intros body Hn Hu Hf. unfold handler. cbn [String.eqb Ascii.eqb Bool.eqb negb].
    destruct (member body "provider") as [p|] eqn:Hp.
    + assert (Hpp : prop body "provider" = p) by (unfold prop; rewrite Hp; reflexivity).
      rewrite Hpp in Hf.
      destruct Hf as [Hf|[Hf|Hf]]; rewrite Hf; cbn [negb];
        rewrite ?orb_true_l, ?orb_true_r; reflexivity.
    + destruct body; try discriminate; contradiction.
Qed.

(** * Further properties of the code *)

Import TrimFacts ParserFacts ParserFacts2.

Lemma make_steps_instructions_nonblank (segments : list string) : forall index,
  Forall (fun st => is_blank (instruction st) = false) (make_steps segments index).
Proof.
  induction segments as [|sg t IH]; intros index; [constructor|].
  cbn [make_steps]. destruct (String.eqb (trim sg) "") eqn:E; simpl; [apply IH|].
  constructor; [|apply IH]. cbn [instruction]. rewrite is_blank_trim. exact E.
Qed.

Lemma parse_instructions_nonblank (d : string) :
  Forall (fun st => is_blank (instruction st) = false) (steps (parseFlowDescription d)).
Proof.
  unfold parseFlowDescription. destruct (String.eqb d "" || is_blank d); [constructor|].
  destruct (keyword_loop _ _ _) as [cur segs]. apply make_steps_instructions_nonblank.
Qed.

Lemma first_blank_step_forall (l : list FlowStep) :
  Forall (fun st => is_blank (instruction st) = false) l -> first_blank_step l = None.
Proof.
  induction 1 as [|x l Hx _ IH]; simpl; [reflexivity|]. rewrite Hx. exact IH.
Qed.

(** X1: The parser and the validator agree: [validateFlow] accepts the parse of a
    description exactly when the description is not empty or whitespace-only. *)
Theorem validateFlow_parse (d : string) :
  valid (validateFlow (parseFlowDescription d)) = negb (is_blank d).
Proof.
  destruct (is_blank d) eqn:Hd.
  - unfold parseFlowDescription. rewrite Hd, orb_true_r. reflexivity.
  - destruct (parse_nonblank_invariant d Hd) as (Hne & _ & _).
    unfold validateFlow. destruct (steps (parseFlowDescription d)) as [|x l] eqn:Hs;
      [contradiction|].
    rewrite <- Hs, first_blank_step_forall by apply parse_instructions_nonblank.
    reflexivity.
Qed.

Lemma lower_char_idem (c : ascii) : lower_char (lower_char c) = lower_char c.
Proof. destruct c as [[] [] [] [] [] [] [] []]; reflexivity. Qed.

Lemma is_word_char_lower (c : ascii) : is_word_char (lower_char c) = is_word_char c.
Proof. destruct c as [[] [] [] [] [] [] [] []]; reflexivity. Qed.

Lemma is_boundary_map_lower (l : list ascii) (p : nat) :
  is_boundary (map lower_char l) p = is_boundary l p.
Proof.
  unfold is_boundary. destruct p as [|q]; rewrite ?nth_error_map.
  - destruct (nth_error l 0); simpl; rewrite ?is_word_char_lower; reflexivity.
  - destruct (nth_error l q), (nth_error l (S q)); simpl; rewrite ?is_word_char_lower;
      reflexivity.
Qed.

Lemma existsb_ext_in {A} (f g : A -> bool) (l : list A) :
  (forall x, In x l -> f x = g x) -> existsb f l = existsb g l.
Proof.
  induction l as [|x l IH]; intros H; simpl; [reflexivity|].
  rewrite H by (left; reflexivity). rewrite IH by (intros y Hy; apply H; right; exact Hy).
  reflexivity.
Qed.

Lemma prefix_ci_map_lower (pat l : list ascii) :
  prefix_ci pat (map lower_char l) = prefix_ci pat l.
Proof.
  revert l. induction pat as [|c pt IH]; intros [|d lt]; simpl; auto.
  rewrite lower_char_idem, IH. reflexivity.
Qed.

(** X2: The test of [formatStepPrompt] for a reference to the previous output
    ignores case: a prompt references the output exactly when its lower-case
    form does. *)
Theorem referencesOutput_case_insensitive (s : string) :
  referencesOutput (toLowerCase s) = referencesOutput s.
Proof.
  unfold referencesOutput, toLowerCase. rewrite list_ascii_of_string_of_list_ascii, length_map.
  apply existsb_ext_in. intros p _. unfold match_at.
  rewrite !is_boundary_map_lower, skipn_map. f_equal.
  apply existsb_ext_in. intros a _. rewrite prefix_ci_map_lower, is_boundary_map_lower.
  reflexivity.
Qed.

Lemma expected_requests_first (hasStream : bool) (fs' : list FlowStep)
    (rs : list ChatResponse) (init : string) (q : ChatRequest) :
  nth_error (expected_requests hasStream fs' rs init) 0 = Some q ->
  exists f, nth_error fs' 0 = Some f /\
            q = step_request (formatStepPrompt f (Some init)) hasStream.
Proof.
  destruct fs' as [|f fs'], rs as [|r rs]; simpl; try discriminate.
  intros H. injection H as <-. exists f. auto.
Qed.

Lemma expected_requests_le (hasStream : bool) (rs : list ChatResponse) : forall fs' init,
  length (expected_requests hasStream fs' rs init) <= length fs'.
Proof.
  induction rs as [|r rs IH]; intros [|f fs'] init; simpl; try lia.
  specialize (IH fs' (resp_content r)). lia.
Qed.

(** X3: The requests [execute] sends: at most one per step; each is a single user
    message holding [formatStepPrompt] of its step, with [stream] set to
    [!!onStepStream]; the first step is given [initialInput], and every later
    step the content of the response to the request before it. *)
Theorem execute_prompt_chain :
  forall chat now flow initialInput hasProgress hasStream res w,
    run_execute chat now flow initialInput hasProgress hasStream = (res, w) ->
    length (history w) <= length (steps flow) /\
    (forall q, nth_error (history w) 0 = Some q ->
       exists f, nth_error (steps flow) 0 = Some f /\
                 q = step_request (formatStepPrompt f (Some initialInput)) hasStream) /\
    (forall j q r q', nth_error (history w) j = Some q ->
       chat (firstn j (history w)) q = Ok r ->
       nth_error (history w) (S j) = Some q' ->
       exists f, nth_error (steps flow) (S j) = Some f /\
                 q' = step_request (formatStepPrompt f (Some (resp_content r))) hasStream).
Proof.
  intros chat now flow initialInput hasProgress hasStream res w Hrun.
  destruct (execute_request_chain chat now hasProgress hasStream flow initialInput res w Hrun)
    as (rsx & Hh & Hans).
  split; [|split].
  - rewrite Hh. apply expected_requests_le.
  - intros q Hq. rewrite Hh in Hq. exact (expected_requests_first _ _ _ _ _ Hq).
  - intros j q r q' Hq Hc Hq'.
    assert (Hlt : S j < length (history w))
      by (apply nth_error_Some; rewrite Hq'; discriminate).
    specialize (Hans j q r Hq Hc Hlt).
    rewrite Hh in Hq'.
    destruct (expected_requests_nth hasStream rsx (steps flow) initialInput j q' Hq')
      as (f & r' & Hf & Hr' & ->).
    rewrite Hans in Hr'. injection Hr' as <-. exists f. auto.
Qed.

(** Witness of [execute_prompt_chain]: a two-step flow run with a client
    that always answers. *)
Lemma execute_prompt_chain_witness :
  let '(res, w) := run_execute ok_client (fun n => Z.of_nat n)
                     (parseFlowDescription "first read it then summarize this") "input" true false in
  length (history w) <= 2.
Proof.
  destruct (run_execute ok_client (fun n => Z.of_nat n)
              (parseFlowDescription "first read it then summarize this") "input" true false)
    as [res w] eqn:E.
  destruct (execute_prompt_chain ok_client (fun n => Z.of_nat n)
              (parseFlowDescription "first read it then summarize this") "input" true false
              res w E) as [H _].
  replace 2 with (length (steps (parseFlowDescription "first read it then summarize this")))
    by (vm_compute; reflexivity).
  exact H.
Defined.

Import Markdown ModelCommands.

Lemma html_entity_chars (c : ascii) (e : string) :
  html_entity c = Some e ->
  (c = "&"%char /\ e = "&amp;") \/ (c = "<"%char /\ e = "&lt;") \/
  (c = ">"%char /\ e = "&gt;") \/ (c = ascii_of_nat 34 /\ e = "&quot;") \/
  (c = ascii_of_nat 39 /\ e = "&#039;").
Proof.
  destruct c as [[] [] [] [] [] [] [] []]; cbv; intros H; try discriminate;
    injection H as <-; auto 8.
Qed.

(** The characters [escapeHtml] never leaves in its output. *)
Definition html_special (c : ascii) : bool :=
  match nat_of_ascii c with
  | 60 | 62 | 34 | 39 => true
  | _ => false
  end.

Lemma html_entity_none_special (c : ascii) :
  html_entity c = None -> html_special c = false /\ c <> "&"%char.
Proof.
  destruct c as [[] [] [] [] [] [] [] []]; cbv; intros H; try discriminate;
    split; congruence.
Qed.

Lemma escapeHtml_cons_plain (c : ascii) (t : string) :
  html_entity c = None -> escapeHtml (String c t) = String c (escapeHtml t).
Proof. intros H. simpl. rewrite H. reflexivity. Qed.

Lemma escapeHtml_no_special (s : string) :
  forallb (fun c => negb (html_special c)) (list_ascii_of_string (escapeHtml s)) = true.
Proof.
  induction s as [|c t IH]; [reflexivity|]. simpl.
  destruct (html_entity c) as [e|] eqn:He.
  - destruct (html_entity_chars c e He) as [[_ ->]|[[_ ->]|[[_ ->]|[[_ ->]|[_ ->]]]]];
      exact IH.
  - simpl. destruct (html_entity_none_special c He) as [-> _]. exact IH.
Qed.

Lemma escapeHtml_inj (s1 : string) : forall s2, escapeHtml s1 = escapeHtml s2 -> s1 = s2.
Proof.
  induction s1 as [|c1 t1 IH]; intros [|c2 t2] H.
  - reflexivity.
  - simpl in H. destruct (html_entity c2) as [e|] eqn:He; [|discriminate].
    destruct (html_entity_chars c2 e He) as [[_ ->]|[[_ ->]|[[_ ->]|[[_ ->]|[_ ->]]]]];
      discriminate.
  - simpl in H. destruct (html_entity c1) as [e|] eqn:He; [|discriminate].
    destruct (html_entity_chars c1 e He) as [[_ ->]|[[_ ->]|[[_ ->]|[[_ ->]|[_ ->]]]]];
      discriminate.
  - simpl in H.
    destruct (html_entity c1) as [e1|] eqn:He1, (html_entity c2) as [e2|] eqn:He2.
    + destruct (html_entity_chars c1 e1 He1) as [[-> ->]|[[-> ->]|[[-> ->]|[[-> ->]|[-> ->]]]]];
      destruct (html_entity_chars c2 e2 He2) as [[-> ->]|[[-> ->]|[[-> ->]|[[-> ->]|[-> ->]]]]];
      try discriminate; simpl in H; injection H as H; rewrite (IH _ H); reflexivity.
    + destruct (html_entity_chars c1 e1 He1) as [[_ ->]|[[_ ->]|[[_ ->]|[[_ ->]|[_ ->]]]]];
      simpl in H; injection H as <- _;
      destruct (html_entity_none_special _ He2) as [Hs Ha];
      first [exact (False_ind _ (Ha eq_refl)) | discriminate].
    + destruct (html_entity_chars c2 e2 He2) as [[_ ->]|[[_ ->]|[[_ ->]|[[_ ->]|[_ ->]]]]];
      simpl in H; injection H as -> _;
      destruct (html_entity_none_special _ He1) as [Hs Ha];
      first [exact (False_ind _ (Ha eq_refl)) | discriminate].
    + injection H as <- H. rewrite (IH _ H). reflexivity.
Qed.

(** X4: [escapeHtml] leaves no [<], [>], double quote or apostrophe in its output,
    and it loses nothing: two different texts never escape to the same HTML. *)
Theorem escapeHtml_safe_and_injective :
  (forall s, forallb (fun c => negb (html_special c)) (list_ascii_of_string (escapeHtml s)) = true) /\
  (forall s1 s2, escapeHtml s1 = escapeHtml s2 -> s1 = s2).
Proof. split; [exact escapeHtml_no_special|exact escapeHtml_inj]. Qed.

Lemma span_spec (p : ascii -> bool) (l : list ascii) :
  app (fst (span p l)) (snd (span p l)) = l /\ forallb p (fst (span p l)) = true /\
  (forall c t, snd (span p l) = c :: t -> p c = false).
Proof.
  induction l as [|c t IH]; simpl; [split; [reflexivity|split; [reflexivity|discriminate]]|].
  destruct (p c) eqn:Hc.
  - destruct (span p t) as [a b]. simpl in *. destruct IH as (H1 & H2 & H3).
    split; [rewrite H1; reflexivity|]. split; [rewrite Hc, H2; reflexivity|exact H3].
  - simpl. split; [reflexivity|]. split; [reflexivity|]. intros c' t' E. injection E as -> _.
    exact Hc.
Qed.

Lemma match_rest_none (ws rest : list ascii) : forall i,
  forallb (fun c => negb (is_line_terminator c)) rest = false -> match_rest i ws rest = None.
Proof.
  induction i as [|i IH]; intros H; [reflexivity|]. cbn [match_rest].
  rewrite forallb_app, H, andb_false_r, andb_false_r. apply IH, H.
Qed.

Lemma match_rest_full (ws rest g : list ascii) :
  rest <> [] -> match_rest (length ws) ws rest = Some g ->
  g = rest /\ forallb (fun c => negb (is_line_terminator c)) rest = true.
Proof.
  intros Hr. destruct (forallb (fun c => negb (is_line_terminator c)) rest) eqn:Hl.
  - destruct (length ws) eqn:Hw.
    + discriminate.
    + cbn [match_rest]. rewrite <- Hw, skipn_all. cbn [app].
      destruct rest as [|x r]; [contradiction|]. rewrite Hl. simpl.
      intros E. injection E as <-. auto.
  - rewrite match_rest_none by exact Hl. discriminate.
Qed.

Lemma string_of_list_app (a b : list ascii) :
  string_of_list_ascii (app a b) = string_of_list_ascii a ++ string_of_list_ascii b.
Proof. induction a as [|c a IH]; simpl; [reflexivity|rewrite IH; reflexivity]. Qed.

Lemma trim_list_last (l : list ascii) :
  trim_list l = [] \/ exists i c, trim_list l = app i [c] /\ is_ws c = false.
Proof.
  unfold trim_list. destruct (drop_ws_shape (rev (drop_ws l))) as [E|(c & t & E & Hc)].
  - left. rewrite E. reflexivity.
  - right. rewrite E. exists (rev t), c. auto.
Qed.

Lemma trim_list_id (l : list ascii) (c : ascii) (t i : list ascii) (d : ascii) :
  l = c :: t -> is_ws c = false -> l = app i [d] -> is_ws d = false -> trim_list l = l.
Proof.
  intros E1 Hc E2 Hd. unfold trim_list.
  assert (Hl : drop_ws l = l) by (rewrite E1; simpl; rewrite Hc; reflexivity).
  rewrite Hl, E2, rev_app_distr. simpl. rewrite Hd. simpl. rewrite rev_involutive.
  reflexivity.
Qed.

Lemma forallb_last {A} (f : A -> bool) (l : list A) (i : list A) (x : A) :
  forallb f l = true -> l = app i [x] -> f x = true.
Proof.
  intros H ->. rewrite forallb_app in H. apply andb_prop in H as [_ H]. simpl in H.
  rewrite andb_true_r in H. exact H.
Qed.

(** X5: [parseModelCommand] either leaves the message as it is, with no override,
    or recognises a command: the trimmed message is then the command, a run of
    whitespace and the returned content, the override is the table entry of
    the command in lower case, and the content is non-empty, trimmed and on a
    single line (a message whose text after the command has a line break gets
    no override). *)
Theorem parseModelCommand_spec (m : string) :
  (modelOverride (parseModelCommand m) = None -> pm_content (parseModelCommand m) = m) /\
  (forall mo, modelOverride (parseModelCommand m) = Some mo ->
     exists cmd ws,
       trim m = cmd ++ ws ++ pm_content (parseModelCommand m) /\
       lookup_command (toLowerCase cmd) MODEL_COMMANDS = Some mo /\
       ws <> "" /\ forallb is_ws (list_ascii_of_string ws) = true /\
       pm_content (parseModelCommand m) <> "" /\
       trim (pm_content (parseModelCommand m)) = pm_content (parseModelCommand m) /\
       forallb (fun c => negb (is_line_terminator c))
         (list_ascii_of_string (pm_content (parseModelCommand m))) = true).
Proof.
  unfold parseModelCommand.
  destruct (match_model_command (trim m)) as [[command rest]|] eqn:Hm;
    [|split; [reflexivity|discriminate]].
  destruct (lookup_command (toLowerCase command) MODEL_COMMANDS) as [mo|] eqn:Hl;
    [|split; [reflexivity|discriminate]].
  split; [discriminate|]. intros mo' E. injection E as <-. cbn [pm_content].
  unfold match_model_command in Hm.
  assert (Ht : list_ascii_of_string (trim m) = trim_list (list_ascii_of_string m))
    by (unfold trim; apply list_ascii_of_string_of_list_ascii).
  destruct (trim_list_last (list_ascii_of_string m)) as [E0|(i & d & Ei & Hd)];
    [rewrite Ht, E0 in Hm; discriminate|].
  rewrite <- Ht in Ei.
  remember (list_ascii_of_string (trim m)) as L eqn:HL.
  destruct L as [|c t]; [discriminate|].
  destruct (Ascii.eqb c "@"%char) eqn:Hc; [|discriminate].
  destruct (span_spec is_command_char t) as (Hs1 & _ & _).
  destruct (span is_command_char t) as [cmd r1] eqn:Hsp1. cbn [fst snd] in Hs1.
  destruct (span_spec is_ws r1) as (Hs2 & Hws & Hhd).
  destruct (span is_ws r1) as [ws r2] eqn:Hsp2. cbn [fst snd] in Hs2, Hws, Hhd.
  destruct cmd as [|c0 cmd']; [discriminate|]. destruct ws as [|w0 ws']; [discriminate|].
  destruct (match_rest (length (w0 :: ws')) (w0 :: ws') r2) as [g|] eqn:Hg; [|discriminate].
  injection Hm as <- <-.
  rename Ei into Ei0. assert (Ei := Ei0).
  assert (Hlt : list_ascii_of_string (trim m) = c :: t) by (symmetry; exact HL).
  assert (Hr2 : r2 <> []).
  { intros ->. rewrite <- Hs1, <- Hs2, app_nil_r in Ei.
    destruct (exists_last (l := w0 :: ws') ltac:(discriminate)) as (wi & wl & Ew).
    rewrite Ew, app_comm_cons, app_assoc in Ei. apply app_inj_tail in Ei as [_ <-].
    rewrite (forallb_last is_ws (w0 :: ws') wi wl Hws Ew) in Hd. discriminate. }
  destruct (match_rest_full _ _ _ Hr2 Hg) as [-> Hnl].
  destruct (exists_last Hr2) as (ri & rl & Er).
  assert (Hrl : is_ws rl = false).
  { rewrite <- Hs1, <- Hs2, Er in Ei.
    rewrite app_comm_cons, !app_assoc in Ei. apply app_inj_tail in Ei as [_ <-]. exact Hd. }
  destruct r2 as [|r0 r2'] eqn:E2; [contradiction|].
  assert (Htr : trim (string_of_list_ascii (r0 :: r2')) = string_of_list_ascii (r0 :: r2')).
  { unfold trim. rewrite list_ascii_of_string_of_list_ascii.
    rewrite (trim_list_id _ r0 r2' ri rl eq_refl (Hhd r0 r2' eq_refl) Er Hrl). reflexivity. }
  rewrite Htr.
  exists (string_of_list_ascii (c :: c0 :: cmd')), (string_of_list_ascii (w0 :: ws')).
  split; [|split; [exact Hl|split; [discriminate|split; [|split; [discriminate|split]]]]].
  - rewrite <- (string_of_list_ascii_of_string (trim m)), Hlt, <- Hs1, <- Hs2.
    rewrite app_comm_cons, string_of_list_app, string_of_list_app. reflexivity.
  - rewrite list_ascii_of_string_of_list_ascii. exact Hws.
  - exact Htr.
  - rewrite list_ascii_of_string_of_list_ascii. exact Hnl.
Qed.

Lemma toLowerCase_idem (s : string) : toLowerCase (toLowerCase s) = toLowerCase s.
Proof.
  unfold toLowerCase. rewrite list_ascii_of_string_of_list_ascii, map_map.
  f_equal. apply map_ext. apply lower_char_idem.
Qed.

Lemma lookup_command_in (k : string) (l : list (string * ModelOverride)) :
  (exists mo, lookup_command k l = Some mo) <-> In k (map fst l).
Proof.
  induction l as [|[k' v] t IH]; simpl.
  - split; [intros [mo H]; discriminate|contradiction].
  - destruct (String.eqb_spec k k') as [->|Hne].
    + split; [auto|]. intros _. eauto.
    + rewrite <- IH. split; [|intros [H|H]; [congruence|exact H]].
      intros H. right. exact H.
Qed.

(** X6: [isValidModelCommand] accepts the seven table commands in any letter
    case, and, through the [in] operator reading inherited properties, also
    [constructor] and [__proto__] (in any letter case); no other name. *)
Theorem isValidModelCommand_iff (command : string) :
  isValidModelCommand command = true <->
  In (toLowerCase command) (map fst MODEL_COMMANDS) \/
  toLowerCase command = "constructor" \/ toLowerCase command = "__proto__".
Proof.
  unfold isValidModelCommand.
  destruct (lookup_command (toLowerCase command) MODEL_COMMANDS) as [mo|] eqn:Hl.
  - split; [|reflexivity]. intros _. left. apply lookup_command_in. eauto.
  - assert (Hn : ~ In (toLowerCase command) (map fst MODEL_COMMANDS)).
    { rewrite <- lookup_command_in. intros [mo H]. congruence. }
    assert (Hidem := toLowerCase_idem command).
    remember (toLowerCase command) as k eqn:Hk. clear Hk Hl.
    split.
    + intros H. right. apply existsb_exists in H as (x & Hx & Heq).
      apply String.eqb_eq in Heq. subst x.
      simpl in Hx. repeat destruct Hx as [<-|Hx]; try contradiction; auto;
        vm_compute in Hidem; discriminate.
    + intros [H|[->| ->]]; [contradiction|reflexivity|reflexivity].
Qed.

Import FileUpload.

Fixpoint has_char (c : ascii) (s : string) : bool :=
  match s with
  | EmptyString => false
  | String d t => Ascii.eqb d c || has_char c t
  end.

Lemma has_char_app (c : ascii) (a b : string) :
  has_char c (a ++ b) = has_char c a || has_char c b.
Proof. induction a as [|d a IH]; simpl; [reflexivity|rewrite IH, orb_assoc; reflexivity]. Qed.

Lemma has_char_mid (c : ascii) (a b : string) : has_char c (a ++ String c b) = true.
Proof. rewrite has_char_app. simpl. rewrite Ascii.eqb_refl. apply orb_true_r. Qed.

(** The last occurrence of [c] splits a string containing it. *)
Lemma last_occurrence (c : ascii) (s : string) :
  has_char c s = false \/
  exists q r, s = q ++ String c r /\ has_char c r = false.
Proof.
  induction s as [|d t IH]; simpl; [now left|].
  destruct IH as [IH|(q & r & -> & Hr)].
  - destruct (Ascii.eqb_spec d c) as [->|Hne]; simpl.
    + right. exists "", t. auto.
    + left. exact IH.
  - right. exists (String d q), r. auto.
Qed.

Lemma last_occurrence_unique (c : ascii) (a b a' b' : string) :
  a ++ String c b = a' ++ String c b' -> has_char c b = false -> has_char c b' = false ->
  a = a' /\ b = b'.
Proof.
  revert a'. induction a as [|d a IH]; intros a' E Hb Hb'; destruct a' as [|d' a']; simpl in E.
  - injection E. auto.
  - injection E as -> E. subst b. rewrite has_char_mid in Hb. discriminate.
  - injection E as <- E. subst b'. rewrite has_char_mid in Hb'. discriminate.
  - injection E as -> E. destruct (IH a' E Hb Hb') as [-> ->]. auto.
Qed.

Lemma last_index_from_spec (c : ascii) (s : string) : forall i best,
  (has_char c s = false /\ last_index_from c i s best = best) \/
  exists q r, s = q ++ String c r /\ has_char c r = false /\
              last_index_from c i s best = Z.of_nat (i + String.length q).
Proof.
  induction s as [|d t IH]; intros i best; simpl; [now left|].
  destruct (IH (S i) (if Ascii.eqb d c then Z.of_nat i else best))
    as [[Ht Hg]|(q & r & -> & Hr & Hg)].
  - rewrite Hg, Ht. destruct (Ascii.eqb_spec d c) as [->|Hne]; simpl.
    + right. exists "", t. rewrite Nat.add_0_r. auto.
    + left. auto.
  - right. exists (String d q), r. rewrite Hg. simpl. repeat split; auto. f_equal. lia.
Qed.

Lemma substring_0_app (q r : string) : substring 0 (String.length q) (q ++ r) = q.
Proof. induction q as [|d q IH]; simpl; [destruct r; reflexivity|rewrite IH; reflexivity]. Qed.

Definition lf : ascii := ascii_of_nat 10.

(** X7: [truncateContent] leaves content of at most [maxLength] characters
    unchanged; a longer one is cut to its first [maxLength] characters and,
    when that cut has a line feed at an index above 0, further back to just
    before its last line feed, then the notice is appended. *)
Theorem truncateContent_spec (content : string) (maxLength : nat) :
  let '(c, wasTruncated) := truncateContent content maxLength in
  wasTruncated = (maxLength <? String.length content) /\
  (wasTruncated = false -> c = content) /\
  (wasTruncated = true ->
   exists kept rest,
     substring 0 maxLength content = kept ++ rest /\
     c = kept ++ nl ++ nl ++ "[Content truncated...]" /\
     ((rest = "" /\ forall a b, kept = a ++ String lf b -> a = "") \/
      (kept <> "" /\ exists r, rest = String lf r /\ has_char lf r = false))).
Proof.
  unfold truncateContent.
  destruct (String.length content <=? maxLength) eqn:Hle.
  - apply Nat.leb_le in Hle. split; [symmetry; apply Nat.ltb_ge; exact Hle|].
    split; [reflexivity|discriminate].
  - apply Nat.leb_gt in Hle. split; [symmetry; apply Nat.ltb_lt; exact Hle|].
    split; [discriminate|intros _].
    set (tr := substring 0 maxLength content).
    unfold lastIndexOf.
    destruct (last_index_from_spec (ascii_of_nat 10) tr 0 (-1)%Z)
      as [[Hn Hg]|(q & r & Hq & Hr & Hg)]; rewrite Hg.
    + simpl. exists tr, "". rewrite StreamFacts.string_app_empty_r.
      repeat split; auto. left. split; [reflexivity|].
      intros a b ->. rewrite has_char_mid in Hn. discriminate.
    + simpl in Hg |- *. destruct q as [|d q'] eqn:Eq.
      * simpl. exists tr, "". rewrite StreamFacts.string_app_empty_r.
        repeat split; auto. left. split; [reflexivity|].
        intros a b E. rewrite Hq in E. simpl in E.
        destruct a as [|d a]; [reflexivity|].
        simpl in E. injection E as <- E. subst r.
        assert (H := has_char_mid lf a b). unfold lf in *. simpl in *. congruence.
      * rewrite <- Eq. rewrite <- Eq in Hq.
        assert (Hpos : (0 < Z.of_nat (String.length q))%Z) by (subst q; simpl; lia).
        apply Z.ltb_lt in Hpos. rewrite Hpos, Nat2Z.id, Hq, substring_0_app.
        exists q, (String lf r). repeat split; auto.
        right. split; [subst q; discriminate|]. exists r. auto.
Qed.

Lemma toLowerCase_cons (c : ascii) (s : string) :
  toLowerCase (String c s) = String (lower_char c) (toLowerCase s).
Proof. reflexivity. Qed.

Lemma toLowerCase_app (a b : string) : toLowerCase (a ++ b) = toLowerCase a ++ toLowerCase b.
Proof.
  induction a as [|c a IH]; [reflexivity|].
  change (String c a ++ b) with (String c (a ++ b)).
  rewrite !toLowerCase_cons, IH. reflexivity.
Qed.

Lemma lower_char_dot (c : ascii) : Ascii.eqb (lower_char c) "." = Ascii.eqb c ".".
Proof. destruct c as [[] [] [] [] [] [] [] []]; reflexivity. Qed.

Lemma has_char_dot_lower (s : string) : has_char "." (toLowerCase s) = has_char "." s.
Proof.
  induction s as [|c s IH]; [reflexivity|].
  rewrite toLowerCase_cons. simpl. rewrite lower_char_dot, IH. reflexivity.
Qed.

Lemma split_char_nonempty (sep : ascii) (s : string) : split_char sep s <> [].
Proof.
  destruct s as [|c s]; simpl; [discriminate|].
  destruct (Ascii.eqb c sep); [discriminate|].
  destruct (split_char sep s); discriminate.
Qed.

Lemma split_char_app (sep : ascii) (a b : string) :
  split_char sep (a ++ String sep b) = app (split_char sep a) (split_char sep b).
Proof.
  induction a as [|c a IH]; simpl.
  - rewrite Ascii.eqb_refl. reflexivity.
  - rewrite IH. destruct (Ascii.eqb c sep); [reflexivity|].
    destruct (split_char sep a) eqn:E; [exfalso; exact (split_char_nonempty sep a E)|].
    reflexivity.
Qed.

Lemma split_char_none (sep : ascii) (s : string) :
  has_char sep s = false -> split_char sep s = [s].
Proof.
  induction s as [|c s IH]; simpl; [reflexivity|].
  intros H. apply orb_false_iff in H as [H1 H2]. rewrite H1, IH by exact H2. reflexivity.
Qed.

Lemma pop_snoc (l : list string) (x : string) : pop (app l [x]) = Some x.
Proof. unfold pop. rewrite rev_unit. reflexivity. Qed.

(** The extension is taken after the last dot, or is the whole name. *)
Lemma extension_of_last (q x : string) :
  has_char "." x = false ->
  extension_of (q ++ String "." x) = String "." (toLowerCase x).
Proof.
  intros Hx. unfold extension_of. rewrite split_char_app, (split_char_none _ x Hx), pop_snoc.
  reflexivity.
Qed.

Lemma extension_of_nodot (s : string) :
  has_char "." s = false -> extension_of s = String "." (toLowerCase s).
Proof.
  intros Hs. unfold extension_of. rewrite (split_char_none _ s Hs). reflexivity.
Qed.

Definition allowed_words : list string := ["pdf"; "xlsx"; "xls"; "csv"].

Lemma includes_In (l : list string) (x : string) : includes l x = true <-> In x l.
Proof.
  unfold includes. rewrite existsb_exists. split.
  - intros (y & Hy & E). apply String.eqb_eq in E. subst. exact Hy.
  - intros H. exists x. split; [exact H|apply String.eqb_refl].
Qed.

Lemma allowed_dot (y : string) :
  includes allowedExtensions (String "." y) = true <-> In y allowed_words.
Proof.
  rewrite includes_In. unfold allowedExtensions, allowed_words. simpl.
  split; intros H; repeat destruct H as [H|H]; try contradiction;
    try (injection H as <-); subst; auto 6.
Qed.

Lemma allowed_words_nodot (e : string) : In e allowed_words -> has_char "." e = false.
Proof. intros H. repeat destruct H as [<-|H]; try contradiction; reflexivity. Qed.

Lemma extension_allowed (name : string) :
  includes allowedExtensions (extension_of name) = true <->
  exists e, In e allowed_words /\
    (toLowerCase name = e \/ exists p, toLowerCase name = p ++ String "." e).
Proof.
  destruct (last_occurrence "." name) as [Hn|(q & x & -> & Hx)].
  - rewrite (extension_of_nodot _ Hn), allowed_dot. split.
    + intros H. exists (toLowerCase name). auto.
    + intros (e & He & [E|(p & E)]); [rewrite E; exact He|].
      exfalso. rewrite <- has_char_dot_lower, E, has_char_mid in Hn. discriminate.
  - rewrite (extension_of_last _ _ Hx), allowed_dot, toLowerCase_app, toLowerCase_cons.
    change (lower_char ".") with "."%char. split.
    + intros H. exists (toLowerCase x). split; [exact H|right; eauto].
    + intros (e & He & [E|(p & E)]).
      * exfalso. assert (Hd := allowed_words_nodot e He).
        rewrite <- E, has_char_mid in Hd. discriminate.
      * rewrite <- has_char_dot_lower in Hx.
        destruct (last_occurrence_unique _ _ _ _ _ E Hx (allowed_words_nodot e He)) as [_ ->].
        exact He.
Qed.

(** X8: [validateFile] accepts a file exactly when it has at most 5 MiB and
    its lower-cased name is one of [pdf], [xlsx], [xls], [csv] or ends with a
    dot followed by one of them: the extension is what follows the last dot,
    and a name without a dot is taken whole. *)
Theorem validateFile_accepts (formatFileSize : Z -> string) (file : File) :
  valid (validateFile formatFileSize file) = true <->
  (file_size file <= 5 * 1024 * 1024)%Z /\
  exists e, In e ["pdf"; "xlsx"; "xls"; "csv"] /\
    (toLowerCase (file_name file) = e \/
     exists p, toLowerCase (file_name file) = p ++ "." ++ e).
Proof.
  unfold validateFile.
  destruct (maxFileSize <? file_size file)%Z eqn:Hs.
  - apply Z.ltb_lt in Hs. unfold maxFileSize in Hs. simpl. split; [discriminate|lia].
  - apply Z.ltb_ge in Hs. unfold maxFileSize in Hs.
    change (["pdf"; "xlsx"; "xls"; "csv"]) with allowed_words.
    assert (Hx := extension_allowed (file_name file)).
    destruct (includes allowedExtensions (extension_of (file_name file))); simpl;
      split; intros H.
    + split; [exact Hs|apply Hx; reflexivity].
    + reflexivity.
    + discriminate.
    + destruct H as [_ H]. apply Hx in H. discriminate.
Qed.

(** X9: for a file [validateFile] accepts, [getFileType] follows the
    extension: [pdf] for [.pdf], [csv] for [.csv], and [excel] exactly for
    [.xlsx] and [.xls]. *)
Theorem getFileType_of_valid (formatFileSize : Z -> string) (file : File)
    (H : valid (validateFile formatFileSize file) = true) :
  (getFileType file = pdf <-> extension_of (file_name file) = ".pdf") /\
  (getFileType file = csv <-> extension_of (file_name file) = ".csv") /\
  (getFileType file = excel <->
     extension_of (file_name file) = ".xlsx" \/ extension_of (file_name file) = ".xls").
Proof.
  unfold validateFile in H.
  destruct (maxFileSize <? file_size file)%Z; [discriminate|].
  destruct (includes allowedExtensions (extension_of (file_name file))) eqn:Hi;
    [|discriminate]. clear H.
  unfold getFileType. unfold extension_of in Hi |- *.
  destruct (pop (split_char "." (file_name file))) as [x|]; [|discriminate].
  simpl option_map. apply allowed_dot in Hi.
  repeat destruct Hi as [Hi|Hi]; try contradiction; rewrite <- Hi;
    repeat split; intros; try reflexivity; try discriminate;
    repeat match goal with H : _ \/ _ |- _ => destruct H end; try discriminate; auto.
Qed.

Lemma getFileType_of_valid_witness :
  valid (validateFile (fun _ => "") (mkFile "Budget.XLS" 1000)) = true /\
  getFileType (mkFile "Budget.XLS" 1000) = excel.
Proof.
  split; [reflexivity|].
  apply (getFileType_of_valid (fun _ => "") (mkFile "Budget.XLS" 1000)); [reflexivity|].
  right. reflexivity.
Defined.

Lemma first_invalid_none (fmt : Z -> string) (files : list File) :
  first_invalid fmt files = None <-> Forall (fun f => valid (validateFile fmt f) = true) files.
Proof.
  induction files as [|f t IH]; simpl; [split; auto|].
  destruct (valid (validateFile fmt f)) eqn:E; simpl.
  - rewrite IH. split; [auto|]. intros H. inversion H. assumption.
  - split; [discriminate|]. intros H. inversion H. congruence.
Qed.

Lemma first_invalid_app (fmt : Z -> string) (pre post : list File) (f : File) :
  Forall (fun f => valid (validateFile fmt f) = true) pre ->
  valid (validateFile fmt f) = false ->
  first_invalid fmt (app pre (f :: post)) = Some (validateFile fmt f).
Proof.
  intros Hpre Hf. induction Hpre as [|g t Hg _ IH]; simpl.
  - rewrite Hf. reflexivity.
  - rewrite Hg. exact IH.
Qed.

Lemma first_invalid_some (fmt : Z -> string) (files : list File) (v : ValidationResult) :
  first_invalid fmt files = Some v -> valid v = false.
Proof.
  induction files as [|f t IH]; simpl; [discriminate|].
  destruct (valid (validateFile fmt f)) eqn:E; simpl; [exact IH|].
  intros H. injection H as <-. exact E.
Qed.

(** X10: [validateFiles] accepts exactly when there are at most 3 files in
    all, every new file passes [validateFile], and the sizes of the new and
    existing files add up to at most 10 MiB; within the count limit, the
    answer for a rejected new file is the [validateFile] result of the first
    rejected one. *)
Theorem validateFiles_spec (fmt : Z -> string) (files : list File)
    (existingFiles : list FileAttachment) :
  (valid (validateFiles fmt files existingFiles) = true <->
   length files + length existingFiles <= 3 /\
   Forall (fun f => valid (validateFile fmt f) = true) files /\
   (sum_sizes file_size files + sum_sizes fa_size existingFiles <= 10 * 1024 * 1024)%Z) /\
  (forall pre f post,
     length (app pre (f :: post)) + length existingFiles <= 3 ->
     Forall (fun g => valid (validateFile fmt g) = true) pre ->
     valid (validateFile fmt f) = false ->
     validateFiles fmt (app pre (f :: post)) existingFiles = validateFile fmt f).
Proof.
  split.
  - unfold validateFiles, maxFiles, maxTotalSize.
    destruct (3 <? length files + length existingFiles) eqn:Hc.
    + apply Nat.ltb_lt in Hc. simpl. split; [discriminate|lia].
    + apply Nat.ltb_ge in Hc.
      destruct (first_invalid fmt files) as [v|] eqn:Hf.
      * assert (Hv := first_invalid_some _ _ _ Hf). rewrite Hv.
        split; [discriminate|]. intros (_ & Hall & _).
        apply first_invalid_none in Hall. congruence.
      * apply first_invalid_none in Hf.
        destruct (10 * 1024 * 1024 <? _)%Z eqn:Ht; simpl.
        -- apply Z.ltb_lt in Ht. split; [discriminate|lia].
        -- apply Z.ltb_ge in Ht. split; auto.
  - intros pre f post Hc Hpre Hf. unfold validateFiles, maxFiles.
    destruct (3 <? _) eqn:E; [apply Nat.ltb_lt in E; lia|].
    rewrite (first_invalid_app _ _ _ _ Hpre Hf). reflexivity.
Qed.

Import LocalStorage StorageUtil.

Lemma getItem_setItem (st : store) (k v k' : string) :
  getItem (setItem st k v) k' = if String.eqb k' k then Some v else getItem st k'.
Proof.
  induction st as [|[k0 v0] t IH]; simpl.
  - destruct (String.eqb k' k); reflexivity.
  - destruct (String.eqb_spec k k0) as [->|Hne]; simpl.
    + destruct (String.eqb k' k0); reflexivity.
    + rewrite IH. destruct (String.eqb_spec k' k) as [E|Hne']; [subst k'|reflexivity].
      apply String.eqb_neq in Hne. rewrite Hne. reflexivity.
Qed.

Lemma getItem_removeItem (st : store) (k k' : string) :
  getItem (removeItem st k) k' = if String.eqb k' k then None else getItem st k'.
Proof.
  induction st as [|[k0 v0] t IH]; simpl.
  - destruct (String.eqb k' k); reflexivity.
  - destruct (String.eqb_spec k k0) as [->|Hne]; simpl.
    + rewrite IH. destruct (String.eqb k' k0); reflexivity.
    + rewrite IH. destruct (String.eqb_spec k' k) as [E|Hne']; [subst k'|reflexivity].
      apply String.eqb_neq in Hne. rewrite Hne. reflexivity.
Qed.

Lemma in_stored_removeItem (st : store) (k k' : string) :
  In k' (map fst (removeItem st k)) <-> In k' (map fst st) /\ k' <> k.
Proof.
  induction st as [|[k0 v0] t IH]; simpl; [tauto|].
  destruct (String.eqb_spec k k0) as [->|Hne]; simpl; rewrite IH;
    split; intuition congruence.
Qed.

Lemma in_Object_keys (st : store) (k : string) :
  In k (Object_keys st) <-> In k (map fst st) /\ shadowed k = false.
Proof.
  unfold Object_keys. rewrite filter_In.
  destruct (shadowed k); simpl; intuition discriminate.
Qed.

Lemma in_keys_removeItem (st : store) (k k' : string) :
  In k' (Object_keys (removeItem st k)) <-> In k' (Object_keys st) /\ k' <> k.
Proof. rewrite !in_Object_keys, in_stored_removeItem. tauto. Qed.

Lemma getItem_in (st : store) (k : string) :
  (exists v, getItem st k = Some v) <-> In k (map fst st).
Proof.
  induction st as [|[k0 v0] t IH]; simpl.
  - split; [intros [v H]; discriminate|contradiction].
  - destruct (String.eqb_spec k k0) as [->|Hne].
    + split; eauto.
    + rewrite IH. intuition congruence.
Qed.

Lemma default_prefix_not_shadowed (k : string) : shadowed (default_prefix ++ k) = false.
Proof. reflexivity. Qed.

Lemma string_app_cancel_l (p a b : string) : p ++ a = p ++ b -> a = b.
Proof. induction p as [|c p IH]; simpl; [auto|]. intros H. injection H. auto. Qed.

Lemma string_length_app (a b : string) : String.length (a ++ b) = String.length a + String.length b.
Proof. induction a as [|c a IH]; simpl; auto. Qed.

Lemma startsWith_app (key prefix : string) :
  startsWith key prefix = true <-> exists k, key = prefix ++ k.
Proof.
  unfold startsWith. revert key. induction prefix as [|c p IH]; intros key.
  - split; [intros _; exists key; reflexivity|intros _; destruct key; reflexivity].
  - destruct key as [|d key]; simpl.
    + split; [discriminate|intros [k H]; discriminate].
    + destruct (Ascii.ascii_dec c d) as [->|Hne].
      * rewrite IH. split; intros [k H]; exists k; [rewrite H|injection H]; auto.
      * split; [discriminate|intros [k H]; injection H; congruence].
Qed.

Lemma substring_0_length (s : string) : substring 0 (String.length s) s = s.
Proof. induction s as [|c s IH]; simpl; [reflexivity|rewrite IH; reflexivity]. Qed.

Lemma slice_app (prefix k : string) : slice (prefix ++ k) (String.length prefix) = k.
Proof.
  unfold slice. rewrite string_length_app.
  replace (String.length prefix + String.length k - String.length prefix)
    with (String.length k) by lia.
  induction prefix as [|c p IH]; simpl; [apply substring_0_length|exact IH].
Qed.

(** X11: [Storage.set] either reports [false] and leaves [localStorage] as it
    was, or reports [true]; then [get] of the key yields [JSON.parse] of the
    text [JSON.stringify] produced, [has] of the key holds, and every other
    key reads as before. *)
Theorem Storage_set_get {T} (stringify : T -> option string) (parse : string -> option T)
    (room : store -> string -> string -> bool) (prefix key : string) (value : T) (st : store) :
  let '(ok, st') := set stringify room prefix key value st in
  (ok = false -> st' = st) /\
  (ok = true ->
   (exists s, stringify value = Some s /\ get parse prefix key st' = parse s) /\
   has prefix key st' = true /\
   forall key', key' <> key -> get parse prefix key' st' = get parse prefix key' st).
Proof.
  unfold set. destruct (stringify value) as [s|]; [|split; [auto|discriminate]].
  destruct (room st (prefix ++ key) s); [|split; [auto|discriminate]].
  split; [discriminate|intros _].
  unfold get, has. rewrite !getItem_setItem, String.eqb_refl.
  split; [eauto|split; [reflexivity|]].
  intros key' Hne. rewrite getItem_setItem.
  destruct (String.eqb_spec (prefix ++ key') (prefix ++ key)) as [E|_];
    [apply string_app_cancel_l in E; contradiction|reflexivity].
Qed.

(** X12: [Storage.keys()] lists exactly the keys for which [Storage.has]
    holds, with the prefix removed, except those whose prefixed name is the
    name of a property of [Storage.prototype] or [Object.prototype], which
    [Object.keys(localStorage)] does not list; under the default prefix
    [chatbot_flows_] no key is hidden, and [keys()] lists exactly the keys for
    which [has] holds. *)
Theorem Storage_keys_has (st : store) :
  (forall prefix k,
     In k (keys prefix st) <-> has prefix k st = true /\ shadowed (prefix ++ k) = false) /\
  (forall k, In k (keys default_prefix st) <-> has default_prefix k st = true).
Proof.
  assert (Hgen : forall prefix k,
     In k (keys prefix st) <-> has prefix k st = true /\ shadowed (prefix ++ k) = false).
  { intros prefix k. unfold keys, has. rewrite in_map_iff.
    assert (Hin := getItem_in st (prefix ++ k)).
    split.
    - intros (key & Hk & Hf). apply filter_In in Hf as [Hf Hs].
      apply startsWith_app in Hs as [k' ->]. rewrite slice_app in Hk. subst k'.
      apply in_Object_keys in Hf as [Hf Hsh].
      apply Hin in Hf as [v ->]. split; [reflexivity|exact Hsh].
    - intros [H Hsh]. destruct (getItem st (prefix ++ k)) as [v|] eqn:E; [|discriminate].
      exists (prefix ++ k). split; [apply slice_app|].
      apply filter_In. split; [apply in_Object_keys; split; [apply Hin; eauto|exact Hsh]|].
      apply startsWith_app; eauto. }
  split; [exact Hgen|].
  intros k. rewrite Hgen, default_prefix_not_shadowed. tauto.
Qed.

Definition clear_step (prefix : string) (st : store) (key : string) : store :=
  if startsWith key prefix then removeItem st key else st.

Lemma clear_fold_keys (prefix : string) (ks : list string) : forall st k,
  In k (Object_keys (fold_left (clear_step prefix) ks st)) <->
  In k (Object_keys st) /\ ~ (startsWith k prefix = true /\ In k ks).
Proof.
  induction ks as [|key ks IH]; intros st k; simpl; [tauto|].
  rewrite IH. unfold clear_step.
  destruct (String.eqb_spec k key) as [->|Hne].
  - destruct (startsWith key prefix) eqn:Hs; [rewrite in_keys_removeItem|];
      rewrite ?Hs; intuition (auto || discriminate).
  - assert (Hne' : key <> k) by congruence.
    destruct (startsWith key prefix) eqn:Hs; [rewrite in_keys_removeItem|];
      intuition auto.
Qed.

Lemma clear_fold_get (prefix : string) (ks : list string) : forall st k,
  startsWith k prefix = false ->
  getItem (fold_left (clear_step prefix) ks st) k = getItem st k.
Proof.
  induction ks as [|key ks IH]; intros st k Hk; simpl; [reflexivity|].
  rewrite IH by exact Hk. unfold clear_step.
  destruct (startsWith key prefix) eqn:Hs; [|reflexivity].
  rewrite getItem_removeItem. destruct (String.eqb_spec k key); [congruence|reflexivity].
Qed.

(** X13: after [Storage.clear()], [keys()] is empty, and every item whose key
    does not start with the prefix is still there with its value. *)
Theorem Storage_clear (prefix : string) (st : store) :
  keys prefix (clear prefix st) = [] /\
  forall k, startsWith k prefix = false -> getItem (clear prefix st) k = getItem st k.
Proof.
  split.
  - unfold keys. replace (filter _ _) with (@nil string); [reflexivity|].
    remember (Object_keys (clear prefix st)) as l eqn:Hl.
    assert (Hall : forall k, In k l -> startsWith k prefix = false).
    { intros k Hk. subst l. unfold clear in Hk.
      change (fun st key => if startsWith key prefix then removeItem st key else st)
        with (clear_step prefix) in Hk.
      apply clear_fold_keys in Hk as [Hk Hn].
      destruct (startsWith k prefix); [exfalso; apply Hn; auto|reflexivity]. }
    clear Hl. induction l as [|k l IH]; simpl; [reflexivity|].
    rewrite (Hall k (or_introl eq_refl)). apply IH. intros k' H. apply Hall. right. exact H.
  - intros k Hk. unfold clear.
    change (fun st key => if startsWith key prefix then removeItem st key else st)
      with (clear_step prefix).
    apply clear_fold_get. exact Hk.
Qed.

Import FlowStorage.

Lemma getAllFlows_store_flows (sfs : list SavedFlow -> option string)
    (pfs : string -> option (list SavedFlow)) (room : store -> string -> string -> bool)
    (flows : list SavedFlow) (st : store) (s : string) :
  sfs flows = Some s -> room st (default_prefix ++ FLOWS_KEY) s = true ->
  pfs s = Some flows -> getAllFlows pfs (store_flows sfs room flows st) = flows.
Proof.
  intros Hs Hr Hp. unfold store_flows, set. rewrite Hs, Hr. simpl.
  unfold getAllFlows, get. rewrite getItem_setItem, String.eqb_refl, Hp. reflexivity.
Qed.

Lemma filter_length_eq {A} (p : A -> bool) (l : list A) :
  length (filter p l) = length l -> forallb p l = true.
Proof.
  induction l as [|x t IH]; simpl; [auto|].
  destruct (p x); simpl; intros H.
  - apply IH. lia.
  - assert (Hle := filter_length_le p t). lia.
Qed.

Lemma forallb_filter_length {A} (p : A -> bool) (l : list A) :
  forallb p l = true -> length (filter p l) = length l.
Proof.
  induction l as [|x t IH]; simpl; [auto|].
  intros H. apply andb_true_iff in H as [H1 H2]. rewrite H1. simpl. rewrite IH; auto.
Qed.

Lemma forallb_negb_existsb {A} (p : A -> bool) (l : list A) :
  forallb (fun x => negb (p x)) l = negb (existsb p l).
Proof. induction l as [|x t IH]; simpl; [auto|]. rewrite IH. destruct (p x); reflexivity. Qed.

Lemma find_filter_negb {A} (p : A -> bool) (l : list A) :
  find p (filter (fun x => negb (p x)) l) = None.
Proof.
  induction l as [|x t IH]; simpl; [auto|].
  destruct (p x) eqn:E; simpl; [exact IH|rewrite E; exact IH].
Qed.

(** X14: [deleteFlow(id)] answers [true] exactly when a stored flow has that
    id; when it answers [false] it writes nothing, and once the filtered
    list is written, that list is what [getAllFlows] reads and [getFlow(id)]
    is [null]. *)
Theorem deleteFlow_spec (sfs : list SavedFlow -> option string)
    (pfs : string -> option (list SavedFlow)) (room : store -> string -> string -> bool)
    (id : string) (st : store) :
  let remaining := filter (fun f => negb (has_id id f)) (getAllFlows pfs st) in
  let '(deleted, st') := deleteFlow sfs pfs room id st in
  deleted = existsb (has_id id) (getAllFlows pfs st) /\
  (deleted = false -> st' = st) /\
  (deleted = true ->
   forall s, sfs remaining = Some s -> room st (default_prefix ++ FLOWS_KEY) s = true ->
   pfs s = Some remaining ->
   getAllFlows pfs st' = remaining /\ getFlow pfs id st' = None).
Proof.
  cbv zeta. unfold deleteFlow.
  set (flows := getAllFlows pfs st).
  destruct (length (filter (fun flow => negb (has_id id flow)) flows) =? length flows) eqn:E.
  - apply Nat.eqb_eq, filter_length_eq in E.
    rewrite forallb_negb_existsb in E. apply negb_true_iff in E.
    split; [symmetry; exact E|split; [auto|discriminate]].
  - assert (Hx : existsb (has_id id) flows = true).
    { destruct (existsb (has_id id) flows) eqn:Ex; [reflexivity|].
      exfalso. assert (Hf : forallb (fun x => negb (has_id id x)) flows = true)
        by (rewrite forallb_negb_existsb, Ex; reflexivity).
      apply forallb_filter_length in Hf. apply Nat.eqb_neq in E. contradiction. }
    split; [symmetry; exact Hx|split; [discriminate|]].
    intros _ s Hs Hr Hp.
    assert (Hall := getAllFlows_store_flows _ _ _ _ st s Hs Hr Hp).
    split; [exact Hall|]. unfold getFlow. rewrite Hall. apply find_filter_negb.
Qed.

Lemma find_app_none {A} (p : A -> bool) (l : list A) (x : A) :
  (forall y, In y l -> p y = false) -> p x = true -> find p (app l [x]) = Some x.
Proof.
  intros H Hx. induction l as [|y t IH]; simpl; [rewrite Hx; reflexivity|].
  rewrite (H y (or_introl eq_refl)). apply IH. intros z Hz. apply H. right. exact Hz.
Qed.

(** X15: the flow [saveFlow] returns has the generated id; once the extended
    list is written, [getAllFlows] reads the old flows followed by it, and
    [getFlow] of a fresh id finds it. *)
Theorem saveFlow_getFlow (sfs : list SavedFlow -> option string)
    (pfs : string -> option (list SavedFlow)) (room : store -> string -> string -> bool)
    (newId : string) (created updated : Z) (flow : NewFlow) (st : store) :
  let '(f, st') := saveFlow sfs pfs room newId created updated flow st in
  sf_id f = newId /\
  forall s, sfs (app (getAllFlows pfs st) [f]) = Some s ->
  room st (default_prefix ++ FLOWS_KEY) s = true ->
  pfs s = Some (app (getAllFlows pfs st) [f]) ->
  getAllFlows pfs st' = app (getAllFlows pfs st) [f] /\
  (~ In newId (map sf_id (getAllFlows pfs st)) -> getFlow pfs newId st' = Some f).
Proof.
  unfold saveFlow. split; [reflexivity|].
  intros s Hs Hr Hp.
  assert (Hall := getAllFlows_store_flows _ _ _ _ st s Hs Hr Hp).
  split; [exact Hall|]. intros Hn. unfold getFlow. rewrite Hall.
  apply find_app_none.
  - intros y Hy. unfold has_id. apply String.eqb_neq. intros E. apply Hn.
    rewrite <- E. apply in_map. exact Hy.
  - unfold has_id. apply String.eqb_refl.
Qed.

Lemma findIndex_find {A} (p : A -> bool) (l : list A) :
  match findIndex p l with
  | None => find p l = None
  | Some i => exists x, nth_error l i = Some x /\ find p l = Some x /\
              forall y, p y = true -> find p (replace_at i y l) = Some y
  end.
Proof.
  induction l as [|x t IH]; simpl; [reflexivity|].
  destruct (p x) eqn:E.
  - exists x. split; [reflexivity|split; [reflexivity|]].
    intros y Hy. simpl. rewrite Hy. reflexivity.
  - destruct (findIndex p t) as [i|]; simpl; [|exact IH].
    destruct IH as (y & H1 & H2 & H3). exists y. split; [exact H1|split; [exact H2|]].
    intros z Hz. simpl. rewrite E. apply H3. exact Hz.
Qed.

(** X16: [updateFlow(id, ...)] returns [null] and writes nothing exactly when
    [getFlow(id)] is [null]; otherwise it returns the first flow with that
    id, updated, with its id and [createdAt] kept and [updatedAt] set to the
    current time; with a faithful JSON round trip and a successful write,
    [getFlow(id)] then reads the returned flow. *)
Theorem updateFlow_spec (sfs : list SavedFlow -> option string)
    (pfs : string -> option (list SavedFlow)) (room : store -> string -> string -> bool)
    (id : string) (updates : FlowUpdates) (now : Z) (st : store) :
  let '(r, st') := updateFlow sfs pfs room id updates now st in
  (r = None <-> getFlow pfs id st = None) /\
  (r = None -> st' = st) /\
  (forall f, r = Some f ->
   exists old, getFlow pfs id st = Some old /\ f = apply_updates old updates now /\
     sf_id f = id /\ sf_createdAt f = sf_createdAt old /\ sf_updatedAt f = now /\
     ((forall l, exists s, sfs l = Some s /\ pfs s = Some l) ->
      (forall k s, room st k s = true) -> getFlow pfs id st' = Some f)).
Proof.
  unfold updateFlow, getFlow.
  assert (H := findIndex_find (has_id id) (getAllFlows pfs st)).
  destruct (findIndex (has_id id) (getAllFlows pfs st)) as [i|].
  - destruct H as (old & Hn & Hf & Hr). rewrite Hn, Hf.
    split; [split; discriminate|split; [discriminate|]].
    intros f Hsome. injection Hsome as <-.
    exists old. split; [reflexivity|split; [reflexivity|]].
    assert (Hid : has_id id old = true) by (apply find_some in Hf; apply Hf).
    unfold has_id in Hid. apply String.eqb_eq in Hid.
    split; [exact Hid|split; [reflexivity|split; [reflexivity|]]].
    intros Hrt Hroom.
    destruct (Hrt (replace_at i (apply_updates old updates now) (getAllFlows pfs st)))
      as (s & Hs & Hp).
    rewrite (getAllFlows_store_flows _ _ _ _ st s Hs (Hroom _ _) Hp).
    apply Hr. unfold has_id. simpl. apply String.eqb_eq. exact Hid.
  - split; [split; auto|split; [auto|discriminate]].
Qed.

(** [JSON.parse(JSON.stringify(flow))] read as a [Partial<SavedFlow>]. *)
Definition partial_of (f : SavedFlow) : PartialFlow :=
  mkPartialFlow (Some (sf_id f)) (Some (sf_name f)) (Some (sf_description f))
    (sf_initialInput f) (Some (sf_createdAt f)) (Some (sf_updatedAt f)).

(** X17: [exportFlow(id)] is [null] exactly when [getFlow(id)] is; importing
    the exported text (read back as the same fields) saves a copy under a new
    id and new timestamps when the flow's name and description are both
    non-empty, and is rejected with [null] otherwise. *)
Theorem exportFlow_importFlow (sfs : list SavedFlow -> option string)
    (pfs : string -> option (list SavedFlow)) (room : store -> string -> string -> bool)
    (sflow : SavedFlow -> string) (ppartial : string -> option PartialFlow)
    (id newId : string) (created updated : Z) (st : store) :
  match exportFlow pfs sflow id st with
  | None => getFlow pfs id st = None
  | Some json =>
      exists f, getFlow pfs id st = Some f /\ json = sflow f /\
      (ppartial json = Some (partial_of f) ->
       fst (importFlow sfs pfs room ppartial json newId created updated st) =
       if negb (String.eqb (sf_name f) "") && negb (String.eqb (sf_description f) "")
       then Some (mkSavedFlow newId (sf_name f) (sf_description f) (sf_initialInput f)
                    created updated)
       else None)
  end.
Proof.
  unfold exportFlow. destruct (getFlow pfs id st) as [f|]; [|reflexivity].
  exists f. split; [reflexivity|split; [reflexivity|]].
  intros Hp. unfold importFlow. rewrite Hp. simpl.
  destruct (negb (String.eqb (sf_name f) "") && negb (String.eqb (sf_description f) ""));
    reflexivity.
Qed.

(** X18: what [saveFlow], [updateFlow], [deleteFlow] and [importFlow] return
    does not depend on whether [JSON.stringify] or [localStorage.setItem]
    succeeds: a failed write is never reported to the caller. *)
Theorem FlowStorage_results_ignore_write_failures
    (sfs1 sfs2 : list SavedFlow -> option string) (pfs : string -> option (list SavedFlow))
    (room1 room2 : store -> string -> string -> bool) (ppartial : string -> option PartialFlow)
    (st : store) :
  (forall newId created updated flow,
     fst (saveFlow sfs1 pfs room1 newId created updated flow st) =
     fst (saveFlow sfs2 pfs room2 newId created updated flow st)) /\
  (forall id updates now,
     fst (updateFlow sfs1 pfs room1 id updates now st) =
     fst (updateFlow sfs2 pfs room2 id updates now st)) /\
  (forall id,
     fst (deleteFlow sfs1 pfs room1 id st) = fst (deleteFlow sfs2 pfs room2 id st)) /\
  (forall json newId created updated,
     fst (importFlow sfs1 pfs room1 ppartial json newId created updated st) =
     fst (importFlow sfs2 pfs room2 ppartial json newId created updated st)).
Proof.
  split; [reflexivity|split; [|split]].
  - intros id updates now. unfold updateFlow.
    destruct (findIndex _ _) as [i|]; [|reflexivity].
    destruct (nth_error _ i); reflexivity.
  - intros id. unfold deleteFlow. destruct (_ =? _); reflexivity.
  - intros json newId created updated. unfold importFlow.
    destruct (ppartial json) as [data|]; [|reflexivity].
    destruct (_ && _); reflexivity.
Qed.

Import CsvTable TrimFacts.

Lemma string_app_assoc (a b c : string) : (a ++ b) ++ c = a ++ (b ++ c).
Proof. induction a as [|x a IH]; simpl; [reflexivity|rewrite IH; reflexivity]. Qed.

Lemma list_ascii_of_string_app (a b : string) :
  list_ascii_of_string (a ++ b) = app (list_ascii_of_string a) (list_ascii_of_string b).
Proof. induction a as [|x a IH]; simpl; [reflexivity|rewrite IH; reflexivity]. Qed.

Lemma has_char_list (c : ascii) (s : string) :
  has_char c s = existsb (fun d => Ascii.eqb d c) (list_ascii_of_string s).
Proof. induction s as [|d s IH]; simpl; [reflexivity|rewrite IH; reflexivity]. Qed.

Lemma drop_ws_idem (l : list ascii) : drop_ws (drop_ws l) = drop_ws l.
Proof.
  induction l as [|c t IH]; simpl; [reflexivity|].
  destruct (is_ws c) eqn:E; [exact IH|simpl; rewrite E; reflexivity].
Qed.

Lemma drop_ws_snoc (l : list ascii) (x : ascii) :
  is_ws x = false -> drop_ws (app l [x]) = app (drop_ws l) [x].
Proof.
  intros Hx. induction l as [|c t IH]; simpl; [rewrite Hx; reflexivity|].
  destruct (is_ws c); [exact IH|reflexivity].
Qed.

Lemma trim_list_idem (l : list ascii) : trim_list (trim_list l) = trim_list l.
Proof.
  unfold trim_list. destruct (drop_ws l) as [|c t] eqn:E.
  - reflexivity.
  - assert (Hc : is_ws c = false).
    { clear - E. revert E. induction l as [|d u IH]; intros E; [discriminate|].
      simpl in E. destruct (is_ws d) eqn:Ed; [exact (IH E)|injection E as <- _; exact Ed]. }
    simpl. rewrite (drop_ws_snoc _ _ Hc), rev_app_distr. simpl. rewrite Hc.
    rewrite <- rev_unit, rev_involutive, <- (drop_ws_snoc _ _ Hc), drop_ws_idem.
    reflexivity.
Qed.

Lemma trim_idem (s : string) : trim (trim s) = trim s.
Proof.
  unfold trim. rewrite list_ascii_of_string_of_list_ascii, trim_list_idem. reflexivity.
Qed.

Lemma in_drop_ws (x : ascii) (l : list ascii) : In x (drop_ws l) -> In x l.
Proof.
  induction l as [|c t IH]; simpl; [auto|]. destruct (is_ws c); simpl; intuition.
Qed.

Lemma has_char_trim (c : ascii) (s : string) :
  has_char c s = false -> has_char c (trim s) = false.
Proof.
  rewrite !has_char_list. unfold trim. rewrite list_ascii_of_string_of_list_ascii.
  intros H. apply not_true_iff_false. intros Hx. apply existsb_exists in Hx as (x & Hx & E).
  unfold trim_list in Hx. apply in_rev, in_drop_ws, in_rev, in_drop_ws in Hx.
  assert (existsb (fun d => Ascii.eqb d c) (list_ascii_of_string s) = true)
    by (apply existsb_exists; eauto). congruence.
Qed.

(** Characters without special meaning at the current quoting state go to
    [current]. *)
Lemma parse_csv_plain (f : string) : forall rest current inQuotes result,
  has_char dq_char f = false -> (inQuotes = true \/ has_char "," f = false) ->
  parse_csv_chars (app (list_ascii_of_string f) rest) current inQuotes result =
  parse_csv_chars rest (current ++ f) inQuotes result.
Proof.
  induction f as [|c f IH]; intros rest current inQuotes result Hq Hc; simpl.
  - rewrite StreamFacts.string_app_empty_r. reflexivity.
  - simpl in Hq. apply orb_false_iff in Hq as [Hq1 Hq2]. rewrite Hq1.
    assert (Hb : Ascii.eqb c "," && negb inQuotes = false).
    { destruct Hc as [-> | Hc]; [apply andb_false_r|].
      simpl in Hc. apply orb_false_iff in Hc as [Hc _]. rewrite Hc. reflexivity. }
    assert (Hc' : inQuotes = true \/ has_char "," f = false).
    { destruct Hc as [Hc|Hc]; [auto|]. simpl in Hc. apply orb_false_iff in Hc as [_ Hc]. auto. }
    rewrite Hb, (IH rest _ _ _ Hq2 Hc'), string_app_assoc. reflexivity.
Qed.

Section Fields.
(** An encoding of one field that [parseCSVLine] reads back unquoted. *)
Variable enc : string -> string.
Variable ok : string -> Prop.
Hypothesis enc_read : forall f rest current result, ok f ->
  parse_csv_chars (app (list_ascii_of_string (enc f)) rest) current false result =
  parse_csv_chars rest (current ++ f) false result.

Lemma parse_csv_concat (fs : list string) : forall f result,
  Forall ok (f :: fs) ->
  parse_csv_chars (list_ascii_of_string (String.concat "," (map enc (f :: fs)))) "" false result =
  app result (map trim (f :: fs)).
Proof.
  induction fs as [|g gs IH]; intros f result Hok; inversion Hok as [|? ? Hf Hrest]; subst.
  - simpl. rewrite <- (app_nil_r (list_ascii_of_string (enc f))), enc_read by exact Hf.
    reflexivity.
  - change (String.concat "," (map enc (f :: g :: gs)))
      with (enc f ++ "," ++ String.concat "," (map enc (g :: gs))).
    rewrite list_ascii_of_string_app, enc_read by exact Hf.
    change (list_ascii_of_string ("," ++ String.concat "," (map enc (g :: gs))))
      with ("," :: list_ascii_of_string (String.concat "," (map enc (g :: gs))))%char.
    assert (Hstep : forall rest cur res, parse_csv_chars ("," :: rest)%char cur false res =
                      parse_csv_chars rest "" false (app res [trim cur])) by reflexivity.
    rewrite Hstep, IH by exact Hrest. rewrite <- app_assoc. reflexivity.
Qed.

End Fields.

(** [JSON]-style quoting of one CSV field. *)
Definition quote_field (f : string) : string := String dq_char (f ++ String dq_char "").

(** X19: [parseCSVLine] reads back a non-empty list of fields joined with
    commas, each field trimmed, when no field holds a comma or a double
    quote; and when every field is wrapped in double quotes, fields may hold
    commas (but no double quote). *)
Theorem parseCSVLine_round_trip :
  (forall fields, fields <> [] ->
   Forall (fun f => has_char dq_char f = false /\ has_char "," f = false) fields ->
   parseCSVLine (String.concat "," fields) = map trim fields) /\
  (forall fields, fields <> [] ->
   Forall (fun f => has_char dq_char f = false) fields ->
   parseCSVLine (String.concat "," (map quote_field fields)) = map trim fields).
Proof.
  split; intros [|f fs] Hne Hok; [contradiction| |contradiction|]; unfold parseCSVLine.
  - rewrite <- (map_id (f :: fs)) at 1.
    apply (parse_csv_concat (fun x => x)
             (fun f => has_char dq_char f = false /\ has_char "," f = false)); [|exact Hok].
    intros g rest current result [H1 H2]. apply parse_csv_plain; auto.
  - apply (parse_csv_concat quote_field (fun f => has_char dq_char f = false)); [|exact Hok].
    intros g rest current result Hg. unfold quote_field. simpl.
    rewrite list_ascii_of_string_app, <- app_assoc, parse_csv_plain by auto.
    reflexivity.
Qed.

Lemma in_trim (y : ascii) (s : string) :
  In y (list_ascii_of_string (trim s)) -> In y (list_ascii_of_string s).
Proof.
  unfold trim. rewrite list_ascii_of_string_of_list_ascii. unfold trim_list.
  intros H. apply in_rev, in_drop_ws, in_rev, in_drop_ws in H. exact H.
Qed.

Section FieldChars.
(** The characters a field may hold. *)
Variable S : ascii -> Prop.

Definition field_ok (f : string) : Prop :=
  trim f = f /\ forall y, In y (list_ascii_of_string f) -> y <> dq_char /\ S y.

Lemma parse_csv_fields (l : list ascii) : forall current inQuotes result,
  Forall field_ok result ->
  (forall y, In y (list_ascii_of_string current) -> y <> dq_char /\ S y) ->
  (forall y, In y l -> S y) ->
  Forall field_ok (parse_csv_chars l current inQuotes result).
Proof.
  induction l as [|c t IH]; intros current inQuotes result Hres Hcur Hl; simpl.
  - apply Forall_app. split; [exact Hres|]. constructor; [|constructor].
    split; [apply trim_idem|]. intros y Hy. apply Hcur, in_trim, Hy.
  - destruct (Ascii.eqb_spec c dq_char) as [Hc|Hc].
    + apply IH; auto. intros y Hy. apply Hl. right. exact Hy.
    + assert (Ht : forall y, In y t -> S y) by (intros y Hy; apply Hl; right; exact Hy).
      destruct (Ascii.eqb c "," && negb inQuotes).
      * apply IH; [|simpl; contradiction|exact Ht].
        apply Forall_app. split; [exact Hres|]. constructor; [|constructor].
        split; [apply trim_idem|]. intros y Hy. apply Hcur, in_trim, Hy.
      * apply IH; [exact Hres| |exact Ht].
        intros y Hy. rewrite list_ascii_of_string_app in Hy. apply in_app_or in Hy.
        destruct Hy as [Hy|[<-|[]]]; [apply Hcur, Hy|]. split; [exact Hc|apply Hl; left; auto].
Qed.

End FieldChars.

Lemma parseCSVLine_fields_aux (line : string) :
  Forall (field_ok (fun y => In y (list_ascii_of_string line))) (parseCSVLine line).
Proof.
  exact (parse_csv_fields (fun y => In y (list_ascii_of_string line))
           (list_ascii_of_string line) "" false [] (Forall_nil _)
           ltac:(simpl; contradiction) (fun y Hy => Hy)).
Qed.

(** X20: every field [parseCSVLine] returns is already trimmed and holds no
    double quote, and only characters of the line. *)
Theorem parseCSVLine_fields_clean (line : string) :
  Forall (fun f => trim f = f /\ has_char dq_char f = false /\
                   forall y, In y (list_ascii_of_string f) -> In y (list_ascii_of_string line))
         (parseCSVLine line).
Proof.
  eapply Forall_impl; [|apply parseCSVLine_fields_aux].
  intros f [Htr Hf]. split; [exact Htr|split].
  - rewrite has_char_list. apply not_true_iff_false. intros Hx.
    apply existsb_exists in Hx as (y & Hy & E). apply Ascii.eqb_eq in E. subst y.
    apply (Hf dq_char Hy). reflexivity.
  - intros y Hy. apply (Hf y Hy).
Qed.

Lemma has_char_concat (x : ascii) (sep : string) (l : list string) :
  has_char x sep = false -> Forall (fun s => has_char x s = false) l ->
  has_char x (String.concat sep l) = false.
Proof.
  intros Hs Hl. induction Hl as [|a t Ha _ IH]; [reflexivity|].
  destruct t as [|b t]; [exact Ha|].
  change (String.concat sep (a :: b :: t)) with (a ++ sep ++ String.concat sep (b :: t)).
  rewrite !has_char_app, Ha, Hs, IH. reflexivity.
Qed.

Lemma split_char_concat (sep : ascii) (l : list string) :
  l <> [] -> Forall (fun s => has_char sep s = false) l ->
  split_char sep (String.concat (String sep "") l) = l.
Proof.
  intros Hne Hl. induction Hl as [|a t Ha _ IH]; [contradiction|].
  destruct t as [|b t]; [apply split_char_none, Ha|].
  change (String.concat (String sep "") (a :: b :: t))
    with (a ++ String sep (String.concat (String sep "") (b :: t))).
  rewrite split_char_app, split_char_none by exact Ha.
  rewrite IH by discriminate. reflexivity.
Qed.

Lemma concat_snoc (sep : string) (l : list string) (y : string) :
  l <> [] -> String.concat sep (app l [y]) = String.concat sep l ++ sep ++ y.
Proof.
  intros Hne. induction l as [|a t IH]; [contradiction|].
  destruct t as [|b t]; [reflexivity|].
  change (String.concat sep (app (a :: b :: t) [y]))
    with (a ++ sep ++ String.concat sep (app (b :: t) [y])).
  rewrite IH by discriminate. simpl. rewrite !string_app_assoc. reflexivity.
Qed.

Lemma has_char_lf_nat_to_string (n : nat) : has_char lf (nat_to_string n) = false.
Proof.
  unfold nat_to_string. induction (Nat.to_uint n) as [| | | | | | | | | | ]; simpl;
    try rewrite IHu; reflexivity.
Qed.

Lemma firstn_min_length {A} (n : nat) (l : list A) : firstn (Nat.min (length l) n) l = firstn n l.
Proof.
  destruct (Nat.le_ge_cases (length l) n) as [H|H].
  - rewrite Nat.min_l by exact H. rewrite firstn_all, firstn_all2 by exact H. reflexivity.
  - rewrite Nat.min_r by exact H. reflexivity.
Qed.

Lemma has_char_lf_md_row (cells : list string) :
  Forall (fun s => has_char lf s = false) cells -> has_char lf (md_row cells) = false.
Proof.
  intros H. unfold md_row. rewrite !has_char_app, has_char_concat by (reflexivity || exact H).
  reflexivity.
Qed.

Lemma parseCSVLine_no_lf (line : string) :
  has_char lf line = false -> Forall (fun s => has_char lf s = false) (parseCSVLine line).
Proof.
  intros Hl. eapply Forall_impl; [|apply parseCSVLine_fields_aux].
  intros f [_ Hf]. rewrite has_char_list in Hl |- *. apply not_true_iff_false. intros Hx.
  apply existsb_exists in Hx as (y & Hy & E). apply Hf in Hy as [_ Hy].
  assert (existsb (fun d => Ascii.eqb d lf) (list_ascii_of_string line) = true)
    by (apply existsb_exists; eauto). congruence.
Qed.

(** X21: for lines without line feeds (the spreadsheet text split at line
    feeds), the lines of [convertCSVToMarkdown] are the header row of the
    first line, the [---] separator with one cell per header cell, the rows
    of at most the next 20 lines, and, when more lines follow, an empty line
    and a notice counting them. *)
Theorem convertCSVToMarkdown_lines (l0 : string) (rest : list string)
    (H : Forall (fun l => has_char lf l = false) (l0 :: rest)) :
  split_char lf (convertCSVToMarkdown (l0 :: rest)) =
  md_row (parseCSVLine l0) :: md_row (map (fun _ => "---") (parseCSVLine l0)) ::
  app (map (fun l => md_row (parseCSVLine l)) (firstn 20 rest))
      (if 20 <? length rest
       then [""; "[... " ++ nat_to_string (length rest - 20) ++ " more rows]"]
       else []).
Proof.
  assert (E : convertCSVToMarkdown (l0 :: rest) =
    String.concat nl
      (app [md_row (parseCSVLine l0); md_row (map (fun _ => "---") (parseCSVLine l0))]
        (app (map (fun l => md_row (parseCSVLine l)) (firstn 20 rest))
           (if 20 <? length rest
            then [nl ++ ("[... " ++ nat_to_string (length rest - 20) ++ " more rows]")]
            else [])))).
  { rewrite <- (map_map parseCSVLine md_row), <- (firstn_map parseCSVLine),
      <- (firstn_min_length 20 (map parseCSVLine rest)), <- (length_map parseCSVLine rest).
    unfold convertCSVToMarkdown.
    change (map parseCSVLine (l0 :: rest)) with (parseCSVLine l0 :: map parseCSVLine rest).
    change (length (parseCSVLine l0 :: map parseCSVLine rest))
      with (S (length (map parseCSVLine rest))).
    replace (Nat.min (S (length (map parseCSVLine rest))) 21 - 1)
      with (Nat.min (length (map parseCSVLine rest)) 20) by lia.
    reflexivity. }
  set (h := md_row (parseCSVLine l0)) in *.
  set (sp := md_row (map (fun _ => "---") (parseCSVLine l0))) in *.
  set (D := map (fun l => md_row (parseCSVLine l)) (firstn 20 rest)) in *.
  set (X := "[... " ++ nat_to_string (length rest - 20) ++ " more rows]") in *.
  inversion H as [|? ? H0 Hr]; subst.
  assert (Hrow : forall l, has_char lf l = false -> has_char lf (md_row (parseCSVLine l)) = false)
    by (intros l Hl; apply has_char_lf_md_row, parseCSVLine_no_lf, Hl).
  assert (HL : Forall (fun s => has_char lf s = false) (h :: sp :: D)).
  { constructor; [apply Hrow, H0|constructor].
    - apply has_char_lf_md_row. apply Forall_forall. intros y Hy.
      apply in_map_iff in Hy as (x & <- & _). reflexivity.
    - unfold D. apply Forall_map. apply Forall_forall. intros l Hl. apply Hrow.
      rewrite Forall_forall in Hr. apply Hr. rewrite <- (firstn_skipn 20 rest). apply in_or_app. left. exact Hl. }
  rewrite E. unfold nl.
  destruct (20 <? length rest).
  - rewrite app_assoc, concat_snoc by discriminate.
    change (String (ascii_of_nat 10) "" ++ String (ascii_of_nat 10) "" ++ X)
      with (String lf (String lf X)).
    rewrite split_char_app, split_char_concat by (discriminate || exact HL).
    change (split_char lf (String lf X)) with ("" :: split_char lf X).
    rewrite split_char_none; [reflexivity|].
    unfold X. rewrite !has_char_app, has_char_lf_nat_to_string. reflexivity.
  - rewrite app_nil_r. apply split_char_concat; [discriminate|exact HL].
Qed.

Lemma convertCSVToMarkdown_lines_witness :
  Forall (fun l => has_char lf l = false) ["name,qty"; "apples, 3"] /\
  split_char lf (convertCSVToMarkdown ["name,qty"; "apples, 3"]) =
  md_row (parseCSVLine "name,qty") :: md_row (map (fun _ => "---") (parseCSVLine "name,qty")) ::
  app (map (fun l => md_row (parseCSVLine l)) (firstn 20 ["apples, 3"]))
      (if 20 <? length ["apples, 3"]
       then [""; "[... " ++ nat_to_string (length ["apples, 3"] - 20) ++ " more rows]"]
       else []).
Proof.
  split; [repeat constructor|].
  apply convertCSVToMarkdown_lines. repeat constructor.
Defined.

Import Clients.

Section ClientFacts.
Variable num_truthy : Q -> bool.
Variable num_to_string : Q -> string.
Variable JSON_parse : string -> option jvalue.
Variable type_error : string -> string.
Variable syntax_error : string.
Variable js_add : jvalue -> jvalue -> jvalue.

Definition settles_as (prov : LLMProvider) (model : string) (request : ChatRequest)
    (hasOnStream : bool) (res : ChatResult) : Prop :=
  match res with
  | Rejected e => exists msg code, e = LLMError msg prov code
  | Streamed _ r =>
      hasOnStream = true /\ match LLMTypes.stream request with Some b => b | None => true end = true /\
      provider r = prov /\ LLMTypes.model r = model
  | NonStreamed r => ns_provider r = prov /\ ns_model r = model
  end.

Lemma rewrap_llm (prov : LLMProvider) (e : Thrown) (Hown : forall m p c, e = LLMError m p c -> p = prov) :
  exists msg code, rewrap prov e = LLMError msg prov code.
Proof.
  destruct e as [m p c|m|]; simpl; eauto.
  rewrite (Hown m p c eq_refl). eauto.
Qed.

Lemma http_error_prov (prov : LLMProvider) (d : string) (r : Response) :
  forall m p c, http_error num_truthy num_to_string type_error prov d r = LLMError m p c -> p = prov.
Proof.
  intros m p c. unfold http_error. destruct (member _ "error"); [|discriminate].
  cbv zeta. destruct (truthy _ _); [destruct (to_string_throws _); [discriminate|]|];
    intros H; injection H; auto.
Qed.

Lemma to_string_throws_truthy (v : jvalue) :
  to_string_throws v = true -> truthy num_truthy v = true.
Proof. destruct v; simpl; intros H; first [reflexivity|discriminate]. Qed.

Lemma chat_with_settles (prov : LLMProvider) (key_msg default_msg : string)
    (hs : list string -> list Emitted * ChatResponse)
    (hn : Response -> NonStreamResponse + Thrown) (model : string)
    (Hhs : forall chunks, provider (snd (hs chunks)) = prov /\ LLMTypes.model (snd (hs chunks)) = model)
    (Hhn : forall r ns, hn r = inl ns -> ns_provider ns = prov /\ ns_model ns = model)
    (Hhe : forall r e, hn r = inr e -> forall m p c, e = LLMError m p c -> p = prov)
    (apiKey : string) (request : ChatRequest) (hasOnStream : bool) (fr : FetchResult) :
  (forall e, fr = FetchRejected e -> forall m p c, e = LLMError m p c -> p = prov) ->
  settles_as prov model request hasOnStream
    (chat_with num_truthy num_to_string type_error prov key_msg default_msg hs hn
       apiKey request hasOnStream fr).
Proof.
  intros Hfr. unfold chat_with.
  destruct (String.eqb apiKey ""); [simpl; eauto|].
  destruct fr as [r|e].
  - destruct (negb (r_ok r)).
    + apply rewrap_llm, http_error_prov.
    + destruct (_ && hasOnStream) eqn:Hs.
      * destruct (r_chunks r) as [chunks|]; [|simpl; eauto].
        specialize (Hhs chunks). destruct (hs chunks) as [evs resp]. simpl in Hhs |- *.
        apply andb_true_iff in Hs as [Hs Ho]. subst hasOnStream.
        split; [reflexivity|split; [|exact Hhs]].
        destruct (LLMTypes.stream request); [exact Hs|reflexivity].
      * destruct (hn r) as [ns|e] eqn:E.
        -- exact (Hhn r ns E).
        -- apply rewrap_llm. exact (Hhe r e E).
  - apply rewrap_llm. apply (Hfr e eq_refl).
Qed.

Lemma claude_handleNonStream_ok (model : string) (r : Response) (ns : NonStreamResponse) :
  claude_handleNonStream num_truthy type_error syntax_error js_add model r = inl ns ->
  ns_provider ns = claude /\ ns_model ns = model.
Proof.
  unfold claude_handleNonStream.
  destruct (r_json r) as [data|]; [|discriminate].
  destruct (member data "content"); [|discriminate].
  intros H. injection H as <-. auto.
Qed.

Lemma claude_handleNonStream_err (model : string) (r : Response) (e : Thrown) :
  claude_handleNonStream num_truthy type_error syntax_error js_add model r = inr e ->
  forall m p c, e = LLMError m p c -> p = claude.
Proof.
  unfold claude_handleNonStream.
  destruct (r_json r) as [data|]; [|intros H; injection H as <-; discriminate].
  destruct (member data "content"); [discriminate|].
  intros H; injection H as <-; discriminate.
Qed.

Lemma openai_handleNonStream_ok (model : string) (r : Response) (ns : NonStreamResponse) :
  openai_handleNonStream num_truthy type_error syntax_error model r = inl ns ->
  ns_provider ns = openai /\ ns_model ns = model.
Proof.
  unfold openai_handleNonStream.
  destruct (r_json r) as [data|]; [|discriminate].
  destruct (member data "choices") as [ch|]; [|discriminate].
  destruct (index0 ch); [|discriminate].
  intros H. injection H as <-. auto.
Qed.

Lemma openai_handleNonStream_err (model : string) (r : Response) (e : Thrown) :
  openai_handleNonStream num_truthy type_error syntax_error model r = inr e ->
  forall m p c, e = LLMError m p c -> p = openai.
Proof.
  unfold openai_handleNonStream.
  destruct (r_json r) as [data|]; [|intros H; injection H as <-; discriminate].
  destruct (member data "choices") as [ch|]; [|intros H; injection H as <-; discriminate].
  destruct (index0 ch); [discriminate|].
  intros H; injection H as <-; discriminate.
Qed.

(** X22: [chat] of either client settles in one of three ways: it rejects
    only with an [LLMError] naming its own provider (provided [fetch] did
    not itself reject with an [LLMError], which it never does); it resolves
    through [handleStream] only when an observer was passed and the request
    does not set [stream: false]; every response it resolves with names the
    client's provider and model. *)
Theorem chat_settles (apiKey model : string) (request : ChatRequest) (hasOnStream : bool)
    (fr : FetchResult) :
  (forall e, fr = FetchRejected e -> forall m p c, e <> LLMError m p c) ->
  settles_as claude model request hasOnStream
    (claude_chat num_truthy num_to_string JSON_parse type_error syntax_error js_add
       apiKey model request hasOnStream fr) /\
  settles_as openai model request hasOnStream
    (openai_chat num_truthy num_to_string JSON_parse type_error syntax_error
       apiKey model request hasOnStream fr).
Proof.
  intros Hfr.
  assert (Hfr' : forall prov e, fr = FetchRejected e -> forall m p c, e = LLMError m p c -> p = prov)
    by (intros prov e He m p c E; exfalso; exact (Hfr e He m p c E)).
  split.
  - apply chat_with_settles.
    + intros chunks. split; reflexivity.
    + apply claude_handleNonStream_ok.
    + apply claude_handleNonStream_err.
    + apply Hfr'.
  - apply chat_with_settles.
    + intros chunks. split; reflexivity.
    + apply openai_handleNonStream_ok.
    + apply openai_handleNonStream_err.
    + apply Hfr'.
Qed.

Lemma chat_with_http_error (prov : LLMProvider) (key_msg default_msg : string)
    (hs : list string -> list Emitted * ChatResponse)
    (hn : Response -> NonStreamResponse + Thrown)
    (apiKey : string) (request : ChatRequest) (hasOnStream : bool) (r : Response) :
  apiKey <> "" -> r_ok r = false ->
  chat_with num_truthy num_to_string type_error prov key_msg default_msg hs hn
    apiKey request hasOnStream (Fetched r) =
  Rejected (rewrap prov (http_error num_truthy num_to_string type_error prov default_msg r)).
Proof.
  intros Hk Hok. unfold chat_with.
  destruct (String.eqb_spec apiKey ""); [contradiction|].
  rewrite Hok. reflexivity.
Qed.

Lemma http_error_cases (prov : LLMProvider) (d : string) (r : Response) :
  (r_json r = None ->
     rewrap prov (http_error num_truthy num_to_string type_error prov d r) =
     LLMError "Unknown error" prov (Some (r_status r))) /\
  (r_json r = Some JNull ->
     rewrap prov (http_error num_truthy num_to_string type_error prov d r) =
     LLMError (type_error "error") prov None) /\
  (forall v, r_json r = Some v -> v <> JNull -> v <> JUndef ->
     let m := opt_get (opt_get v "error") "message" in
     (to_string_throws m = true ->
        rewrap prov (http_error num_truthy num_to_string type_error prov d r) =
        LLMError to_primitive_error prov None) /\
     (to_string_throws m = false ->
        exists msg,
          rewrap prov (http_error num_truthy num_to_string type_error prov d r) =
          LLMError msg prov (Some (r_status r)) /\
          (forall s, m = JStr s -> s <> "" -> msg = s) /\
          (truthy num_truthy m = false -> msg = d))).
Proof.
  unfold http_error. split; [|split].
  - intros E. rewrite E. reflexivity.
  - intros E. rewrite E. reflexivity.
  - intros v E Hn Hu. rewrite E. cbv zeta.
    assert (Hm : member v "error" = Some (opt_get v "error"))
      by (destruct v; try contradiction; reflexivity).
    rewrite Hm. cbv beta iota.
    set (m := opt_get (opt_get v "error") "message").
    destruct (truthy num_truthy m) eqn:Ht; [destruct (to_string_throws m) eqn:Hth|].
    + split; [reflexivity|discriminate].
    + split; [discriminate|intros _]. eexists. split; [reflexivity|split].
      * intros s Es _. rewrite Es. reflexivity.
      * intros Hf. congruence.
    + assert (Hth : to_string_throws m = false).
      { destruct (to_string_throws m) eqn:X; [|reflexivity].
        rewrite (to_string_throws_truthy _ X) in Ht. discriminate. }
      split; [congruence|intros _]. eexists. split; [reflexivity|split].
      * intros s Es Hs. exfalso. rewrite Es in Ht. simpl in Ht.
        destruct (String.eqb_spec s ""); [contradiction|discriminate].
      * auto.
Qed.

(** X23: when the API answers with a non-OK status (and a key is set), [chat]
    of either client rejects with an [LLMError] of its own provider: if the
    body is not JSON, with message [Unknown error] and the HTTP status; if
    the body is JSON [null], with the TypeError of reading [error] and no
    status; otherwise, when converting [error.message] to a string throws
    (an object with an own [toString] key, or an array holding one), with
    the TypeError of that conversion and no status, and else with the HTTP
    status and the body's [error.message] when that is a non-empty string,
    or the client's default message when [error.message] is falsy. *)
Theorem chat_http_error (apiKey model : string) (request : ChatRequest) (hasOnStream : bool)
    (r : Response) (Hk : apiKey <> "") (Hok : r_ok r = false) :
  forall prov d res,
    (prov, d, res) = (claude, "Anthropic API request failed",
       claude_chat num_truthy num_to_string JSON_parse type_error syntax_error js_add
         apiKey model request hasOnStream (Fetched r)) \/
    (prov, d, res) = (openai, "OpenAI API request failed",
       openai_chat num_truthy num_to_string JSON_parse type_error syntax_error
         apiKey model request hasOnStream (Fetched r)) ->
  (r_json r = None -> res = Rejected (LLMError "Unknown error" prov (Some (r_status r)))) /\
  (r_json r = Some JNull -> res = Rejected (LLMError (type_error "error") prov None)) /\
  (forall v, r_json r = Some v -> v <> JNull -> v <> JUndef ->
     let m := opt_get (opt_get v "error") "message" in
     (to_string_throws m = true -> res = Rejected (LLMError to_primitive_error prov None)) /\
     (to_string_throws m = false ->
        exists msg, res = Rejected (LLMError msg prov (Some (r_status r))) /\
          (forall s, m = JStr s -> s <> "" -> msg = s) /\
          (truthy num_truthy m = false -> msg = d))).
Proof.
  intros prov d res Hc.
  assert (Hres : res = Rejected (rewrap prov (http_error num_truthy num_to_string type_error prov d r))).
  { destruct Hc as [Hc|Hc]; injection Hc as -> -> ->;
      [unfold claude_chat|unfold openai_chat]; apply chat_with_http_error; assumption. }
  destruct (http_error_cases prov d r) as [H1 [H2 H3]].
  rewrite Hres. split; [|split].
  - intros E. rewrite (H1 E). reflexivity.
  - intros E. rewrite (H2 E). reflexivity.
  - intros v E Hn Hu. destruct (H3 v E Hn Hu) as [Ht Hf]. split.
    + intros X. rewrite (Ht X). reflexivity.
    + intros X. destruct (Hf X) as [msg [Hm Hp]].
      exists msg. rewrite Hm. split; [reflexivity|exact Hp].
Qed.

Lemma chat_with_nonstream (prov : LLMProvider) (key_msg default_msg : string)
    (hs : list string -> list Emitted * ChatResponse)
    (hn : Response -> NonStreamResponse + Thrown)
    (apiKey : string) (request : ChatRequest) (hasOnStream : bool) (r : Response) :
  apiKey <> "" -> r_ok r = true ->
  (match LLMTypes.stream request with Some b => b | None => hasOnStream end && hasOnStream) = false ->
  chat_with num_truthy num_to_string type_error prov key_msg default_msg hs hn
    apiKey request hasOnStream (Fetched r) =
  match hn r with inl ns => NonStreamed ns | inr e => Rejected (rewrap prov e) end.
Proof.
  intros Hk Hok Hs. unfold chat_with.
  destruct (String.eqb_spec apiKey ""); [contradiction|].
  rewrite Hok. simpl negb. cbv iota zeta. rewrite Hs. reflexivity.
Qed.

(** X24: an OK, non-streamed reply whose JSON object lacks the field the
    client reads is treated differently by the two clients: the Claude
    client resolves with empty content when [content] is missing, while the
    OpenAI client rejects with the TypeError of reading [0] of [undefined],
    as an [LLMError] without status, when [choices] is missing. *)
Theorem chat_missing_field (apiKey model : string) (request : ChatRequest) (hasOnStream : bool)
    (r : Response) (kvs : list (string * jvalue))
    (Hk : apiKey <> "") (Hok : r_ok r = true)
    (Hs : (match LLMTypes.stream request with Some b => b | None => hasOnStream end && hasOnStream) = false)
    (Hj : r_json r = Some (JObj kvs)) :
  (lookup_last "content" kvs = None ->
   exists ns,
     claude_chat num_truthy num_to_string JSON_parse type_error syntax_error js_add
       apiKey model request hasOnStream (Fetched r) = NonStreamed ns /\
     ns_content ns = JStr "") /\
  (lookup_last "choices" kvs = None ->
   openai_chat num_truthy num_to_string JSON_parse type_error syntax_error
     apiKey model request hasOnStream (Fetched r) =
   Rejected (LLMError (type_error "0") openai None)).
Proof.
  split; intros Hl.
  - unfold claude_chat. rewrite chat_with_nonstream by assumption.
    unfold claude_handleNonStream. rewrite Hj. simpl member. rewrite Hl.
    eexists. split; reflexivity.
  - unfold openai_chat. rewrite chat_with_nonstream by assumption.
    unfold openai_handleNonStream. rewrite Hj. simpl member. rewrite Hl.
    reflexivity.
Qed.

End ClientFacts.

(** Witness of [chat_settles]: a fetch rejected with a non-[Error] value. *)
Lemma chat_settles_witness :
  (forall e, FetchRejected NonErrorValue = FetchRejected e -> forall m p c, e <> LLMError m p c) /\
  settles_as claude "m" (mkChatRequest [] None None None) true
    (claude_chat example_num_truthy example_num_to_string example_parse example_type_error
       "SyntaxError" example_js_add "key" "m" (mkChatRequest [] None None None) true
       (FetchRejected NonErrorValue)).
Proof.
  assert (H : forall e, FetchRejected NonErrorValue = FetchRejected e -> forall m p c, e <> LLMError m p c)
    by (intros e E m p c; injection E as <-; discriminate).
  split; [exact H|].
  exact (proj1 (chat_settles example_num_truthy example_num_to_string example_parse
    example_type_error "SyntaxError" example_js_add "key" "m" (mkChatRequest [] None None None) true
    (FetchRejected NonErrorValue) H)).
Defined.

Definition example_error_response : Response :=
  mkResponse false 429 (Some (JObj [("error", JObj [("message", JStr "Rate limit reached")])])) None.

(** Witness of [chat_http_error]: a 429 reply carrying an error message. *)
Lemma chat_http_error_witness :
  "key" <> "" /\ r_ok example_error_response = false /\
  exists msg,
    claude_chat example_num_truthy example_num_to_string example_parse example_type_error
      "SyntaxError" example_js_add "key" "m" (mkChatRequest [] None None None) false
      (Fetched example_error_response) = Rejected (LLMError msg claude (Some 429%Z)) /\
    msg = "Rate limit reached".
Proof.
  assert (Hk : "key" <> "") by discriminate.
  assert (Hok : r_ok example_error_response = false) by reflexivity.
  split; [exact Hk|split; [exact Hok|]].
  destruct (chat_http_error example_num_truthy example_num_to_string example_parse
    example_type_error "SyntaxError" example_js_add "key" "m" (mkChatRequest [] None None None) false
    example_error_response Hk Hok claude "Anthropic API request failed"
    (claude_chat example_num_truthy example_num_to_string example_parse example_type_error
      "SyntaxError" example_js_add "key" "m" (mkChatRequest [] None None None) false
      (Fetched example_error_response)) (or_introl eq_refl)) as [_ [_ H3]].
  destruct (H3 (JObj [("error", JObj [("message", JStr "Rate limit reached")])]) eq_refl
    ltac:(discriminate) ltac:(discriminate)) as [_ Hf].
  destruct (Hf eq_refl) as [msg [Hr [Hs _]]].
  exists msg. split; [exact Hr|].
  apply Hs; [reflexivity|discriminate].
Defined.

Definition example_ok_response : Response :=
  mkResponse true 200 (Some (JObj [("id", JStr "msg_1")])) None.

(** Witness of [chat_missing_field]: an OK reply with neither field. *)
Lemma chat_missing_field_witness :
  (exists ns,
     claude_chat example_num_truthy example_num_to_string example_parse example_type_error
       "SyntaxError" example_js_add "key" "m" (mkChatRequest [] None None None) false
       (Fetched example_ok_response) = NonStreamed ns /\ ns_content ns = JStr "") /\
  openai_chat example_num_truthy example_num_to_string example_parse example_type_error
    "SyntaxError" "key" "m" (mkChatRequest [] None None None) false
    (Fetched example_ok_response) =
  Rejected (LLMError (example_type_error "0") openai None).
Proof.
  destruct (chat_missing_field example_num_truthy example_num_to_string example_parse
    example_type_error "SyntaxError" example_js_add "key" "m" (mkChatRequest [] None None None) false
    example_ok_response [("id", JStr "msg_1")] ltac:(discriminate) eq_refl eq_refl eq_refl)
    as [H1 H2].
  split; [exact (H1 eq_refl)|exact (H2 eq_refl)].
Defined.

Import ConfigUI.

Lemma truthy_key_spec (o : option string) (k : string) :
  truthy_key o = Some k <-> o = Some k /\ k <> "".
Proof.
  destruct o as [s|]; simpl; [|split; [discriminate|intros [H _]; discriminate]].
  destruct (String.eqb_spec s ""); split.
  - discriminate.
  - intros [H Hk]. injection H as <-. contradiction.
  - intros H. injection H as <-. auto.
  - intros [H _]. injection H as <-. reflexivity.
Qed.

Lemma truthy_key_str (o : option string) :
  truthy_str o = match truthy_key o with Some _ => true | None => false end.
Proof. destruct o as [s|]; simpl; [destruct (String.eqb s ""); reflexivity|reflexivity]. Qed.

Lemma createLLMClient_none (config : APIConfig) :
  createLLMClient config = None <-> hasValidConfig config = false.
Proof.
  unfold createLLMClient, hasValidConfig. rewrite !truthy_key_str.
  destruct (truthy_key (openaiApiKey config)), (truthy_key (claudeApiKey config)),
    (String.eqb (defaultProvider config) "openai"), (String.eqb (defaultProvider config) "claude");
    simpl; split; intros H; first [reflexivity|discriminate H].
Qed.

(** X25: [createLLMClient] returns [null] exactly when [hasValidConfig] is
    false. Otherwise it builds an OpenAI client, with the configured model,
    when an OpenAI key is set unless the default provider is [claude] and a
    Claude key is set; else a Claude client with its default model. The key
    it passes is always the configured, non-empty key. *)
Theorem createLLMClient_spec (config : APIConfig) :
  (createLLMClient config = None <-> hasValidConfig config = false) /\
  forall c label,
    createLLMClient config = Some (c, label) <->
    (exists k, openaiApiKey config = Some k /\ k <> "" /\
       ~ (defaultProvider config = "claude" /\ truthy_str (claudeApiKey config) = true) /\
       c = OpenAIClient k (openaiModel config) /\ label = "OpenAI (" ++ openaiModel config ++ ")") \/
    (exists k, claudeApiKey config = Some k /\ k <> "" /\
       (defaultProvider config = "claude" \/ truthy_str (openaiApiKey config) = false) /\
       c = ClaudeClient k claude_default_model /\ label = "Claude 3.5 Sonnet").
Proof.
  assert (E : forall o k (X : Prop), (o = Some k /\ k <> "" /\ X) <-> (truthy_key o = Some k /\ X))
    by (intros o k X; rewrite truthy_key_spec; tauto).
  split; [apply createLLMClient_none|].
  setoid_rewrite E. unfold createLLMClient, hasValidConfig. rewrite !truthy_key_str.
  generalize (truthy_key (openaiApiKey config)) as o, (truthy_key (claudeApiKey config)) as c0.
  intros o c0.
  destruct (String.eqb_spec (defaultProvider config) "openai") as [Pp|Pp];
  destruct (String.eqb_spec (defaultProvider config) "claude") as [Pc|Pc];
  try (rewrite Pp in Pc; discriminate Pc);
  destruct o as [ko|]; destruct c0 as [kc|]; simpl;
  intros c label; split;
  try (intros H; injection H as <- <-);
  try (intros [[k [Hk [Hn [-> ->]]]]|[k [Hk [Hp [-> ->]]]]]);
  try discriminate;
  try (injection Hk as ->);
  try (left; eexists; split; [reflexivity|split; [|split; reflexivity]];
       intros [H1 H2]; congruence);
  try (right; eexists; split; [reflexivity|split; [|split; reflexivity]];
       first [left; assumption|right; reflexivity]);
  try reflexivity;
  try (exfalso; apply Hn; split; [assumption|reflexivity]);
  try (exfalso; destruct Hp as [Hp|Hp]; [contradiction|discriminate]).
Qed.

Section ConfigFacts.
Variable stringify : APIConfig -> option string.
Variable parse : string -> option APIConfig.
Variable room : store -> string -> string -> bool.

Lemma loadConfig_saveConfig (c : APIConfig) (st : store) (s : string) :
  stringify c = Some s -> parse s = Some c -> room st (default_prefix ++ CONFIG_KEY) s = true ->
  loadConfig parse (saveConfig stringify room c st) = c.
Proof.
  intros Hs Hp Hr. unfold saveConfig, set. rewrite Hs, Hr. simpl.
  unfold loadConfig, get. rewrite getItem_setItem, String.eqb_refl, Hp. reflexivity.
Qed.

Lemma new_key_spec (input k : string) :
  (if String.eqb (trim input) "" then None else Some (trim input)) = Some k <->
  k = trim input /\ k <> "".
Proof.
  destruct (String.eqb_spec (trim input) "") as [E|E]; split.
  - discriminate.
  - intros [-> H]. contradiction.
  - intros H. injection H as <-. auto.
  - intros [-> _]. reflexivity.
Qed.

(** X26: [handleSaveSettings] refuses a form whose two keys are blank after
    trimming: it shows [Please provide at least one API key] and changes
    neither the config nor the store. Otherwise the new config holds each
    key trimmed, and only when it is non-empty, with the selected provider
    and model; [hasValidConfig] holds of it, so [createLLMClient] returns a
    client; and when the write is accepted, [loadConfig] reads back this
    config. *)
Theorem handleSaveSettings_spec (openaiInput claudeInput providerValue modelValue : string)
    (config : APIConfig) (st : store) :
  let '(shown, config', st') :=
    handleSaveSettings stringify room openaiInput claudeInput providerValue modelValue config st in
  (trim openaiInput = "" /\ trim claudeInput = "" ->
     shown = ShowError "Please provide at least one API key" /\ config' = config /\ st' = st) /\
  (trim openaiInput <> "" \/ trim claudeInput <> "" ->
     shown = ShowSuccess "Settings saved successfully" /\
     (forall k, openaiApiKey config' = Some k <-> k = trim openaiInput /\ k <> "") /\
     (forall k, claudeApiKey config' = Some k <-> k = trim claudeInput /\ k <> "") /\
     defaultProvider config' = providerValue /\ openaiModel config' = modelValue /\
     hasValidConfig config' = true /\ createLLMClient config' <> None /\
     (forall s, stringify config' = Some s -> parse s = Some config' ->
        room st (default_prefix ++ CONFIG_KEY) s = true -> loadConfig parse st' = config')).
Proof.
  unfold handleSaveSettings. simpl truthy_str. cbv zeta.
  destruct (negb (negb (String.eqb (trim openaiInput) "")) &&
            negb (negb (String.eqb (trim claudeInput) ""))) eqn:Hb.
  - rewrite !negb_involutive in Hb. apply andb_true_iff in Hb as [Ho Hc].
    apply String.eqb_eq in Ho, Hc.
    split; [auto|]. intros [H|H]; contradiction.
  - split.
    + intros [Ho Hc]. rewrite Ho, Hc in Hb. discriminate.
    + intros Hne.
      assert (Hv : hasValidConfig (mkAPIConfig
         (if String.eqb (trim openaiInput) "" then None else Some (trim openaiInput))
         (if String.eqb (trim claudeInput) "" then None else Some (trim claudeInput))
         providerValue modelValue) = true).
      { unfold hasValidConfig; simpl.
        destruct (String.eqb_spec (trim openaiInput) ""), (String.eqb_spec (trim claudeInput) "");
          simpl; try (rewrite (proj2 (String.eqb_neq _ _)) by assumption);
          try reflexivity; try (destruct Hne; contradiction); apply orb_true_r. }
      split; [reflexivity|].
      split; [intros k; apply new_key_spec|].
      split; [intros k; apply new_key_spec|].
      split; [reflexivity|split; [reflexivity|]].
      split; [exact Hv|split; [intros Hn; apply createLLMClient_none in Hn; congruence|]].
      intros s Hs Hp Hr. exact (loadConfig_saveConfig _ st s Hs Hp Hr).
Qed.

Lemma clear_prefixed_get (p k : string) (st : store) (Hsh : shadowed (p ++ k) = false) :
  getItem (clear p st) (p ++ k) = None.
Proof.
  destruct (getItem (clear p st) (p ++ k)) as [v|] eqn:E; [|reflexivity].
  exfalso.
  assert (Hin : In (p ++ k) (Object_keys (clear p st)))
    by (apply in_Object_keys; split; [apply getItem_in; eauto|exact Hsh]).
  unfold clear in Hin.
  change (fun st key => if startsWith key p then removeItem st key else st)
    with (clear_step p) in Hin.
  apply clear_fold_keys in Hin as [Hin Hn]. apply Hn. split; [|exact Hin].
  apply startsWith_app. eauto.
Qed.

(** X27: a confirmed [handleClearData] resets the config to the defaults
    (provider [claude], model [gpt-4], no keys), so [createLLMClient]
    returns [null]; the stored config and the saved flows are gone, since
    [loadConfig] and [getAllFlows] then give the defaults; items outside
    the [chatbot_flows_] prefix are kept. Declining the confirmation
    changes nothing. *)
Theorem handleClearData_spec (parse_flows : string -> option (list SavedFlow))
    (confirmed : bool) (config : APIConfig) (st : store) :
  let '(shown, config', st') := handleClearData confirmed config st in
  (confirmed = false -> shown = None /\ config' = config /\ st' = st) /\
  (confirmed = true ->
     shown = Some (ShowSuccess "All data cleared") /\ config' = getDefaultConfig /\
     createLLMClient config' = None /\
     loadConfig parse st' = getDefaultConfig /\ getAllFlows parse_flows st' = [] /\
     forall k, startsWith k default_prefix = false -> getItem st' k = getItem st k).
Proof.
  unfold handleClearData. destruct confirmed; simpl.
  - split; [discriminate|]. intros _.
    split; [reflexivity|split; [reflexivity|split; [reflexivity|]]].
    split; [unfold loadConfig, get; rewrite clear_prefixed_get by apply default_prefix_not_shadowed; reflexivity|].
    split; [unfold getAllFlows, get; rewrite clear_prefixed_get by apply default_prefix_not_shadowed; reflexivity|].
    intros k Hk. unfold clear.
    change (fun st key => if startsWith key default_prefix then removeItem st key else st)
      with (clear_step default_prefix).
    apply clear_fold_get. exact Hk.
  - split; [auto|discriminate].
Qed.

End ConfigFacts.

Import ChatUI.

Section ChatUIFacts.
Variable num_truthy : Q -> bool.
Variable num_to_string : Q -> string.
Variable JSON_parse : string -> option jvalue.
Variable type_error : string -> string.
Variable syntax_error : string.
Variable js_add : jvalue -> jvalue -> jvalue.

Lemma observe_fold (evs : list Emitted) (a : string) :
  fold_left (observe num_to_string) evs (a, a) =
  (fold_left (fun acc e => if em_done e then acc else acc ++ to_js_string num_to_string (em_content e))
     evs a,
   fold_left (fun acc e => if em_done e then acc else acc ++ to_js_string num_to_string (em_content e))
     evs a).
Proof.
  revert a. induction evs as [|e evs IH]; intros a; simpl; [reflexivity|].
  unfold observe at 2. destruct (em_done e); simpl; apply IH.
Qed.

Lemma observe_emitted_text (evs : list Emitted) :
  snd (fold_left (observe num_to_string) evs ("", "")) = emitted_text num_to_string evs.
Proof. rewrite observe_fold. reflexivity. Qed.

Lemma handleStream_content (on_line : StreamState -> string -> StreamState)
    (Hl : forall st line, StreamFacts.stream_inv num_truthy num_to_string st ->
          StreamFacts.stream_inv num_truthy num_to_string (on_line st line))
    (chunks : list string) :
  emitted_text num_to_string (emitted (read_stream on_line chunks)) =
  fullContent (read_stream on_line chunks).
Proof.
  destruct (StreamFacts.read_stream_inv num_truthy num_to_string on_line chunks Hl) as [H _].
  symmetry. exact H.
Qed.

Lemma send_with_chat_with (prov : LLMProvider) (key_msg default_msg : string)
    (hs : list string -> list Emitted * ChatResponse)
    (hn : Response -> NonStreamResponse + Thrown)
    (Hhs : forall chunks, emitted_text num_to_string (fst (hs chunks)) = resp_content (snd (hs chunks)))
    (apiKey : string) (fr : FetchResult)
    (input provider userId assistantId : string) (now1 now2 : Z) (messages : list ChatMessage) :
  let '(out, messages') :=
    handleSendMessage num_to_string input
      (Some (fun req h => chat_with num_truthy num_to_string type_error prov key_msg default_msg
                            hs hn apiKey req h fr))
      provider userId assistantId now1 now2 messages in
  (trim input = "" -> out = Ignored /\ messages' = messages) /\
  (trim input <> "" ->
   exists rest,
     messages' = app messages (mkChatMessage userId user (trim input) now1 None :: rest) /\
     ((exists e, rest = [] /\ out = ShowError (error_message e)) \/
      (out = Sent /\
       exists r chunks, fr = Fetched r /\ r_ok r = true /\ r_chunks r = Some chunks /\
         rest = [mkChatMessage assistantId assistant (resp_content (snd (hs chunks))) now2
                   (Some provider)]))).
Proof.
  unfold handleSendMessage. cbv zeta.
  destruct (String.eqb (trim input) "") eqn:E;
    [apply String.eqb_eq in E|apply String.eqb_neq in E].
  { split; [auto|]. intros H. contradiction. }
  unfold chat_with. simpl LLMTypes.stream. cbv iota zeta.
  destruct (String.eqb apiKey ""); cbv iota;
    [split; [intros H; contradiction|]; intros _;
     exists []; split; [reflexivity|]; left; eauto|].
  destruct fr as [r|e];
    [|split; [intros H; contradiction|]; intros _;
      exists []; split; [reflexivity|]; left; eauto].
  destruct (r_ok r) eqn:Hok; simpl negb; cbv iota;
    [|split; [intros H; contradiction|]; intros _;
      exists []; split; [reflexivity|]; left; eauto].
  destruct (r_chunks r) as [chunks|] eqn:Hc;
    [|split; [intros H; contradiction|]; intros _;
      exists []; split; [reflexivity|]; left; eauto].
  specialize (Hhs chunks). destruct (hs chunks) as [evs resp] eqn:Ehs. simpl in Hhs |- *.
  split; [intros H; contradiction|]. intros _.
  eexists. split; [rewrite <- app_assoc; reflexivity|]. right.
  split; [reflexivity|]. exists r, chunks.
  split; [reflexivity|split; [exact Hok|split; [exact Hc|]]].
  rewrite Ehs, observe_emitted_text, Hhs. reflexivity.
Qed.

(** X28: [handleSendMessage] ignores a blank input. Otherwise, used with the
    Claude or the OpenAI client, it appends the trimmed input as a user
    message, and then either shows the error's message and appends nothing
    more, or appends one assistant message. The assistant message is added
    only for an OK response with a readable body, and its content is
    exactly the [content] of the [ChatResponse] the client's
    [handleStream] returns: the text the observer accumulates is the text
    the client accumulates. *)
Theorem handleSendMessage_history (apiKey model : string) (fr : FetchResult)
    (input provider userId assistantId : string) (now1 now2 : Z) (messages : list ChatMessage) :
  forall chat hs,
    (chat, hs) = (fun req h => claude_chat num_truthy num_to_string JSON_parse type_error
                     syntax_error js_add apiKey model req h fr,
                  claude_handleStream num_truthy num_to_string JSON_parse model) \/
    (chat, hs) = (fun req h => openai_chat num_truthy num_to_string JSON_parse type_error
                     syntax_error apiKey model req h fr,
                  openai_handleStream num_truthy num_to_string JSON_parse model) ->
  let '(out, messages') :=
    handleSendMessage num_to_string input (Some chat) provider userId assistantId now1 now2 messages in
  (trim input = "" -> out = Ignored /\ messages' = messages) /\
  (trim input <> "" ->
   exists rest,
     messages' = app messages (mkChatMessage userId user (trim input) now1 None :: rest) /\
     ((exists e, rest = [] /\ out = ShowError (error_message e)) \/
      (out = Sent /\
       exists r chunks, fr = Fetched r /\ r_ok r = true /\ r_chunks r = Some chunks /\
         rest = [mkChatMessage assistantId assistant (resp_content (snd (hs chunks))) now2
                   (Some provider)]))).
Proof.
  intros chat hs [H|H]; injection H as -> ->; apply send_with_chat_with; intros chunks;
    apply handleStream_content; intros st line;
    [apply StreamFacts.claude_line_inv|apply StreamFacts.openai_line_inv].
Qed.

End ChatUIFacts.

(** Witness of [handleSendMessage_history]: a padded input sent with the
    Claude client, whose fetch rejects. *)
Lemma handleSendMessage_history_witness :
  snd (handleSendMessage example_num_to_string "  hi "
         (Some (fun req h => claude_chat example_num_truthy example_num_to_string example_parse
                  example_type_error "SyntaxError" example_js_add "key" "m" req h
                  (FetchRejected NonErrorValue)))
         "Claude 3.5 Sonnet" "u1" "a1" 1 2 []) =
  [mkChatMessage "u1" user "hi" 1 None].
Proof.
  pose proof (handleSendMessage_history example_num_truthy example_num_to_string example_parse
    example_type_error "SyntaxError" example_js_add "key" "m" (FetchRejected NonErrorValue)
    "  hi " "Claude 3.5 Sonnet" "u1" "a1" 1 2 []
    (fun req h => claude_chat example_num_truthy example_num_to_string example_parse
       example_type_error "SyntaxError" example_js_add "key" "m" req h (FetchRejected NonErrorValue))
    (claude_handleStream example_num_truthy example_num_to_string example_parse "m")
    (or_introl eq_refl)) as H.
  destruct (handleSendMessage _ _ _ _ _ _ _ _ _) as [out msgs] eqn:Eh.
  destruct H as [_ H]. destruct (H ltac:(discriminate)) as [rest [Hm [[e [-> _]]|[_ [r [c [Hr _]]]]]]].
  - simpl. rewrite Hm. reflexivity.
  - discriminate Hr.
Defined.
